(** * Hipe: the dynamic thread pond ([dynamic_pond.h])

    A shallow embedding of [hipe::DynamicThreadPond] as a small-step
    machine.  The class fields become one record; every public member
    function becomes the list of atomic actions it performs, in source
    order; the private [worker] loop becomes a transition function on the
    control point of one worker thread.  Threads interleave at the
    granularity of these atomic actions, so a critical section is a run of
    several steps during which [shared_locker] is owned. *)

From stdpp Require Import base list numbers.

Local Open Scope Z_scope.

(** ** Machine integers

    [int] and [std::atomic_int] are 32-bit two's complement.  Arithmetic on
    the atomics wraps; the plain [int thread_numb] is given the same
    arithmetic (overflow is undefined there, the statements about it carry
    range hypotheses). *)

Definition INT_MIN : Z := - 2 ^ 31.
Definition INT_MAX : Z := 2 ^ 31 - 1.

Definition wrap (z : Z) : Z := (z + 2 ^ 31) mod 2 ^ 32 - 2 ^ 31.

Definition in_int (z : Z) : Prop := INT_MIN <= z <= INT_MAX.

(** ** Tasks and result channels

    [HipeTask] is a type-erased callable declared in [header.h].  All the
    pond does with one is move it and invoke it, so a task is represented
    by what invoking it does: return (a value) or raise.  A task built by
    [submitForReturn] is a [std::packaged_task]: invoking it stores the
    outcome in the shared state of its future and returns normally. *)

Inductive outcome : Type :=
| Value (v : Z)
| Failure.

Inductive HipeTask : Type :=
| Plain (foo : outcome)
| Packaged (ch : nat) (foo : outcome).

(** ** Threads *)

(** Control points of [worker(int index)], lines 232-263. *)
Inductive wstate : Type :=
| WLoopHead                 (* about to test [while (!stop)] *)
| WWantLock                 (* acquiring [shared_locker] (first time or after a wake) *)
| WCheckPred                (* owns the lock, about to evaluate the wait predicate *)
| WSuspending               (* predicate was false, about to release and sleep *)
| WBlocked                  (* asleep on [awake_cv], lock released *)
| WAwake                    (* [wait] returned, owns the lock, line 241 *)
| WLoaded (t : HipeTask)    (* task moved out, lock released, line 251 *)
| WInvoke (t : HipeTask)    (* [task_loaded] bumped, task running, line 254 *)
| WReturned                 (* task returned, line 255 *)
| WDecremented              (* [total_tasks] decremented, line 257 *)
| WNotifyLock               (* acquiring [inner_locker], line 258 *)
| WNotifyHeld               (* owns the lock, line 259 *)
| WExited.                  (* thread function returned *)

(** A [std::thread] object of the [pond] vector: either it has a thread of
    execution (joinable), started as [worker(index)], or it has none. *)
Inductive handle : Type :=
| NotJoinable
| Thread (index : Z) (w : wstate).

Inductive tid : Type :=
| Worker (i : nat)
| Caller (k : nat).

Inductive cv : Type := awake_cv | task_done_cv.

Inductive error : Type :=
| AssertionFailure          (* [assert] failed *)
| SystemError               (* [std::system_error], join on a non-joinable thread *)
| Terminate                 (* [std::terminate] *)
| Undefined.                (* undefined behaviour *)

Inductive result (A : Type) : Type :=
| Ok (a : A)
| NotEnabled                (* the thread cannot take a step now *)
| Fault (e : error).

Arguments Ok {A} a.
Arguments NotEnabled {A}.
Arguments Fault {A} e.

(** ** Atomic actions of a calling thread *)

Inductive instr : Type :=
| ILock                          (* HipeLockGuard / HipeUniqGuard / lock() *)
| IUnlock                        (* end of guard scope / unlock() *)
| IPush (t : option HipeTask)    (* shared_tq.emplace(...); [None]: cont[i] out of range *)
| IAddTotal (n : Z)              (* total_tasks += n *)
| INotifyOne                     (* awake_cv.notify_one() *)
| INotifyAll                     (* awake_cv.notify_all() *)
| ISetStop                       (* stop = true *)
| ISetWaiting (b : bool)         (* waiting = b *)
| IAssert (b : bool)             (* assert on the arguments only *)
| IAssertDel (n : Z)             (* assert((tnumb <= thread_numb) && (tnumb >= 0)) *)
| IAddShrink (n : Z)             (* shrink_numb += n *)
| IAddThreadNumb (n : Z)         (* thread_numb += n *)
| IRecycleOrNew                  (* if (!deleted_threads.empty()) ... else ..., lock owned *)
| IJoin (idx : Z)                (* pond[idx].join() *)
| IRebind (idx : Z)              (* pond[idx] = std::thread(worker, this, idx) *)
| IEmplace                       (* pond.emplace_back(worker, this, pond.size()) *)
| IJoinAll                       (* for (auto &thread : pond) thread.join() *)
| IAdjust (target : Z)           (* the two comparisons of adjustThreads *)
| ICheckDrain                    (* predicate of task_done_cv.wait, lock owned *)
| ISuspendDrain                  (* release the lock and sleep on task_done_cv *)
| IBlockedDrain                  (* asleep on task_done_cv *)
| IMakePack (foo : outcome)      (* packaged_task + future of submitForReturn *)
| IDestroy.                      (* ~DynamicThreadPond *)

Abbreviation code := (list instr).

(** ** The pond *)

Record system : Type := mkSystem {
  stop : bool;
  thread_numb : Z;
  waiting : bool;
  total_tasks : Z;
  shared_tq : list HipeTask;
  shared_locker : option tid;           (* owner of the mutex *)
  pond : list handle;
  shrink_numb : Z;
  deleted_threads : list Z;
  task_loaded : Z;
  futures : list (option outcome);      (* shared states of the futures handed out *)
  callers : list code                   (* what each calling thread still has to run *)
}.

Definition set_stop (b : bool) (s : system) : system :=
  mkSystem b (thread_numb s) (waiting s) (total_tasks s) (shared_tq s) (shared_locker s)
           (pond s) (shrink_numb s) (deleted_threads s) (task_loaded s) (futures s) (callers s).
Definition set_thread_numb (n : Z) (s : system) : system :=
  mkSystem (stop s) n (waiting s) (total_tasks s) (shared_tq s) (shared_locker s)
           (pond s) (shrink_numb s) (deleted_threads s) (task_loaded s) (futures s) (callers s).
Definition set_waiting (b : bool) (s : system) : system :=
  mkSystem (stop s) (thread_numb s) b (total_tasks s) (shared_tq s) (shared_locker s)
           (pond s) (shrink_numb s) (deleted_threads s) (task_loaded s) (futures s) (callers s).
Definition set_total_tasks (n : Z) (s : system) : system :=
  mkSystem (stop s) (thread_numb s) (waiting s) n (shared_tq s) (shared_locker s)
           (pond s) (shrink_numb s) (deleted_threads s) (task_loaded s) (futures s) (callers s).
Definition set_shared_tq (q : list HipeTask) (s : system) : system :=
  mkSystem (stop s) (thread_numb s) (waiting s) (total_tasks s) q (shared_locker s)
           (pond s) (shrink_numb s) (deleted_threads s) (task_loaded s) (futures s) (callers s).
Definition set_shared_locker (o : option tid) (s : system) : system :=
  mkSystem (stop s) (thread_numb s) (waiting s) (total_tasks s) (shared_tq s) o
           (pond s) (shrink_numb s) (deleted_threads s) (task_loaded s) (futures s) (callers s).
Definition set_pond (p : list handle) (s : system) : system :=
  mkSystem (stop s) (thread_numb s) (waiting s) (total_tasks s) (shared_tq s) (shared_locker s)
           p (shrink_numb s) (deleted_threads s) (task_loaded s) (futures s) (callers s).
Definition set_shrink_numb (n : Z) (s : system) : system :=
  mkSystem (stop s) (thread_numb s) (waiting s) (total_tasks s) (shared_tq s) (shared_locker s)
           (pond s) n (deleted_threads s) (task_loaded s) (futures s) (callers s).
Definition set_deleted_threads (d : list Z) (s : system) : system :=
  mkSystem (stop s) (thread_numb s) (waiting s) (total_tasks s) (shared_tq s) (shared_locker s)
           (pond s) (shrink_numb s) d (task_loaded s) (futures s) (callers s).
Definition set_task_loaded (n : Z) (s : system) : system :=
  mkSystem (stop s) (thread_numb s) (waiting s) (total_tasks s) (shared_tq s) (shared_locker s)
           (pond s) (shrink_numb s) (deleted_threads s) n (futures s) (callers s).
Definition set_futures (f : list (option outcome)) (s : system) : system :=
  mkSystem (stop s) (thread_numb s) (waiting s) (total_tasks s) (shared_tq s) (shared_locker s)
           (pond s) (shrink_numb s) (deleted_threads s) (task_loaded s) f (callers s).
Definition set_callers (c : list code) (s : system) : system :=
  mkSystem (stop s) (thread_numb s) (waiting s) (total_tasks s) (shared_tq s) (shared_locker s)
           (pond s) (shrink_numb s) (deleted_threads s) (task_loaded s) (futures s) c.

(** ** Mutex and condition variables *)

Definition tid_eqb (a b : tid) : bool :=
  match a, b with
  | Worker i, Worker j => Nat.eqb i j
  | Caller i, Caller j => Nat.eqb i j
  | _, _ => false
  end.

(** [std::mutex::lock]: enabled only when nobody owns the mutex. *)
Definition lock (me : tid) (s : system) : result system :=
  match shared_locker s with
  | None => Ok (set_shared_locker (Some me) s)
  | Some _ => NotEnabled
  end.

(** [std::mutex::unlock]: undefined when the caller is not the owner. *)
Definition unlock (me : tid) (s : system) : result system :=
  match shared_locker s with
  | Some owner => if tid_eqb owner me then Ok (set_shared_locker None s) else Fault Undefined
  | None => Fault Undefined
  end.

Definition is_blocked (h : handle) : bool :=
  match h with Thread _ WBlocked => true | _ => false end.

Definition wake_handle (h : handle) : handle :=
  match h with Thread index WBlocked => Thread index WWantLock | _ => h end.

(** Slots of the workers asleep on [awake_cv]. *)
Fixpoint blocked_from (i : nat) (p : list handle) : list nat :=
  match p with
  | [] => []
  | h :: p' => if is_blocked h then i :: blocked_from (S i) p' else blocked_from (S i) p'
  end.

Definition blocked_workers (s : system) : list nat := blocked_from 0%nat (pond s).

Definition is_drain_blocked (c : code) : bool :=
  match c with IBlockedDrain :: _ => true | _ => false end.

Definition wake_code (c : code) : code :=
  match c with IBlockedDrain :: r => ILock :: r | _ => c end.

Fixpoint drain_blocked_from (k : nat) (cs : list code) : list nat :=
  match cs with
  | [] => []
  | c :: cs' => if is_drain_blocked c then k :: drain_blocked_from (S k) cs'
                else drain_blocked_from (S k) cs'
  end.

(** Calling threads asleep on [task_done_cv]. *)
Definition drain_waiters (s : system) : list nat := drain_blocked_from 0%nat (callers s).

(** The [pick]-th sleeper, counting cyclically: which waiter a
    [notify_one] wakes is not specified. *)
Definition choose (pick : nat) (l : list nat) : option nat :=
  match l with
  | [] => None
  | _ => l !! (pick mod length l)%nat
  end.

Definition wake_worker (i : nat) (s : system) : system :=
  match pond s !! i with
  | Some h => set_pond (<[i := wake_handle h]> (pond s)) s
  | None => s
  end.

Definition wake_caller (k : nat) (s : system) : system :=
  match callers s !! k with
  | Some c => set_callers (<[k := wake_code c]> (callers s)) s
  | None => s
  end.

Definition notify_all (c : cv) (s : system) : system :=
  match c with
  | awake_cv => set_pond (map wake_handle (pond s)) s
  | task_done_cv => set_callers (map wake_code (callers s)) s
  end.

Definition notify_one (c : cv) (pick : nat) (s : system) : system :=
  match c with
  | awake_cv =>
      match choose pick (blocked_workers s) with
      | Some i => wake_worker i s
      | None => s
      end
  | task_done_cv =>
      match choose pick (drain_waiters s) with
      | Some k => wake_caller k s
      | None => s
      end
  end.

(** ** The public member functions, as the actions they perform *)

(** [close()], lines 75-84. *)
Definition close : code :=
  [ILock; ISetStop; INotifyAll; IUnlock; IJoinAll].

(** One turn of the [while (tnumb--)] loop of [addThreads], up to the test
    of [deleted_threads.empty()], and its two continuations. *)
Definition grow_once : code := [ILock; IRecycleOrNew].
Definition recycle (idx : Z) : code := [IUnlock; IJoin idx; IRebind idx; IAddThreadNumb 1].
Definition expand : code := [IUnlock; IEmplace; IAddThreadNumb 1].

(** [addThreads(int tnumb)], lines 92-112. *)
Definition addThreads (tnumb : Z) : code :=
  IAssert (0 <=? tnumb) :: concat (replicate (Z.to_nat tnumb) grow_once).

(** [delThreads(int tnumb)], lines 123-128. *)
Definition delThreads (tnumb : Z) : code :=
  [IAssertDel tnumb; IAddShrink tnumb; IAddThreadNumb (- tnumb); INotifyAll].

(** [adjustThreads(int target_tnumb)], lines 134-144. *)
Definition adjustThreads (target_tnumb : Z) : code :=
  [IAssert (0 <=? target_tnumb); IAdjust target_tnumb].

(** [waitForTasks()], lines 171-176. *)
Definition waitForTasks : code :=
  [ISetWaiting true; ILock; ICheckDrain; ISetWaiting false; IUnlock].

(** [submit(foo)], lines 183-190. *)
Definition submit (foo : HipeTask) : code :=
  [ILock; IPush (Some foo); IAddTotal 1; IUnlock; INotifyOne].

(** [submitForReturn(foo)], lines 198-210; the future returned is the
    channel allocated by [IMakePack]. *)
Definition submitForReturn (foo : outcome) : code := [IMakePack foo].

(** [submitInBatch(cont, size)], lines 218-227. *)
Definition submitInBatch (cont : list HipeTask) (size : nat) : code :=
  [ILock; IAddTotal (wrap (Z.of_nat size))]
    ++ map (fun i => IPush (cont !! i)) (seq 0 size)
    ++ [IUnlock; INotifyAll].

(** [~DynamicThreadPond()], lines 64-68. *)
Definition destroy : code := [IDestroy].

(** The observers. *)
Definition getTasksRemain (s : system) : Z := total_tasks s.
Definition getTaskLoaded (s : system) : Z := task_loaded s.
Definition getThreadNumb (s : system) : Z := thread_numb s.
Definition resetTaskLoaded (s : system) : Z * system := (task_loaded s, set_task_loaded 0 s).

(** [DynamicThreadPond(int tnumb)], lines 56-62. *)
Definition construct (tnumb : Z) : result system :=
  if tnumb <? 0 then Fault AssertionFailure
  else Ok (mkSystem false tnumb false 0 [] None
             (map (fun i => Thread (Z.of_nat i) WLoopHead) (seq 0 (Z.to_nat tnumb)))
             0 [] 0 [] []).

(** ** One step of a calling thread *)

(** [pond[idx]] *)
Definition slot (idx : Z) (s : system) : option handle :=
  if idx <? 0 then None else pond s !! Z.to_nat idx.

Definition set_slot (idx : Z) (h : handle) (s : system) : system :=
  set_pond (<[Z.to_nat idx := h]> (pond s)) s.

(** Executes [i] for thread [me]; [rest] is what follows [i].  Returns what
    the thread has to run next and the new state. *)
Definition exec_instr (me : tid) (pick : nat) (i : instr) (rest : code) (s : system)
  : result (code * system) :=
  match i with
  | ILock =>
      match lock me s with
      | Ok s' => Ok (rest, s')
      | NotEnabled => NotEnabled
      | Fault e => Fault e
      end
  | IUnlock =>
      match unlock me s with
      | Ok s' => Ok (rest, s')
      | NotEnabled => NotEnabled
      | Fault e => Fault e
      end
  | IPush (Some t) => Ok (rest, set_shared_tq (shared_tq s ++ [t]) s)
  | IPush None => Fault Undefined
  | IAddTotal n => Ok (rest, set_total_tasks (wrap (total_tasks s + n)) s)
  | INotifyOne => Ok (rest, notify_one awake_cv pick s)
  | INotifyAll => Ok (rest, notify_all awake_cv s)
  | ISetStop => Ok (rest, set_stop true s)
  | ISetWaiting b => Ok (rest, set_waiting b s)
  | IAssert b => if b then Ok (rest, s) else Fault AssertionFailure
  | IAssertDel n =>
      if (n <=? thread_numb s) && (0 <=? n) then Ok (rest, s) else Fault AssertionFailure
  | IAddShrink n => Ok (rest, set_shrink_numb (wrap (shrink_numb s + n)) s)
  | IAddThreadNumb n => Ok (rest, set_thread_numb (wrap (thread_numb s + n)) s)
  | IRecycleOrNew =>
      match deleted_threads s with
      | idx :: d => Ok (recycle idx ++ rest, set_deleted_threads d s)
      | [] => Ok (expand ++ rest, s)
      end
  | IJoin idx =>
      match slot idx s with
      | None => Fault Undefined
      | Some NotJoinable => Fault SystemError
      | Some (Thread _ WExited) => Ok (rest, set_slot idx NotJoinable s)
      | Some (Thread _ _) => NotEnabled
      end
  | IRebind idx =>
      match slot idx s with
      | None => Fault Undefined
      | Some NotJoinable => Ok (rest, set_slot idx (Thread idx WLoopHead) s)
      | Some (Thread _ _) => Fault Terminate
      end
  | IEmplace =>
      Ok (rest, set_pond (pond s ++ [Thread (wrap (Z.of_nat (length (pond s)))) WLoopHead]) s)
  | IJoinAll =>
      Ok (map (fun i => IJoin (Z.of_nat i)) (seq 0 (length (pond s))) ++ rest, s)
  | IAdjust target =>
      if thread_numb s <? target then
        Ok (addThreads (wrap (target - thread_numb s)) ++ rest, s)
      else if target <? thread_numb s then
        Ok (delThreads (wrap (thread_numb s - target)) ++ rest, s)
      else Ok (rest, s)
  | ICheckDrain =>
      if total_tasks s =? 0 then Ok (rest, s)
      else Ok (ISuspendDrain :: ICheckDrain :: rest, s)
  | ISuspendDrain =>
      match unlock me s with
      | Ok s' => Ok (IBlockedDrain :: rest, s')
      | NotEnabled => NotEnabled
      | Fault e => Fault e
      end
  | IBlockedDrain => NotEnabled
  | IMakePack foo =>
      Ok (submit (Packaged (length (futures s)) foo) ++ rest,
          set_futures (futures s ++ [None]) s)
  | IDestroy =>
      if stop s then Ok (rest, s) else Ok (close ++ rest, s)
  end.

Definition caller_step (pick k : nat) (s : system) : result system :=
  match callers s !! k with
  | Some (i :: rest) =>
      match exec_instr (Caller k) pick i rest s with
      | Ok (c, s') => Ok (set_callers (<[k := c]> (callers s')) s')
      | NotEnabled => NotEnabled
      | Fault e => Fault e
      end
  | _ => NotEnabled
  end.

(** ** One step of a worker thread: [worker(int index)], lines 232-263 *)

(** The predicate of [awake_cv.wait], line 239. *)
Definition wait_pred (s : system) : bool :=
  negb (match shared_tq s with [] => true | _ => false end) || stop s || (0 <? shrink_numb s).

(** What [util::invoke(task)] does: [Some s'] when the call returns,
    [None] when an exception leaves it. *)
Definition invoke (t : HipeTask) (s : system) : option system :=
  match t with
  | Plain (Value _) => Some s
  | Plain Failure => None
  | Packaged ch foo => Some (set_futures (<[ch := Some foo]> (futures s)) s)
  end.

Definition goto (i : nat) (index : Z) (w : wstate) (s : system) : system :=
  set_pond (<[i := Thread index w]> (pond s)) s.

(** One step of the worker of slot [i].  Nothing in the loop catches what
    [util::invoke] lets out at line 254: the exception leaves the function
    the [std::thread] was started with, and [std::terminate] ends the
    program. *)
Definition worker (pick i : nat) (s : system) : result system :=
  match pond s !! i with
  | Some (Thread index w) =>
      match w with
      | WLoopHead =>
          Ok (goto i index (if stop s then WExited else WWantLock) s)
      | WWantLock =>
          match lock (Worker i) s with
          | Ok s' => Ok (goto i index WCheckPred s')
          | NotEnabled => NotEnabled
          | Fault e => Fault e
          end
      | WCheckPred =>
          Ok (goto i index (if wait_pred s then WAwake else WSuspending) s)
      | WSuspending =>
          match unlock (Worker i) s with
          | Ok s' => Ok (goto i index WBlocked s')
          | NotEnabled => NotEnabled
          | Fault e => Fault e
          end
      | WBlocked => NotEnabled
      | WAwake =>
          if negb (shrink_numb s =? 0) then
            match unlock (Worker i)
                    (set_deleted_threads (deleted_threads s ++ [index])
                       (set_shrink_numb (wrap (shrink_numb s - 1)) s)) with
            | Ok s' => Ok (goto i index WExited s')
            | NotEnabled => NotEnabled
            | Fault e => Fault e
            end
          else if negb (stop s) then
            match shared_tq s with
            | t :: q =>
                match unlock (Worker i) (set_shared_tq q s) with
                | Ok s' => Ok (goto i index (WLoaded t) s')
                | NotEnabled => NotEnabled
                | Fault e => Fault e
                end
            | [] => Fault Undefined
            end
          else
            match unlock (Worker i) s with
            | Ok s' => Ok (goto i index WLoopHead s')
            | NotEnabled => NotEnabled
            | Fault e => Fault e
            end
      | WLoaded t =>
          Ok (goto i index (WInvoke t) (set_task_loaded (wrap (task_loaded s + 1)) s))
      | WInvoke t =>
          match invoke t s with
          | Some s' => Ok (goto i index WReturned s')
          | None => Fault Terminate
          end
      | WReturned =>
          Ok (goto i index WDecremented (set_total_tasks (wrap (total_tasks s - 1)) s))
      | WDecremented =>
          Ok (goto i index (if waiting s then WNotifyLock else WLoopHead) s)
      | WNotifyLock =>
          match lock (Worker i) s with
          | Ok s' => Ok (goto i index WNotifyHeld s')
          | NotEnabled => NotEnabled
          | Fault e => Fault e
          end
      | WNotifyHeld =>
          match unlock (Worker i) (notify_one task_done_cv pick s) with
          | Ok s' => Ok (goto i index WLoopHead s')
          | NotEnabled => NotEnabled
          | Fault e => Fault e
          end
      | WExited => NotEnabled
      end
  | _ => NotEnabled
  end.

(** ** The whole program: interleavings *)

(** A call of a public member function by some thread. *)
Inductive request : Type :=
| RClose
| RAddThreads (tnumb : Z)
| RDelThreads (tnumb : Z)
| RAdjustThreads (target_tnumb : Z)
| RWaitForTasks
| RSubmit (foo : HipeTask)
| RSubmitForReturn (foo : outcome)
| RSubmitInBatch (cont : list HipeTask) (size : nat)
| RDestroy.

Definition program (r : request) : code :=
  match r with
  | RClose => close
  | RAddThreads tnumb => addThreads tnumb
  | RDelThreads tnumb => delThreads tnumb
  | RAdjustThreads target_tnumb => adjustThreads target_tnumb
  | RWaitForTasks => waitForTasks
  | RSubmit foo => submit foo
  | RSubmitForReturn foo => submitForReturn foo
  | RSubmitInBatch cont size => submitInBatch cont size
  | RDestroy => destroy
  end.

Inductive label : Type :=
| LCall (r : request)            (* a new thread calls a member function *)
| LCaller (k pick : nat)         (* calling thread [k] performs its next action *)
| LWorker (i pick : nat)         (* the worker of slot [i] advances *)
| LSpurious (i : nat)            (* spurious wake-up of worker [i] on awake_cv *)
| LSpuriousDrain (k : nat).      (* spurious wake-up of caller [k] on task_done_cv *)

Definition step (l : label) (s : system) : result system :=
  match l with
  | LCall r => Ok (set_callers (callers s ++ [program r]) s)
  | LCaller k pick => caller_step pick k s
  | LWorker i pick => worker pick i s
  | LSpurious i => Ok (wake_worker i s)
  | LSpuriousDrain k => Ok (wake_caller k s)
  end.

Fixpoint exec (ls : list label) (s : system) : result system :=
  match ls with
  | [] => Ok s
  | l :: ls' =>
      match step l s with
      | Ok s' => exec ls' s'
      | NotEnabled => NotEnabled
      | Fault e => Fault e
      end
  end.

(** ** One call run alone *)

Inductive status : Type :=
| Finished                       (* the call returned *)
| Suspended                      (* the calling thread is blocked *)
| Faulted (e : error)
| Running.                       (* out of fuel *)

(** Runs thread [me] through [c] until the call returns, blocks or faults;
    no other thread moves meanwhile.  Returns the states passed through,
    what is left to run and the last state. *)
Fixpoint run (fuel : nat) (me : tid) (c : code) (s : system)
  : status * list system * (code * system) :=
  match c with
  | [] => (Finished, [], ([], s))
  | i :: rest =>
      match fuel with
      | O => (Running, [], (c, s))
      | S fuel' =>
          match exec_instr me 0 i rest s with
          | Ok (c', s') =>
              let '(st, tr, fin) := run fuel' me c' s' in (st, s' :: tr, fin)
          | NotEnabled => (Suspended, [], (c, s))
          | Fault e => (Faulted e, [], (c, s))
          end
      end
  end.

(** ** Predicates used in the statements *)

(** No worker is asleep on [awake_cv]. *)
Definition unblocked (s : system) : Prop :=
  Forall (fun h => is_blocked h = false) (pond s).

(** What a thread asleep inside [waitForTasks] still has to run. *)
Definition drain_sleep : code :=
  [IBlockedDrain; ICheckDrain; ISetWaiting false; IUnlock].

(** States the program can be in: a pond constructed with some thread
    number, then any interleaving of calls and thread steps. *)
Inductive reachable : system -> Prop :=
| reach_construct (tnumb : Z) (s : system) :
    in_int tnumb -> construct tnumb = Ok s -> reachable s
| reach_step (l : label) (s s' : system) :
    reachable s -> step l s = Ok s' -> reachable s'.

Definition sumZ {A : Type} (f : A -> Z) (l : list A) : Z :=
  foldr (fun x acc => f x + acc) 0 l.

(** A worker that has taken a task out of the queue and has not yet
    executed [--total_tasks] for it. *)
Definition in_flight (h : handle) : Z :=
  match h with
  | Thread _ (WLoaded _) | Thread _ (WInvoke _) | Thread _ WReturned => 1
  | _ => 0
  end.

(** Pushes minus counter increments a calling thread still has to do. *)
Definition owed_instr (i : instr) : Z :=
  match i with
  | IPush _ => 1
  | IAddTotal n => - n
  | _ => 0
  end.

Definition owed (c : code) : Z := sumZ owed_instr c.

(** Tasks submitted and not finished: queued, or taken by a worker whose
    decrement is still to come, adjusted by the submissions that are
    between their push and their increment. *)
Definition outstanding (s : system) : Z :=
  Z.of_nat (length (shared_tq s)) + sumZ in_flight (pond s) + sumZ owed (callers s).

(** Worker control points at which the worker owns [shared_locker]. *)
Definition holds (w : wstate) : bool :=
  match w with
  | WCheckPred | WSuspending | WAwake | WNotifyHeld => true
  | _ => false
  end.

(** Actions that neither push nor count. *)
Definition quiet_instr (i : instr) : bool :=
  match i with
  | IPush _ | IAddTotal _ | IMakePack _ => false
  | _ => true
  end.

Definition quiet (c : code) : Prop := Forall (fun i => quiet_instr i = true) c.

(** What a calling thread can have left to run.  Only the three
    submission functions touch the queue and the counter, and they do it
    between [ILock] and [IUnlock]. *)
Inductive shape : code -> Prop :=
| shape_quiet (c : code) :
    quiet c -> shape c
| shape_pack (foo : outcome) (r : code) :
    quiet r -> shape (IMakePack foo :: r)
| shape_submit (o : option HipeTask) (r : code) :
    quiet r -> shape (ILock :: IPush o :: IAddTotal 1 :: IUnlock :: r)
| shape_submit_locked (o : option HipeTask) (r : code) :
    quiet r -> shape (IPush o :: IAddTotal 1 :: IUnlock :: r)
| shape_submit_pushed (r : code) :
    quiet r -> shape (IAddTotal 1 :: IUnlock :: r)
| shape_batch (n : Z) (os : list (option HipeTask)) (r : code) :
    quiet r -> n <= Z.of_nat (length os) ->
    shape (ILock :: IAddTotal n :: map IPush os ++ IUnlock :: r)
| shape_batch_locked (n : Z) (os : list (option HipeTask)) (r : code) :
    quiet r -> n <= Z.of_nat (length os) ->
    shape (IAddTotal n :: map IPush os ++ IUnlock :: r)
| shape_batch_counted (os : list (option HipeTask)) (r : code) :
    quiet r -> shape (map IPush os ++ IUnlock :: r).

(** The thread is between the [ILock] and the [IUnlock] of a submission. *)
Definition critical (c : code) : bool :=
  match c with
  | IPush _ :: _ | IAddTotal _ :: _ => true
  | _ => false
  end.

Record inv (s : system) : Prop := mkInv {
  inv_total : total_tasks s = wrap (outstanding s);
  inv_shape : forall k c, callers s !! k = Some c -> shape c;
  inv_caller_lock : forall k c,
      callers s !! k = Some c -> critical c = true -> shared_locker s = Some (Caller k);
  inv_worker_lock : forall i index w,
      pond s !! i = Some (Thread index w) -> holds w = true ->
      shared_locker s = Some (Worker i);
  inv_pushed : forall k c,
      callers s !! k = Some c -> owed c < 0 -> shared_tq s <> []
}.

(** What an action adds to [total_tasks]. *)
Definition adds (i : instr) : Z :=
  match i with
  | IAddTotal n => n
  | _ => 0
  end.

(** Every worker was started with the number of its own slot. *)
Definition indexed (s : system) : Prop :=
  Z.of_nat (length (pond s)) <= 2 ^ 31 ->
  forall p index w, pond s !! p = Some (Thread index w) -> index = Z.of_nat p.

(** The [int] fields hold values of type [int]. *)
Definition ints (s : system) : Prop :=
  in_int (thread_numb s) /\ in_int (total_tasks s)
  /\ in_int (shrink_numb s) /\ in_int (task_loaded s).

(** ** [addThreads] seen from outside *)

(** What one turn of the loop of [addThreads] does to the pond. *)
Definition grow_step (s : system) : system :=
  match deleted_threads s with
  | idx :: d =>
      set_thread_numb (wrap (thread_numb s + 1))
        (set_slot idx (Thread idx WLoopHead) (set_deleted_threads d s))
  | [] =>
      set_thread_numb (wrap (thread_numb s + 1))
        (set_pond (pond s ++ [Thread (wrap (Z.of_nat (length (pond s)))) WLoopHead]) s)
  end.

Definition grow (n : nat) (s : system) : system := Nat.iter n grow_step s.

(** The indices waiting in [deleted_threads] are distinct slots whose
    thread has returned and has not been joined. *)
Fixpoint recyclable_in (p : list handle) (d : list Z) : Prop :=
  match d with
  | [] => True
  | idx :: d' =>
      0 <= idx
      /\ (exists index, p !! Z.to_nat idx = Some (Thread index WExited))
      /\ ~ In idx d'
      /\ recyclable_in p d'
  end.

Definition recyclable (s : system) : Prop := recyclable_in (pond s) (deleted_threads s).

(** The call [c] by thread [me] in state [s], run alone, returns in state
    [s'] after passing through the states [tr]. *)
Definition returns (me : tid) (c : code) (s : system) (tr : list system) (s' : system) : Prop :=
  exists fuel, run fuel me c s = (Finished, tr, ([], s')).

(** The states an interleaving passes through, and the largest
    [thread_numb] among them. *)
Fixpoint visited (ls : list label) (s : system) : list system :=
  s :: match ls with
       | [] => []
       | l :: ls' =>
           match step l s with
           | Ok s' => visited ls' s'
           | _ => []
           end
       end.

Definition peak_thread_numb (h : list system) : Z :=
  foldr (fun x m => Z.max (thread_numb x) m) 0 h.

(** Actions and calls that change [thread_numb]. *)
Definition resizes (i : instr) : bool :=
  match i with
  | IAddThreadNumb _ | IAdjust _ | IRecycleOrNew => true
  | _ => false
  end.

Definition steady (c : code) : Prop := Forall (fun i => resizes i = false) c.

Definition resize_call (l : label) : bool :=
  match l with
  | LCall (RAddThreads _) | LCall (RDelThreads _) | LCall (RAdjustThreads _) => true
  | _ => false
  end.

(** What an action still to run will add to
    [thread_numb + shrink_numb - pond.size()]. *)
Definition adj_instr (i : instr) : Z :=
  match i with
  | IAddThreadNumb n => n
  | IAddShrink n => n
  | IEmplace => -1
  | _ => 0
  end.

Definition adj (c : code) : Z := sumZ adj_instr c.

(** Slots accounted for: wanted threads, threads that owe an exit, slots
    waiting to be recycled, corrected by the resize calls in progress. *)
Definition accounted (s : system) : Z :=
  thread_numb s + shrink_numb s + Z.of_nat (length (deleted_threads s))
  + sumZ adj (callers s).

(** Equal as 32-bit values. *)
Definition cong32 (a b : Z) : Prop := exists k, a = b + k * 2 ^ 32.

(** ** Lock scopes *)

(** Whether a thread that still has to run [c] is inside a scope of
    [shared_locker]: decided by the first action of [c] that takes,
    releases or needs the lock. *)
Fixpoint owns (c : code) : bool :=
  match c with
  | [] => false
  | i :: r =>
      match i with
      | ILock | IBlockedDrain => false
      | IUnlock | ISuspendDrain | IRecycleOrNew | ICheckDrain => true
      | IAdjust _ | IJoinAll | IDestroy | IMakePack _
      | IJoin _ | IRebind _ | IEmplace => false
      | _ => owns r
      end
  end.

(** The actions of [c] come in well-formed lock scopes: what must run
    with the lock is followed by code inside a scope, what releases it or
    runs without it by code outside. *)
Fixpoint scoped (c : code) : Prop :=
  match c with
  | [] => True
  | i :: r =>
      scoped r /\
      match i with
      | ILock | IBlockedDrain | ISuspendDrain | ICheckDrain
      | IPush _ | IAddTotal _ | ISetStop => owns r = true
      | IUnlock | IRecycleOrNew | IAdjust _ | IJoinAll | IDestroy | IMakePack _
      | IJoin _ | IRebind _ | IEmplace => owns r = false
      | _ => True
      end
  end.

Definition disciplined (s : system) : Prop :=
  forall k c, callers s !! k = Some c ->
              scoped c /\ (owns c = true -> shared_locker s = Some (Caller k)).

(** The thread that takes a step. *)
Definition actor (l : label) : option tid :=
  match l with
  | LCaller k _ => Some (Caller k)
  | LWorker i _ => Some (Worker i)
  | _ => None
  end.

(** ** Counting along an interleaving *)

(** The step is the one in which a worker executes [task_loaded++]. *)
Definition starts_task (l : label) (s : system) : bool :=
  match l with
  | LWorker i _ =>
      match pond s !! i with
      | Some (Thread _ (WLoaded _)) => true
      | _ => false
      end
  | _ => false
  end.

(** The number of tasks workers start along [ls] from [s]. *)
Fixpoint started (ls : list label) (s : system) : nat :=
  match ls with
  | [] => 0
  | l :: ls' =>
      match step l s with
      | Ok s' => ((if starts_task l s then 1 else 0) + started ls' s')%nat
      | _ => 0
      end
  end.

(** [resetTaskLoaded] is one atomic exchange, so a call of it by any
    thread falls between two steps of the others.  What happens to the
    pond is then a sequence of steps and resets. *)
Inductive event : Type :=
| EStep (l : label)              (* a step of some thread *)
| EReset.                        (* some thread calls [resetTaskLoaded()] *)

Fixpoint play (es : list event) (s : system) : result system :=
  match es with
  | [] => Ok s
  | EStep l :: es' =>
      match step l s with
      | Ok s' => play es' s'
      | NotEnabled => NotEnabled
      | Fault e => Fault e
      end
  | EReset :: es' => play es' (snd (resetTaskLoaded s))
  end.

Definition is_reset (e : event) : bool :=
  match e with EReset => true | EStep _ => false end.

(** Some thread calls [resetTaskLoaded] along [es]. *)
Definition resets (es : list event) : bool := existsb is_reset es.

(** The number of tasks workers start along [es] from [s] after the last
    call of [resetTaskLoaded]. *)
Fixpoint since_reset (es : list event) (s : system) : nat :=
  match es with
  | [] => 0
  | EStep l :: es' =>
      match step l s with
      | Ok s' =>
          ((if starts_task l s && negb (resets es') then 1 else 0) + since_reset es' s')%nat
      | _ => 0
      end
  | EReset :: es' => since_reset es' (snd (resetTaskLoaded s))
  end.

(** ** What a notification does, as functions of the waiters *)

(** [task_done_cv.notify_one()] on the calling threads. *)
Definition wake_one (pick : nat) (cs : list code) : list code :=
  match choose pick (drain_blocked_from 0 cs) with
  | Some k =>
      match cs !! k with
      | Some c => <[k := wake_code c]> cs
      | None => cs
      end
  | None => cs
  end.

(** [awake_cv.notify_one()] on the workers. *)
Definition wake_one_worker (pick : nat) (p : list handle) : list handle :=
  match choose pick (blocked_from 0 p) with
  | Some i =>
      match p !! i with
      | Some h => <[i := wake_handle h]> p
      | None => p
      end
  | None => p
  end.

(** ** Shutting down *)

(** A worker that holds neither the lock nor a task: at the head of its
    loop, asleep on [awake_cv], or returned and not yet joined. *)
Definition idle (h : handle) : bool :=
  match h with
  | Thread _ WLoopHead | Thread _ WBlocked | Thread _ WExited => true
  | _ => false
  end.

(** The same after [awake_cv.notify_all()]: nobody is asleep. *)
Definition leaving (h : handle) : bool :=
  match h with
  | Thread _ WLoopHead | Thread _ WWantLock | Thread _ WExited => true
  | _ => false
  end.

(** The joins of [close()], from slot [n] on. *)
Definition joins (n m : nat) : code := map (fun i => IJoin (Z.of_nat i)) (seq n m).

(** * Properties *)

(** ** Machine integers *)

Lemma wrap_in_int (z : Z) : in_int z -> wrap z = z.
Proof.
  unfold in_int, INT_MIN, INT_MAX, wrap. intros H.
  rewrite Z.mod_small; lia.
Qed.

Lemma wrap_range (z : Z) : in_int (wrap z).
Proof.
  unfold in_int, INT_MIN, INT_MAX, wrap.
  pose proof (Z.mod_pos_bound (z + 2 ^ 31) (2 ^ 32)). lia.
Qed.

Lemma wrap_add_l (a b : Z) : wrap (wrap a + b) = wrap (a + b).
Proof.
  unfold wrap. f_equal.
  replace ((a + 2 ^ 31) mod 2 ^ 32 - 2 ^ 31 + b + 2 ^ 31)
    with ((a + 2 ^ 31) mod 2 ^ 32 + b) by lia.
  rewrite Zplus_mod_idemp_l. f_equal. lia.
Qed.

Lemma wrap_add_r (a b : Z) : wrap (a + wrap b) = wrap (a + b).
Proof. rewrite (Z.add_comm a), wrap_add_l. f_equal. lia. Qed.

(** ** [delThreads] *)

Lemma wake_handle_unblocked (p : list handle) :
  Forall (fun h => is_blocked h = false) (map wake_handle p).
Proof.
  induction p as [|h p IH]; simpl; constructor; auto.
  destruct h as [|index []]; reflexivity.
Qed.

(** C5. [delThreads(n)] with [0 <= n <= thread_numb] adds [n] to
    [shrink_numb], subtracts [n] from [thread_numb] and notifies all of
    [awake_cv]; it finishes in four steps from any state, whoever owns the
    lock and whatever the workers are doing, and no thread handle is
    joined or replaced.  Outside the precondition the assertion fails and
    nothing is changed. *)
Theorem delThreads_spec (me : tid) (tnumb : Z) (s : system) :
  (0 <= tnumb <= thread_numb s ->
   in_int (thread_numb s) -> in_int (shrink_numb s + tnumb) ->
   exists tr s',
     run 4 me (delThreads tnumb) s = (Finished, tr, ([], s'))
     /\ shrink_numb s' = shrink_numb s + tnumb
     /\ thread_numb s' = thread_numb s - tnumb
     /\ pond s' = map wake_handle (pond s)
     /\ unblocked s'
     /\ length (pond s') = length (pond s)
     /\ deleted_threads s' = deleted_threads s
     /\ shared_locker s' = shared_locker s
     /\ shared_tq s' = shared_tq s
     /\ total_tasks s' = total_tasks s
     /\ stop s' = stop s)
  /\ (~ (0 <= tnumb <= thread_numb s) ->
      forall fuel,
        run (S fuel) me (delThreads tnumb) s
        = (Faulted AssertionFailure, [], (delThreads tnumb, s))).
Proof.
  split.
  - intros Hn Ht Hs.
    assert (Hassert : (tnumb <=? thread_numb s) && (0 <=? tnumb) = true).
    { apply andb_true_intro; split; apply Z.leb_le; lia. }
    eexists _, _. split.
    + simpl. rewrite Hassert. reflexivity.
    + simpl. rewrite (wrap_in_int (shrink_numb s + tnumb)) by assumption.
      rewrite wrap_in_int by (unfold in_int, INT_MIN, INT_MAX in *; lia).
      repeat split; try reflexivity; try lia.
      * apply wake_handle_unblocked.
      * now rewrite length_map.
  - intros Hn fuel. simpl.
    destruct ((tnumb <=? thread_numb s) && (0 <=? tnumb)) eqn:E; [|reflexivity].
    apply andb_prop in E as [E1 E2]. apply Z.leb_le in E1, E2. lia.
Qed.

Lemma delThreads_spec_witness :
  (exists tr s',
    run 4 (Caller 0) (delThreads 1) (mkSystem false 2 false 0 [] None
        [Thread 0 WBlocked; Thread 1 WBlocked] 0 [] 0 [] [])
    = (Finished, tr, ([], s'))
    /\ shrink_numb s' = 1 /\ thread_numb s' = 1 /\ unblocked s')
  /\ run 1 (Caller 0) (delThreads 3) (mkSystem false 2 false 0 [] None
        [Thread 0 WBlocked; Thread 1 WBlocked] 0 [] 0 [] [])
     = (Faulted AssertionFailure, [], (delThreads 3, mkSystem false 2 false 0 [] None
        [Thread 0 WBlocked; Thread 1 WBlocked] 0 [] 0 [] [])).
Proof.
  split.
  - destruct (delThreads_spec (Caller 0) 1 (mkSystem false 2 false 0 [] None
        [Thread 0 WBlocked; Thread 1 WBlocked] 0 [] 0 [] [])) as [H _].
    destruct H as (tr & s' & Hrun & Hs & Ht & _ & Hu & _).
    + simpl; lia.
    + unfold in_int, INT_MIN, INT_MAX; simpl; lia.
    + unfold in_int, INT_MIN, INT_MAX; simpl; lia.
    + exists tr, s'. repeat split; assumption.
  - apply (delThreads_spec (Caller 0) 3). simpl; lia.
Defined.

(** ** [submitInBatch] *)

Lemma batch_reads_from (pre cont : list HipeTask) :
  map (fun i => IPush ((pre ++ cont) !! i)) (seq (length pre) (length cont))
  = map (fun t => IPush (Some t)) cont.
Proof.
  revert pre. induction cont as [|t cont IH]; intros pre; simpl; [reflexivity|].
  f_equal.
  - f_equal. rewrite lookup_app_r by lia. now rewrite Nat.sub_diag.
  - specialize (IH (pre ++ [t])). rewrite <- app_assoc in IH. simpl in IH.
    rewrite length_app in IH. simpl in IH.
    now replace (length pre + 1)%nat with (S (length pre)) in IH by lia.
Qed.

Lemma batch_reads (cont : list HipeTask) :
  map (fun i => IPush (cont !! i)) (seq 0 (length cont))
  = map (fun t => IPush (Some t)) cont.
Proof. apply (batch_reads_from [] cont). Qed.

(** The [for] loop of [submitInBatch]: the states it passes through hold
    the old queue followed by longer and longer prefixes of the batch. *)
Lemma run_pushes (l : list HipeTask) (me : tid) (rest : code) (fuel : nat) (s : system) :
  run (length l + fuel) me (map (fun t => IPush (Some t)) l ++ rest) s
  = let '(st, tr, fin) := run fuel me rest (set_shared_tq (shared_tq s ++ l) s) in
    (st,
     map (fun j => set_shared_tq (shared_tq s ++ take (S j) l) s) (seq 0 (length l)) ++ tr,
     fin).
Proof.
  revert s. induction l as [|t l IH]; intros s.
  - simpl. rewrite app_nil_r.
    replace (set_shared_tq (shared_tq s) s) with s by now destruct s.
    now destruct (run fuel me rest s) as [[st tr] fin].
  - simpl. rewrite IH. simpl.
    replace (set_shared_tq (((shared_tq s ++ [t]) ++ l)) (set_shared_tq (shared_tq s ++ [t]) s))
      with (set_shared_tq (shared_tq s ++ t :: l) s)
      by (unfold set_shared_tq; simpl; now rewrite <- app_assoc).
    destruct (run fuel me rest (set_shared_tq (shared_tq s ++ t :: l) s)) as [[st tr] fin].
    f_equal. f_equal. f_equal.
    rewrite <- seq_shift, map_map. f_equal. apply map_ext. intros j.
    unfold set_shared_tq; simpl. now rewrite <- app_assoc.
Qed.


(** ** [waitForTasks] *)

Lemma tid_eqb_refl (me : tid) : tid_eqb me me = true.
Proof. destruct me; simpl; apply Nat.eqb_refl. Qed.

Lemma relock_id (me : tid) (s : system) :
  shared_locker s = None -> set_shared_locker None (set_shared_locker (Some me) s) = s.
Proof. destruct s; simpl; intros ->; reflexivity. Qed.

(** C8. [waitForTasks], called with the lock free.  With [total_tasks]
    equal to 0 the call returns without ever blocking; [waiting] is set
    first and is false on return, nothing else changes.  Otherwise the
    caller goes to sleep on [task_done_cv] with [waiting] set and the lock
    released; each time it is woken it takes the lock, evaluates
    [total_tasks == 0] while owning it, and either returns with [waiting]
    cleared or goes back to sleep. *)
Theorem waitForTasks_spec (me : tid) (s : system) :
  shared_locker s = None ->
  (total_tasks s = 0 ->
   exists tr,
     run 5 me waitForTasks s = (Finished, set_waiting true s :: tr, ([], set_waiting false s))
     /\ Forall (fun x => waiting x = true \/ x = set_waiting false (set_shared_locker (Some me) s)
                         \/ x = set_waiting false s) tr)
  /\ (total_tasks s <> 0 ->
      exists tr,
        run 5 me waitForTasks s = (Suspended, tr, (drain_sleep, set_waiting true s))
        /\ Forall (fun x => waiting x = true) tr)
  /\ (forall s2 : system,
        shared_locker s2 = None ->
        (total_tasks s2 = 0 ->
         run 4 me (wake_code drain_sleep) s2
         = (Finished,
            [set_shared_locker (Some me) s2; set_shared_locker (Some me) s2;
             set_waiting false (set_shared_locker (Some me) s2); set_waiting false s2],
            ([], set_waiting false s2)))
        /\ (total_tasks s2 <> 0 ->
            run 4 me (wake_code drain_sleep) s2
            = (Suspended,
               [set_shared_locker (Some me) s2; set_shared_locker (Some me) s2; s2],
               (drain_sleep, s2)))).
Proof.
  intros Hfree. split; [|split].
  - intros Hz. eexists. split.
    + unfold waitForTasks. cbn [run exec_instr]. unfold lock. cbn. rewrite Hfree.
      cbn. rewrite Hz. cbn. rewrite tid_eqb_refl. cbn.
      replace (set_shared_locker None (set_waiting false (set_shared_locker (Some me) (set_waiting true s))))
        with (set_waiting false s) by (destruct s; simpl in *; now subst).
      reflexivity.
    + constructor; [now left|]. constructor; [now left|].
      constructor; [right; left; now destruct s|].
      constructor; [right; right; reflexivity|constructor].
  - intros Hnz. apply Z.eqb_neq in Hnz. eexists. split.
    + unfold waitForTasks. cbn [run exec_instr]. unfold lock. cbn. rewrite Hfree.
      cbn. rewrite Hnz. cbn. rewrite tid_eqb_refl. cbn.
      replace (set_shared_locker None (set_shared_locker (Some me) (set_waiting true s)))
        with (set_waiting true s) by (destruct s; simpl in *; now subst).
      reflexivity.
    + repeat constructor.
  - intros s2 Hfree2. split.
    + intros Hz. cbn. unfold lock. rewrite Hfree2. cbn. rewrite Hz. cbn.
      rewrite tid_eqb_refl. cbn.
      replace (set_shared_locker None (set_waiting false (set_shared_locker (Some me) s2)))
        with (set_waiting false s2) by (destruct s2; simpl in *; now subst).
      reflexivity.
    + intros Hnz. apply Z.eqb_neq in Hnz.
      cbn. unfold lock. rewrite Hfree2. cbn. rewrite Hnz. cbn.
      rewrite tid_eqb_refl. cbn. rewrite relock_id by assumption. reflexivity.
Qed.

Lemma waitForTasks_spec_witness :
  (exists tr,
     run 5 (Caller 0) waitForTasks (mkSystem false 1 false 0 [] None [Thread 0 WBlocked] 0 [] 0 [] [])
     = (Finished, tr, ([], mkSystem false 1 false 0 [] None [Thread 0 WBlocked] 0 [] 0 [] [])))
  /\ (exists tr,
     run 5 (Caller 0) waitForTasks (mkSystem false 1 false 2 [] None [Thread 0 WBlocked] 0 [] 0 [] [])
     = (Suspended, tr, (drain_sleep, mkSystem false 1 true 2 [] None [Thread 0 WBlocked] 0 [] 0 [] []))).
Proof.
  split.
  - destruct (waitForTasks_spec (Caller 0)
        (mkSystem false 1 false 0 [] None [Thread 0 WBlocked] 0 [] 0 [] []) eq_refl)
      as [H _].
    destruct (H eq_refl) as (tr & Hrun & _). eexists. exact Hrun.
  - destruct (waitForTasks_spec (Caller 0)
        (mkSystem false 1 false 2 [] None [Thread 0 WBlocked] 0 [] 0 [] []) eq_refl)
      as (_ & H & _).
    destruct H as (tr & Hrun & _); [discriminate|]. eexists. exact Hrun.
Defined.

(** ** Frame lemmas: what one action changes *)

Lemma sumZ_app {A : Type} (f : A -> Z) (l1 l2 : list A) :
  sumZ f (l1 ++ l2) = sumZ f l1 + sumZ f l2.
Proof. induction l1 as [|x l1 IH]; simpl; [reflexivity|]. rewrite IH. lia. Qed.

Lemma sumZ_insert {A : Type} (f : A -> Z) (l : list A) (i : nat) (x y : A) :
  l !! i = Some x -> sumZ f (<[i := y]> l) = sumZ f l - f x + f y.
Proof.
  revert i. induction l as [|a l IH]; intros [|i] H; simpl in *; try discriminate.
  - injection H as ->. lia.
  - rewrite (IH i H). lia.
Qed.

Lemma sumZ_map_same {A : Type} (f : A -> Z) (g : A -> A) (l : list A) :
  (forall x, f (g x) = f x) -> sumZ f (map g l) = sumZ f l.
Proof. intros H. induction l as [|a l IH]; simpl; [reflexivity|]. now rewrite H, IH. Qed.

Lemma sumZ_zero {A : Type} (f : A -> Z) (l : list A) :
  Forall (fun x => f x = 0) l -> sumZ f l = 0.
Proof. induction 1 as [|x l Hx _ IH]; simpl; [reflexivity|]. lia. Qed.

Lemma in_flight_wake (h : handle) : in_flight (wake_handle h) = in_flight h.
Proof. destruct h as [|index []]; reflexivity. Qed.

Lemma owed_quiet (c : code) : quiet c -> owed c = 0.
Proof.
  intros H. apply sumZ_zero. eapply Forall_impl; [|exact H].
  intros []; simpl; intros; try discriminate; reflexivity.
Qed.

Lemma quiet_app (c1 c2 : code) : quiet c1 -> quiet c2 -> quiet (c1 ++ c2).
Proof. intros; apply Forall_app; now split. Qed.

Lemma quiet_addThreads (n : Z) : quiet (addThreads n).
Proof.
  unfold addThreads. constructor; [reflexivity|].
  induction (Z.to_nat n) as [|m IH]; simpl; [constructor|].
  repeat (constructor; [reflexivity|]). exact IH.
Qed.

Lemma quiet_joins (n m : nat) : quiet (map (fun i => IJoin (Z.of_nat i)) (seq n m)).
Proof.
  revert n. induction m as [|m IH]; intros n; simpl; constructor; [reflexivity|apply IH].
Qed.

Lemma owed_pushes (os : list (option HipeTask)) (r : code) :
  owed (map IPush os ++ r) = Z.of_nat (length os) + owed r.
Proof.
  induction os as [|o os IH]; simpl; [reflexivity|].
  unfold owed in *. simpl. rewrite IH. lia.
Qed.

Lemma shape_owed (c : code) :
  shape c -> -1 <= owed c /\ (owed c < 0 -> critical c = true).
Proof.
  destruct 1 as [c H|foo r H|o r H|o r H|r H|n os r H Hn|n os r H Hn|os r H].
  - rewrite (owed_quiet c H). lia.
  - change (owed (IMakePack foo :: r)) with (0 + owed r). rewrite (owed_quiet r H). lia.
  - change (owed (ILock :: IPush o :: IAddTotal 1 :: IUnlock :: r)) with (0 + (1 + (- 1 + (0 + owed r)))).
    rewrite (owed_quiet r H). lia.
  - change (owed (IPush o :: IAddTotal 1 :: IUnlock :: r)) with (1 + (- 1 + (0 + owed r))).
    rewrite (owed_quiet r H). lia.
  - split; [|reflexivity].
    change (owed (IAddTotal 1 :: IUnlock :: r)) with (- 1 + (0 + owed r)).
    rewrite (owed_quiet r H). lia.
  - change (owed (ILock :: IAddTotal n :: map IPush os ++ IUnlock :: r))
      with (0 + (- n + owed (map IPush os ++ IUnlock :: r))).
    rewrite owed_pushes. change (owed (IUnlock :: r)) with (0 + owed r).
    rewrite (owed_quiet r H). lia.
  - split; [|reflexivity].
    change (owed (IAddTotal n :: map IPush os ++ IUnlock :: r))
      with (- n + owed (map IPush os ++ IUnlock :: r)).
    rewrite owed_pushes. change (owed (IUnlock :: r)) with (0 + owed r).
    rewrite (owed_quiet r H). lia.
  - rewrite owed_pushes. change (owed (IUnlock :: r)) with (0 + owed r).
    rewrite (owed_quiet r H). lia.
Qed.

Lemma shape_program (r : request) : shape (program r).
Proof.
  destruct r; simpl.
  - apply shape_quiet. repeat constructor.
  - apply shape_quiet, quiet_addThreads.
  - apply shape_quiet. repeat constructor.
  - apply shape_quiet. repeat constructor.
  - apply shape_quiet. repeat constructor.
  - apply shape_submit. repeat constructor.
  - apply shape_pack. constructor.
  - unfold submitInBatch. simpl.
    rewrite <- (map_map (fun i => cont !! i) IPush).
    apply shape_batch; [repeat constructor|].
    rewrite length_map, length_seq.
    pose proof (wrap_range (Z.of_nat size)) as Hr.
    unfold wrap in *. pose proof (Z.mod_pos_bound (Z.of_nat size + 2 ^ 31) (2 ^ 32)).
    pose proof (Z.mod_le (Z.of_nat size + 2 ^ 31) (2 ^ 32)). lia.
  - apply shape_quiet. repeat constructor.
Qed.

Arguments notify_one : simpl never.

Ltac exec_inv H :=
  unfold exec_instr, lock, unlock, slot, set_slot in H;
  repeat case_match; simplify_eq; simpl in *.

Lemma wake_worker_pond (i : nat) (s : system) :
  pond (wake_worker i s) = pond s \/
  exists h, pond s !! i = Some h /\ pond (wake_worker i s) = <[i := wake_handle h]> (pond s).
Proof.
  unfold wake_worker. destruct (pond s !! i) as [h|] eqn:E; [right|left; reflexivity].
  exists h. split; reflexivity.
Qed.

Lemma notify_one_awake_pond (pick : nat) (s : system) :
  pond (notify_one awake_cv pick s) = pond s \/
  exists i h, pond s !! i = Some h
              /\ pond (notify_one awake_cv pick s) = <[i := wake_handle h]> (pond s).
Proof.
  unfold notify_one. destruct (choose pick (blocked_workers s)) as [i|]; [|left; reflexivity].
  destruct (wake_worker_pond i s) as [H|(h & H1 & H2)]; [left; exact H|].
  right. exists i, h. split; assumption.
Qed.

Lemma notify_one_awake_frame (pick : nat) (s : system) :
  let s' := notify_one awake_cv pick s in
  stop s' = stop s /\ thread_numb s' = thread_numb s /\ waiting s' = waiting s
  /\ total_tasks s' = total_tasks s /\ shared_tq s' = shared_tq s
  /\ shared_locker s' = shared_locker s /\ shrink_numb s' = shrink_numb s
  /\ deleted_threads s' = deleted_threads s /\ task_loaded s' = task_loaded s
  /\ futures s' = futures s /\ callers s' = callers s.
Proof.
  unfold notify_one. destruct (choose pick (blocked_workers s)) as [i|]; [|repeat split].
  unfold wake_worker. destruct (pond s !! i); repeat split.
Qed.

(** A calling thread never touches the code of the calling threads. *)
Lemma exec_instr_callers me pick i rest s c' s' :
  exec_instr me pick i rest s = Ok (c', s') -> callers s' = callers s.
Proof.
  intros H. destruct i; exec_inv H; try reflexivity.
  apply notify_one_awake_frame.
Qed.

Lemma exec_instr_total me pick i rest s c' s' (x : Z) :
  exec_instr me pick i rest s = Ok (c', s') ->
  total_tasks s = wrap x -> total_tasks s' = wrap (x + adds i).
Proof.
  intros H Hx. destruct i; exec_inv H; rewrite ?Z.add_0_r; try assumption.
  - now rewrite Hx, wrap_add_l.
  - destruct (notify_one_awake_frame pick s) as (_ & _ & _ & -> & _). assumption.
Qed.

Lemma owed_app (c1 c2 : code) : owed (c1 ++ c2) = owed c1 + owed c2.
Proof. apply sumZ_app. Qed.

Lemma owed_grow (n : nat) : owed (concat (replicate n grow_once)) = 0.
Proof. induction n as [|n IH]; [reflexivity|]. simpl. exact IH. Qed.

Lemma exec_instr_queue me pick i rest s c' s' :
  exec_instr me pick i rest s = Ok (c', s') ->
  Z.of_nat (length (shared_tq s')) + owed c'
  = Z.of_nat (length (shared_tq s)) + owed (i :: rest) + adds i.
Proof.
  intros H. change (owed (i :: rest)) with (owed_instr i + owed rest).
  destruct i; exec_inv H; rewrite ?owed_app; try lia.
  - rewrite length_app. simpl. lia.
  - destruct (notify_one_awake_frame pick s) as (_ & _ & _ & _ & -> & _). lia.
  - rewrite (owed_quiet _ (quiet_joins _ _)). lia.
  - rewrite owed_grow. lia.
Qed.

Lemma exec_instr_tq me pick i rest s c' s' :
  exec_instr me pick i rest s = Ok (c', s') ->
  exists l, shared_tq s' = shared_tq s ++ l.
Proof.
  intros H. destruct i; exec_inv H;
    try (exists []; now rewrite app_nil_r).
  - eexists; reflexivity.
  - exists []. rewrite app_nil_r.
    apply (notify_one_awake_frame pick s).
Qed.

Lemma in_flight_insert_wake (p : list handle) (i : nat) (h : handle) :
  p !! i = Some h -> sumZ in_flight (<[i := wake_handle h]> p) = sumZ in_flight p.
Proof. intros H. rewrite (sumZ_insert _ _ _ _ _ H), in_flight_wake. lia. Qed.

Lemma exec_instr_in_flight me pick i rest s c' s' :
  exec_instr me pick i rest s = Ok (c', s') ->
  sumZ in_flight (pond s') = sumZ in_flight (pond s).
Proof.
  intros H. destruct i; exec_inv H; try reflexivity.
  - destruct (notify_one_awake_pond pick s) as [->|(j & h & H1 & ->)]; [reflexivity|].
    now apply in_flight_insert_wake.
  - apply sumZ_map_same, in_flight_wake.
  - erewrite sumZ_insert by eassumption. simpl. lia.
  - erewrite sumZ_insert by eassumption. simpl. lia.
  - rewrite sumZ_app. simpl. lia.
Qed.

Lemma exec_instr_locker me pick i rest s c' s' :
  exec_instr me pick i rest s = Ok (c', s') ->
  shared_locker s' = shared_locker s
  \/ (i = ILock /\ shared_locker s = None /\ shared_locker s' = Some me)
  \/ (shared_locker s = Some me /\ shared_locker s' = None).
Proof.
  intros H. destruct i; exec_inv H; auto.
  - right; right. split; [|reflexivity]. f_equal.
    destruct t, me; simpl in *; try discriminate; f_equal; now apply Nat.eqb_eq.
  - left. apply (notify_one_awake_frame pick s).
  - right; right. split; [|reflexivity]. f_equal.
    destruct t, me; simpl in *; try discriminate; f_equal; now apply Nat.eqb_eq.
Qed.

Lemma holds_wake (h : handle) (index : Z) (w : wstate) :
  wake_handle h = Thread index w -> holds w = true -> h = Thread index w.
Proof. destruct h as [|idx []]; simpl; intros; simplify_eq; try reflexivity; discriminate. Qed.

Lemma holds_insert_wake (p : list handle) (i j : nat) (h : handle) (index : Z) (w : wstate) :
  p !! i = Some h -> <[i := wake_handle h]> p !! j = Some (Thread index w) ->
  holds w = true -> p !! j = Some (Thread index w).
Proof.
  intros Hi Hj Hw. destruct (decide (i = j)) as [->|Hne].
  - rewrite list_lookup_insert_eq in Hj by (now apply lookup_lt_Some in Hi).
    injection Hj as Hj. now rewrite Hi, (holds_wake _ _ _ Hj Hw).
  - now rewrite list_lookup_insert_ne in Hj.
Qed.

Lemma holds_insert_other (p : list handle) (i j : nat) (h : handle) (index : Z) (w : wstate) :
  <[i := h]> p !! j = Some (Thread index w) -> holds w = true ->
  (forall index' w', h = Thread index' w' -> holds w' = false) ->
  p !! j = Some (Thread index w).
Proof.
  intros Hj Hw Hh. destruct (decide (i = j)) as [E|Hne].
  - subst j. destruct (decide (i < length p)%nat) as [Hlt|Hge].
    + rewrite list_lookup_insert_eq in Hj by assumption. injection Hj as ->.
      rewrite (Hh _ _ eq_refl) in Hw. discriminate.
    + rewrite list_insert_ge in Hj by lia. assumption.
  - now rewrite list_lookup_insert_ne in Hj.
Qed.

(** A calling thread never creates a worker that owns the lock. *)
Lemma exec_instr_holders me pick i rest s c' s' j index w :
  exec_instr me pick i rest s = Ok (c', s') ->
  pond s' !! j = Some (Thread index w) -> holds w = true ->
  pond s !! j = Some (Thread index w).
Proof.
  intros H Hj Hw. destruct i; exec_inv H; try assumption.
  - destruct (notify_one_awake_pond pick s) as [E|(i & h & H1 & E)]; rewrite E in Hj;
      [assumption|]. eapply holds_insert_wake; eassumption.
  - rewrite list_lookup_fmap in Hj. destruct (pond s !! j) as [h|] eqn:E; simpl in Hj; [|discriminate].
    injection Hj as Hj. now rewrite (holds_wake _ _ _ Hj Hw).
  - eapply holds_insert_other; [exact Hj|exact Hw|]. intros ? ? [=].
  - eapply holds_insert_other; [exact Hj|exact Hw|]. now intros ? ? [= <- <-].
  - destruct (decide (j < length (pond s))%nat) as [Hlt|Hge].
    + now rewrite lookup_app_l in Hj.
    + rewrite lookup_app_r in Hj by lia.
      destruct (j - length (pond s))%nat; simpl in Hj; [|discriminate].
      injection Hj as <- <-. discriminate.
Qed.

Lemma exec_instr_quiet me pick i rest s c' s' :
  quiet (i :: rest) -> exec_instr me pick i rest s = Ok (c', s') -> quiet c'.
Proof.
  intros Hq H. inversion Hq as [|? ? Hi Hrest]; subst.
  destruct i; try discriminate Hi; exec_inv H; try assumption.
  - repeat (constructor; [reflexivity|]). assumption.
  - repeat (constructor; [reflexivity|]). assumption.
  - apply quiet_app; [apply quiet_joins|assumption].
  - apply (quiet_app (addThreads _)); [apply quiet_addThreads|assumption].
  - repeat (constructor; [reflexivity|]). assumption.
  - repeat (constructor; [reflexivity|]). assumption.
  - repeat (constructor; [reflexivity|]). assumption.
  - repeat (constructor; [reflexivity|]). assumption.
Qed.

Lemma quiet_not_critical (c : code) : quiet c -> critical c = false.
Proof.
  destruct 1 as [|i c Hi _]; [reflexivity|]. destruct i; try reflexivity; discriminate.
Qed.

Lemma app_not_nil {A : Type} (l : list A) (x : A) : l ++ [x] <> [].
Proof. destruct l; discriminate. Qed.

(** One action of a calling thread keeps its code in [shape]; a push
    leaves the queue non-empty; the thread enters a critical section only
    by taking the lock. *)
Lemma exec_instr_shape me pick i rest s c' s' :
  shape (i :: rest) -> exec_instr me pick i rest s = Ok (c', s') ->
  shape c'
  /\ (owed c' < 0 -> shared_tq s' <> [])
  /\ (critical c' = true ->
      shared_locker s' = Some me
      \/ (critical (i :: rest) = true /\ shared_locker s' = shared_locker s)).
Proof.
  intros Hs H. remember (i :: rest) as c eqn:Ec.
  destruct Hs as [c Hq|foo r Hq|o r Hq|o r Hq|r Hq|n os r Hq Hn|n os r Hq Hn|os r Hq].
  - subst c. pose proof (exec_instr_quiet _ _ _ _ _ _ _ Hq H) as Hq'.
    split; [now apply shape_quiet|]. rewrite (owed_quiet _ Hq'), (quiet_not_critical _ Hq').
    split; [lia|discriminate].
  - injection Ec as <- <-. exec_inv H.
    split; [apply shape_submit; constructor; [reflexivity|assumption]|].
    unfold owed; simpl. fold (owed r). rewrite (owed_quiet _ Hq). split; [lia|discriminate].
  - injection Ec as <- <-. exec_inv H.
    split; [apply shape_submit_locked; assumption|].
    unfold owed; simpl. fold (owed r). rewrite (owed_quiet _ Hq). split; [lia|]. now left.
  - injection Ec as <- <-. exec_inv H.
    split; [apply shape_submit_pushed; assumption|].
    split; [intros _; apply app_not_nil|]. intros _. right. split; reflexivity.
  - injection Ec as <- <-. exec_inv H.
    split; [apply shape_quiet; constructor; [reflexivity|assumption]|].
    unfold owed; simpl. fold (owed r). rewrite (owed_quiet _ Hq). split; [lia|discriminate].
  - injection Ec as <- <-. exec_inv H.
    split; [apply shape_batch_locked; assumption|].
    split; [|now left].
    intros Ho. exfalso. revert Ho.
    change (owed (IAddTotal n :: map IPush os ++ IUnlock :: r))
      with (- n + owed (map IPush os ++ IUnlock :: r)).
    rewrite owed_pushes. change (owed (IUnlock :: r)) with (0 + owed r).
    rewrite (owed_quiet _ Hq). lia.
  - injection Ec as <- <-. exec_inv H.
    split; [apply shape_batch_counted; assumption|].
    split; [|intros _; right; split; reflexivity].
    rewrite owed_pushes. change (owed (IUnlock :: r)) with (0 + owed r).
    rewrite (owed_quiet _ Hq). lia.
  - destruct os as [|o os]; simpl in Ec; injection Ec as <- <-.
    + assert (Hq' : quiet (IUnlock :: r)) by (constructor; [reflexivity|assumption]).
      pose proof (exec_instr_quiet _ _ _ _ _ _ _ Hq' H) as Hq''.
      split; [now apply shape_quiet|]. rewrite (owed_quiet _ Hq''), (quiet_not_critical _ Hq'').
      split; [lia|discriminate].
    + exec_inv H.
      split; [apply shape_batch_counted; assumption|].
      split; [|intros _; right; split; reflexivity].
      rewrite owed_pushes. change (owed (IUnlock :: r)) with (0 + owed r).
      rewrite (owed_quiet _ Hq). lia.
Qed.

(** *** Worker steps *)

Lemma notify_one_frame (c : cv) (pick : nat) (s : system) :
  let s' := notify_one c pick s in
  stop s' = stop s /\ thread_numb s' = thread_numb s /\ waiting s' = waiting s
  /\ total_tasks s' = total_tasks s /\ shared_tq s' = shared_tq s
  /\ shared_locker s' = shared_locker s /\ shrink_numb s' = shrink_numb s
  /\ deleted_threads s' = deleted_threads s /\ task_loaded s' = task_loaded s
  /\ futures s' = futures s.
Proof.
  unfold notify_one. destruct c.
  - destruct (choose pick (blocked_workers s)) as [i|]; [|repeat split].
    unfold wake_worker. destruct (pond s !! i); repeat split.
  - destruct (choose pick (drain_waiters s)) as [k|]; [|repeat split].
    unfold wake_caller. destruct (callers s !! k); repeat split.
Qed.

Lemma notify_one_done_pond (pick : nat) (s : system) :
  pond (notify_one task_done_cv pick s) = pond s.
Proof.
  unfold notify_one. destruct (choose pick (drain_waiters s)) as [k|]; [|reflexivity].
  unfold wake_caller. destruct (callers s !! k); reflexivity.
Qed.

Lemma notify_one_done_callers (pick : nat) (s : system) :
  callers (notify_one task_done_cv pick s) = callers s
  \/ exists k c, callers s !! k = Some c
                 /\ callers (notify_one task_done_cv pick s) = <[k := wake_code c]> (callers s).
Proof.
  unfold notify_one. destruct (choose pick (drain_waiters s)) as [k|]; [|left; reflexivity].
  unfold wake_caller. destruct (callers s !! k) as [c|] eqn:E; [|left; reflexivity].
  right. exists k, c. split; [assumption|reflexivity].
Qed.

Ltac worker_inv H :=
  unfold worker, lock, unlock, invoke in H;
  repeat case_match; simplify_eq; simpl in *.

Lemma tid_eqb_eq (a b : tid) : tid_eqb a b = true -> a = b.
Proof. destruct a, b; simpl; intros H; try discriminate; f_equal; now apply Nat.eqb_eq. Qed.

(** A worker changes the code of a calling thread only by waking it. *)
Lemma worker_callers pick i s s' :
  worker pick i s = Ok s' ->
  callers s' = callers s
  \/ exists k c, callers s !! k = Some c /\ callers s' = <[k := wake_code c]> (callers s).
Proof.
  intros H. worker_inv H; try (left; reflexivity).
  apply notify_one_done_callers.
Qed.

Lemma worker_pond pick i s s' :
  worker pick i s = Ok s' ->
  exists index w w',
    pond s !! i = Some (Thread index w) /\ pond s' = <[i := Thread index w']> (pond s).
Proof.
  intros H. worker_inv H; try (eexists _, _, _; split; reflexivity).
  eexists _, _, _. split; [reflexivity|]. now rewrite notify_one_done_pond.
Qed.

(** The counter moves with the queue and the workers in flight: taking
    a task out of the queue changes neither sum, the decrement comes when
    the worker leaves [WReturned]. *)
Lemma worker_total pick i s s' (x : Z) :
  worker pick i s = Ok s' ->
  total_tasks s = wrap x ->
  total_tasks s'
  = wrap (x + (Z.of_nat (length (shared_tq s')) + sumZ in_flight (pond s'))
            - (Z.of_nat (length (shared_tq s)) + sumZ in_flight (pond s))).
Proof.
  intros H Hx.
  worker_inv H;
    try (erewrite sumZ_insert by eassumption; simpl; rewrite Hx; f_equal; lia).
  - erewrite sumZ_insert by eassumption. simpl.
    replace (total_tasks s - 1) with (total_tasks s + -1) by lia.
    rewrite Hx, wrap_add_l. f_equal. lia.
  - destruct (notify_one_frame task_done_cv pick s) as (_ & _ & _ & E1 & E2 & _).
    rewrite E1, E2, notify_one_done_pond.
    erewrite sumZ_insert by eassumption; simpl; rewrite Hx; f_equal; lia.
Qed.

Ltac owner_is_me :=
  match goal with
  | H : shared_locker ?s = Some ?t, H' : tid_eqb ?t _ = true |- _ =>
      apply tid_eqb_eq in H'; subst t
  end.

Lemma worker_locker pick i s s' :
  worker pick i s = Ok s' ->
  shared_locker s' = shared_locker s
  \/ (shared_locker s = None /\ shared_locker s' = Some (Worker i))
  \/ (shared_locker s = Some (Worker i) /\ shared_locker s' = None).
Proof.
  intros H. worker_inv H; auto; owner_is_me;
    try (right; right; split; [first [assumption|reflexivity]|reflexivity]).
  right; right. split; [|reflexivity].
  destruct (notify_one_frame task_done_cv pick s) as (_ & _ & _ & _ & _ & E & _).
  now rewrite <- E.
Qed.

Lemma worker_tq pick i s s' :
  worker pick i s = Ok s' ->
  shared_tq s' = shared_tq s \/ shared_locker s = Some (Worker i).
Proof.
  intros H. worker_inv H; try (left; reflexivity).
  - right. now owner_is_me.
  - left. apply (notify_one_frame task_done_cv pick s).
Qed.

(** A worker owns the lock after a step only if it took it in that step
    or owned it before. *)
Lemma worker_holders pick i s s' j index w :
  worker pick i s = Ok s' ->
  pond s' !! j = Some (Thread index w) -> holds w = true ->
  (j <> i /\ pond s !! j = Some (Thread index w))
  \/ (j = i /\ (shared_locker s' = Some (Worker i)
               \/ exists w0, pond s !! i = Some (Thread index w0) /\ holds w0 = true
                             /\ shared_locker s' = shared_locker s)).
Proof.
  intros H Hj Hw.
  destruct (worker_pond _ _ _ _ H) as (idx & w0 & w' & Hi & Hp).
  rewrite Hp in Hj. destruct (decide (j = i)) as [->|Hne].
  - right. split; [reflexivity|].
    rewrite list_lookup_insert_eq in Hj by (eapply lookup_lt_Some; eassumption).
    injection Hj as <- <-.
    unfold worker, lock, unlock, invoke in H. rewrite Hi in H.
    destruct w0; repeat case_match; simplify_eq; simpl in *;
      try (left; reflexivity);
      try match goal with
          | H : <[_ := Thread _ ?w]> _ = <[_ := Thread _ _]> _ |- _ =>
              apply (f_equal (fun l => l !! i)) in H;
              rewrite !list_lookup_insert_eq in H by (eapply lookup_lt_Some; eassumption);
              simplify_eq
          end;
      try discriminate;
      try (right; eexists; split; [first [reflexivity|eassumption]|split; reflexivity]).
    rewrite notify_one_done_pond in Hp.
    apply (f_equal (fun l => l !! i)) in Hp.
    rewrite !list_lookup_insert_eq in Hp by (eapply lookup_lt_Some; eassumption).
    simplify_eq.
  - left. split; [assumption|]. now rewrite list_lookup_insert_ne in Hj.
Qed.

(** ** The invariant *)

Lemma wrap_cong (a b k : Z) : a = b + k * 2 ^ 32 -> wrap a = wrap b.
Proof.
  intros ->. unfold wrap. f_equal.
  replace (b + k * 2 ^ 32 + 2 ^ 31) with (b + 2 ^ 31 + k * 2 ^ 32) by lia.
  apply Z_mod_plus_full.
Qed.

Lemma wrap_eq (b : Z) : exists k, wrap b = b + k * 2 ^ 32.
Proof.
  exists (- ((b + 2 ^ 31) / 2 ^ 32)). unfold wrap.
  pose proof (Z.div_mod (b + 2 ^ 31) (2 ^ 32)) as H. lia.
Qed.

Lemma wrap_sub_r (a b : Z) : wrap (a - wrap b) = wrap (a - b).
Proof.
  destruct (wrap_eq b) as [k ->]. apply (wrap_cong _ _ (- k)). lia.
Qed.

Lemma owed_program (r : request) (x : Z) : wrap (x + owed (program r)) = wrap x.
Proof.
  destruct r; cbn [program]; try (f_equal; unfold owed; simpl; lia).
  - rewrite (owed_quiet _ (quiet_addThreads _)). f_equal. lia.
  - unfold submitInBatch.
    change (owed ([ILock; IAddTotal (wrap (Z.of_nat size))]
                    ++ map (fun i => IPush (cont !! i)) (seq 0 size) ++ [IUnlock; INotifyAll]))
      with (0 + (- wrap (Z.of_nat size)
                 + owed (map (fun i => IPush (cont !! i)) (seq 0 size) ++ [IUnlock; INotifyAll]))).
    rewrite <- (map_map (fun i => cont !! i) IPush), owed_pushes, length_map, length_seq.
    change (owed [IUnlock; INotifyAll]) with 0.
    replace (x + (0 + (- wrap (Z.of_nat size) + (Z.of_nat size + 0))))
      with (x + Z.of_nat size - wrap (Z.of_nat size)) by lia.
    rewrite wrap_sub_r. f_equal. lia.
Qed.

Lemma critical_program (r : request) : critical (program r) = false.
Proof. destruct r; reflexivity. Qed.

Lemma owed_wake (c : code) : owed (wake_code c) = owed c.
Proof. destruct c as [|[] c]; reflexivity. Qed.

Lemma critical_wake (c : code) : critical (wake_code c) = critical c.
Proof. destruct c as [|[] c]; reflexivity. Qed.

Lemma shape_wake (c : code) : shape c -> shape (wake_code c).
Proof.
  intros H. destruct c as [|i c]; [exact H|].
  destruct i; try exact H. simpl.
  remember (IBlockedDrain :: c) as c0 eqn:E.
  destruct H as [c0 Hq|foo r Hq|o r Hq|o r Hq|r Hq|n os r Hq Hn|n os r Hq Hn|os r Hq];
    try discriminate E.
  - subst c0. inversion Hq; subst. apply shape_quiet. constructor; [reflexivity|assumption].
  - destruct os; discriminate E.
Qed.

Lemma lookup_insert_wake (l : list code) (k k' : nat) (c0 c : code) :
  l !! k = Some c0 -> <[k := wake_code c0]> l !! k' = Some c ->
  exists c1, l !! k' = Some c1 /\ (c = c1 \/ c = wake_code c1).
Proof.
  intros Hk H. destruct (decide (k = k')) as [<-|Hne].
  - rewrite list_lookup_insert_eq in H by (eapply lookup_lt_Some; eassumption).
    injection H as <-. exists c0. split; [assumption|now right].
  - rewrite list_lookup_insert_ne in H by assumption. exists c. split; [assumption|now left].
Qed.

Lemma worker_caller_lookup pick i s s' k c :
  worker pick i s = Ok s' -> callers s' !! k = Some c ->
  exists c1, callers s !! k = Some c1 /\ (c = c1 \/ c = wake_code c1).
Proof.
  intros H Hk. destruct (worker_callers _ _ _ _ H) as [E|(k0 & c0 & Hk0 & E)]; rewrite E in Hk.
  - exists c. split; [assumption|now left].
  - eapply lookup_insert_wake; eassumption.
Qed.

Lemma worker_owed pick i s s' :
  worker pick i s = Ok s' -> sumZ owed (callers s') = sumZ owed (callers s).
Proof.
  intros H. destruct (worker_callers _ _ _ _ H) as [->|(k0 & c0 & Hk0 & ->)]; [reflexivity|].
  rewrite (sumZ_insert _ _ _ _ _ Hk0), owed_wake. lia.
Qed.

Lemma inv_construct (tnumb : Z) (s : system) : construct tnumb = Ok s -> inv s.
Proof.
  unfold construct. destruct (tnumb <? 0); [discriminate|]. intros [= <-].
  constructor; simpl.
  - unfold outstanding; simpl.
    rewrite sumZ_zero; [reflexivity|].
    apply List.Forall_forall. intros h Hh. apply in_map_iff in Hh as (i & <- & _). reflexivity.
  - intros k c H. now rewrite lookup_nil in H.
  - intros k c H. now rewrite lookup_nil in H.
  - intros i index w H Hw. apply list_elem_of_lookup_2, list_elem_of_In, in_map_iff in H
      as (j & [= <- <-] & _). discriminate.
  - intros k c H. now rewrite lookup_nil in H.
Qed.

Lemma inv_call (r : request) (s : system) :
  inv s -> inv (set_callers (callers s ++ [program r]) s).
Proof.
  intros [Ht Hs Hc Hw Hp]. constructor; simpl.
  - unfold outstanding in *; simpl. rewrite sumZ_app. simpl.
    replace (Z.of_nat (length (shared_tq s)) + sumZ in_flight (pond s)
             + (sumZ owed (callers s) + (owed (program r) + 0)))
      with (Z.of_nat (length (shared_tq s)) + sumZ in_flight (pond s)
            + sumZ owed (callers s) + owed (program r)) by lia.
    now rewrite owed_program.
  - intros k c H. apply lookup_app_Some in H as [H|[_ H]]; [eauto|].
    destruct (k - length (callers s))%nat; simpl in H; [|now rewrite lookup_nil in H].
    injection H as <-. apply shape_program.
  - intros k c H Hcr. apply lookup_app_Some in H as [H|[_ H]]; [eauto|].
    destruct (k - length (callers s))%nat; simpl in H; [|now rewrite lookup_nil in H].
    injection H as <-. rewrite critical_program in Hcr. discriminate.
  - exact Hw.
  - intros k c H Ho. apply lookup_app_Some in H as [H|[_ H]]; [eauto|].
    destruct (k - length (callers s))%nat; simpl in H; [|now rewrite lookup_nil in H].
    injection H as <-. destruct (shape_owed _ (shape_program r)) as [_ Hcr].
    rewrite critical_program in Hcr. specialize (Hcr Ho). discriminate.
Qed.

Lemma inv_spurious (i : nat) (s : system) : inv s -> inv (wake_worker i s).
Proof.
  intros [Ht Hs Hc Hw Hp]. unfold wake_worker.
  destruct (pond s !! i) as [h|] eqn:E; [|now constructor].
  constructor; simpl; try assumption.
  - unfold outstanding in *; simpl. now rewrite in_flight_insert_wake.
  - intros j index w Hj Hh. eapply Hw; [|exact Hh]. eapply holds_insert_wake; eassumption.
Qed.

Lemma inv_caller (pick k : nat) (s s' : system) :
  inv s -> caller_step pick k s = Ok s' -> inv s'.
Proof.
  intros [Ht Hs Hc Hw Hp] H. unfold caller_step in H.
  destruct (callers s !! k) as [[|i rest]|] eqn:Ek; try discriminate.
  destruct (exec_instr (Caller k) pick i rest s) as [[c' s1]| |] eqn:Ex; try discriminate.
  injection H as <-.
  pose proof (exec_instr_callers _ _ _ _ _ _ _ Ex) as Ecs.
  destruct (exec_instr_shape _ _ _ _ _ _ _ (Hs _ _ Ek) Ex) as (Hsh & Hpu & Hcr).
  pose proof (exec_instr_locker _ _ _ _ _ _ _ Ex) as Hlk.
  constructor; simpl; rewrite ?Ecs.
  - unfold outstanding; simpl. rewrite ?Ecs, (sumZ_insert _ _ _ _ _ Ek).
    rewrite (exec_instr_in_flight _ _ _ _ _ _ _ Ex).
    pose proof (exec_instr_queue _ _ _ _ _ _ _ Ex) as Eq.
    rewrite (exec_instr_total _ _ _ _ _ _ _ _ Ex Ht). f_equal.
    unfold outstanding. lia.
  - intros k' c Hk'. destruct (decide (k = k')) as [<-|Hne].
    + rewrite list_lookup_insert_eq in Hk' by (eapply lookup_lt_Some; eassumption).
      now injection Hk' as <-.
    + rewrite list_lookup_insert_ne in Hk' by assumption. eauto.
  - intros k' c Hk' Hcrit. destruct (decide (k = k')) as [<-|Hne].
    + rewrite list_lookup_insert_eq in Hk' by (eapply lookup_lt_Some; eassumption).
      injection Hk' as <-. destruct (Hcr Hcrit) as [E|[Hc0 E]]; [exact E|].
      rewrite E. eauto.
    + rewrite list_lookup_insert_ne in Hk' by assumption.
      specialize (Hc _ _ Hk' Hcrit).
      destruct Hlk as [E|[(_ & E & _)|(E & _)]]; rewrite Hc in E; try discriminate.
      * congruence.
      * congruence.
  - intros j index w Hj Hh.
    pose proof (exec_instr_holders _ _ _ _ _ _ _ _ _ _ Ex Hj Hh) as Hj0.
    specialize (Hw _ _ _ Hj0 Hh).
    destruct Hlk as [E|[(_ & E & _)|(E & _)]]; rewrite Hw in E; try discriminate.
    congruence.
  - intros k' c Hk' Ho. destruct (decide (k = k')) as [<-|Hne].
    + rewrite list_lookup_insert_eq in Hk' by (eapply lookup_lt_Some; eassumption).
      injection Hk' as <-. auto.
    + rewrite list_lookup_insert_ne in Hk' by assumption.
      specialize (Hp _ _ Hk' Ho).
      destruct (exec_instr_tq _ _ _ _ _ _ _ Ex) as [l ->].
      destruct (shared_tq s); [contradiction|discriminate].
Qed.

Lemma inv_worker (pick i : nat) (s s' : system) :
  inv s -> worker pick i s = Ok s' -> inv s'.
Proof.
  intros [Ht Hs Hc Hw Hp] H.
  pose proof (worker_locker _ _ _ _ H) as Hlk.
  constructor.
  - rewrite (worker_total _ _ _ _ _ H Ht). f_equal.
    unfold outstanding. rewrite (worker_owed _ _ _ _ H). lia.
  - intros k c Hk. destruct (worker_caller_lookup _ _ _ _ _ _ H Hk) as (c1 & Hk1 & [->| ->]).
    + eauto.
    + apply shape_wake. eauto.
  - intros k c Hk Hcrit.
    destruct (worker_caller_lookup _ _ _ _ _ _ H Hk) as (c1 & Hk1 & E).
    assert (Hcrit1 : critical c1 = true).
    { destruct E as [->| ->]; [assumption|]. now rewrite critical_wake in Hcrit. }
    specialize (Hc _ _ Hk1 Hcrit1).
    destruct Hlk as [E'|[(E' & _)|(E' & _)]]; rewrite Hc in E'; try discriminate.
    assumption.
  - intros j index w Hj Hh.
    destruct (worker_holders _ _ _ _ _ _ _ H Hj Hh)
      as [(Hne & Hj0)|(-> & [E|(w0 & Hi & Hh0 & E)])].
    + specialize (Hw _ _ _ Hj0 Hh).
      destruct Hlk as [E|[(E & _)|(E & _)]]; rewrite Hw in E; try discriminate.
      * assumption.
      * injection E as E. congruence.
    + exact E.
    + rewrite E. eauto.
  - intros k c Hk Ho.
    destruct (worker_caller_lookup _ _ _ _ _ _ H Hk) as (c1 & Hk1 & E).
    assert (Ho1 : owed c1 < 0).
    { destruct E as [->| ->]; [assumption|]. now rewrite owed_wake in Ho. }
    destruct (worker_tq _ _ _ _ H) as [->|E'].
    + eauto.
    + destruct (shape_owed _ (Hs _ _ Hk1)) as [_ Hcr].
      rewrite (Hc _ _ Hk1 (Hcr Ho1)) in E'. discriminate.
Qed.

Lemma inv_spurious_drain (k : nat) (s : system) : inv s -> inv (wake_caller k s).
Proof.
  intros [Ht Hs Hc Hw Hp]. unfold wake_caller.
  destruct (callers s !! k) as [c0|] eqn:E; [|now constructor].
  constructor; simpl; try assumption.
  - unfold outstanding in *; simpl.
    rewrite (sumZ_insert _ _ _ _ _ E), owed_wake. rewrite Ht. f_equal. lia.
  - intros k' c Hk. destruct (lookup_insert_wake _ _ _ _ _ E Hk) as (c1 & Hk1 & [->| ->]).
    + eauto.
    + apply shape_wake. eauto.
  - intros k' c Hk Hcrit.
    destruct (lookup_insert_wake _ _ _ _ _ E Hk) as (c1 & Hk1 & [->| ->]).
    + eauto.
    + rewrite critical_wake in Hcrit. eauto.
  - intros k' c Hk Ho.
    destruct (lookup_insert_wake _ _ _ _ _ E Hk) as (c1 & Hk1 & [->| ->]).
    + eauto.
    + rewrite owed_wake in Ho. eauto.
Qed.

Lemma inv_step (l : label) (s s' : system) : inv s -> step l s = Ok s' -> inv s'.
Proof.
  intros Hi H. destruct l as [r|k pick|i pick|i|k]; simpl in H.
  - injection H as <-. now apply inv_call.
  - eapply inv_caller; eassumption.
  - eapply inv_worker; eassumption.
  - injection H as <-. now apply inv_spurious.
  - injection H as <-. now apply inv_spurious_drain.
Qed.

Lemma reachable_inv (s : system) : reachable s -> inv s.
Proof.
  induction 1 as [tnumb s _ H|l s s' _ IH H].
  - eapply inv_construct; eassumption.
  - eapply inv_step; eassumption.
Qed.

(** ** The outstanding counter is never negative *)

Lemma sum_owed_lower (L : option tid) (l : list code) (off : nat) :
  (forall k c, l !! k = Some c ->
               -1 <= owed c /\ (owed c < 0 -> L = Some (Caller (off + k)))) ->
  -1 <= sumZ owed l /\ (sumZ owed l < 0 -> exists k c, l !! k = Some c /\ owed c < 0).
Proof.
  revert off. induction l as [|c l IH]; intros off H; simpl.
  - split; [lia|]. intros; lia.
  - destruct (H 0%nat c eq_refl) as [Hc Hlock].
    destruct (IH (S off)) as [Hl Hneg].
    { intros k c' Hk. destruct (H (S k) c' Hk) as [H1 H2]. split; [exact H1|].
      intros Ho. rewrite (H2 Ho). do 2 f_equal. lia. }
    destruct (Z_lt_dec (owed c) 0) as [Hlt|Hge].
    + assert (Htail : 0 <= sumZ owed l).
      { destruct (Z_lt_dec (sumZ owed l) 0) as [Hs|Hs]; [|lia].
        destruct (Hneg Hs) as (k & c' & Hk & Ho).
        destruct (H (S k) c' Hk) as [_ H2]. specialize (H2 Ho).
        rewrite (Hlock Hlt) in H2. injection H2 as H2. lia. }
      split; [lia|]. intros _. exists 0%nat, c. split; [reflexivity|exact Hlt].
    + split; [lia|]. intros Hs.
      destruct Hneg as (k & c' & Hk & Ho); [lia|].
      exists (S k), c'. split; assumption.
Qed.

Lemma in_flight_nonneg (p : list handle) : 0 <= sumZ in_flight p.
Proof.
  induction p as [|h p IH]; simpl; [lia|].
  assert (0 <= in_flight h) by (destruct h as [|index []]; simpl; lia). lia.
Qed.

Lemma in_flight_lookup (p : list handle) (i : nat) (h : handle) :
  p !! i = Some h -> in_flight h <= sumZ in_flight p.
Proof.
  revert i. induction p as [|a p IH]; intros [|i] H; simpl in *; try discriminate.
  - injection H as ->. pose proof (in_flight_nonneg p). lia.
  - specialize (IH _ H). assert (0 <= in_flight a) by (destruct a as [|index []]; simpl; lia).
    lia.
Qed.

Lemma queue_covers_owed (s : system) :
  inv s -> 0 <= Z.of_nat (length (shared_tq s)) + sumZ owed (callers s).
Proof.
  intros [Ht Hs Hc Hw Hp].
  destruct (sum_owed_lower (shared_locker s) (callers s) 0) as [Hl Hneg].
  { intros k c Hk. destruct (shape_owed _ (Hs _ _ Hk)) as [H1 H2]. split; [exact H1|].
    intros Ho. exact (Hc _ _ Hk (H2 Ho)). }
  destruct (Z_lt_dec (sumZ owed (callers s)) 0) as [Hlt|Hge]; [|lia].
  destruct (Hneg Hlt) as (k & c & Hk & Ho).
  specialize (Hp _ _ Hk Ho). destruct (shared_tq s); [contradiction|]. simpl length. lia.
Qed.

Lemma outstanding_nonneg (s : system) : inv s -> 0 <= outstanding s.
Proof.
  intros H. pose proof (queue_covers_owed s H). pose proof (in_flight_nonneg (pond s)).
  unfold outstanding. lia.
Qed.

Lemma reachable_exec (ls : list label) (s s' : system) :
  reachable s -> exec ls s = Ok s' -> reachable s'.
Proof.
  revert s. induction ls as [|l ls IH]; intros s Hr H; simpl in H.
  - now injection H as <-.
  - destruct (step l s) as [s1| |] eqn:E; try discriminate.
    eapply IH; [|exact H]. eapply reach_step; eassumption.
Qed.

(** C7. In every reachable state [total_tasks] is the 32-bit value of the
    number of tasks submitted and not finished, which counts the tasks a
    worker has taken and is running; that number is never negative, so
    within the range of [int] the counter equals it and is at least 0.
    A worker leaves the counter alone at every step except the one after
    [util::invoke] has returned, where it subtracts one; in particular
    taking a task out of the queue does not change it. *)
Theorem total_tasks_nonneg (s : system) :
  reachable s ->
  0 <= outstanding s
  /\ getTasksRemain s = wrap (outstanding s)
  /\ (outstanding s <= INT_MAX -> getTasksRemain s = outstanding s /\ 0 <= getTasksRemain s)
  /\ (forall pick i s',
        worker pick i s = Ok s' ->
        (exists index, pond s !! i = Some (Thread index WReturned)
                       /\ total_tasks s' = wrap (total_tasks s - 1))
        \/ ((forall index, pond s !! i <> Some (Thread index WReturned))
            /\ total_tasks s' = total_tasks s)).
Proof.
  intros Hr. pose proof (reachable_inv s Hr) as Hi.
  pose proof (outstanding_nonneg s Hi) as H0.
  split; [exact H0|]. split; [apply Hi|]. split.
  - intros Hmax. unfold getTasksRemain. rewrite (inv_total s Hi).
    rewrite wrap_in_int; [split; [reflexivity|exact H0]|].
    unfold in_int, INT_MIN in *. lia.
  - intros pick i s' H. worker_inv H;
      try (right; split; [intros idx; congruence|reflexivity]).
    + left. eexists. split; reflexivity.
    + right. split; [intros idx; congruence|].
      apply (notify_one_frame task_done_cv pick s).
Qed.

Lemma total_tasks_nonneg_witness :
  exists s,
    exec [LCall (RSubmit (Plain (Value 7))); LCaller 0 0; LCaller 0 0; LCaller 0 0;
          LCaller 0 0; LCaller 0 0; LWorker 0 0; LWorker 0 0; LWorker 0 0; LWorker 0 0;
          LWorker 0 0]
      (mkSystem false 1 false 0 [] None [Thread 0 WLoopHead] 0 [] 0 [] []) = Ok s
    /\ pond s = [Thread 0 (WInvoke (Plain (Value 7)))]
    /\ shared_tq s = [] /\ getTasksRemain s = 1 /\ 0 <= getTasksRemain s.
Proof.
  eexists. split; [vm_compute; reflexivity|].
  split; [reflexivity|]. split; [reflexivity|]. split; [reflexivity|].
  eapply (total_tasks_nonneg _).
  - eapply (reachable_exec
              [LCall (RSubmit (Plain (Value 7))); LCaller 0 0; LCaller 0 0; LCaller 0 0;
               LCaller 0 0; LCaller 0 0; LWorker 0 0; LWorker 0 0; LWorker 0 0; LWorker 0 0;
               LWorker 0 0]
              (mkSystem false 1 false 0 [] None [Thread 0 WLoopHead] 0 [] 0 [] [])).
    + apply (reach_construct 1); [unfold in_int, INT_MIN, INT_MAX; lia|reflexivity].
    + vm_compute. reflexivity.
  - vm_compute. discriminate.
Defined.

Lemma wake_caller_pond (k : nat) (s : system) : pond (wake_caller k s) = pond s.
Proof. unfold wake_caller. now destruct (callers s !! k). Qed.

(** ** Slot numbers and [int] ranges *)

Lemma exec_instr_length me pick i rest s c' s' :
  exec_instr me pick i rest s = Ok (c', s') ->
  (length (pond s) <= length (pond s'))%nat.
Proof.
  intros H. destruct i; exec_inv H; rewrite ?length_insert, ?length_map, ?length_app; try lia.
  destruct (notify_one_awake_pond pick s) as [->|(j & h & _ & ->)];
    rewrite ?length_insert; lia.
Qed.

Lemma indexed_insert_same (p : list handle) (i : nat) (index : Z) (w w' : wstate) :
  p !! i = Some (Thread index w) ->
  (forall q idx v, p !! q = Some (Thread idx v) -> idx = Z.of_nat q) ->
  forall q idx v, <[i := Thread index w']> p !! q = Some (Thread idx v) -> idx = Z.of_nat q.
Proof.
  intros Hi H q idx v Hq. destruct (decide (i = q)) as [->|Hne].
  - rewrite list_lookup_insert_eq in Hq by (eapply lookup_lt_Some; eassumption).
    injection Hq as <- <-. eauto.
  - rewrite list_lookup_insert_ne in Hq by assumption. eauto.
Qed.

Lemma indexed_insert_wake (p : list handle) (i : nat) (h : handle) :
  p !! i = Some h ->
  (forall q idx v, p !! q = Some (Thread idx v) -> idx = Z.of_nat q) ->
  forall q idx v, <[i := wake_handle h]> p !! q = Some (Thread idx v) -> idx = Z.of_nat q.
Proof.
  intros Hi H q idx v Hq. destruct (decide (i = q)) as [->|Hne].
  - rewrite list_lookup_insert_eq in Hq by (eapply lookup_lt_Some; eassumption).
    injection Hq as Hq. destruct h as [|index w]; [discriminate|].
    assert (idx = index) as -> by (destruct w; simpl in Hq; now injection Hq as <- _).
    eauto.
  - rewrite list_lookup_insert_ne in Hq by assumption. eauto.
Qed.

Lemma indexed_caller (pick k : nat) (s s' : system) :
  indexed s -> caller_step pick k s = Ok s' -> indexed s'.
Proof.
  intros Hi H. unfold caller_step in H.
  destruct (callers s !! k) as [[|i rest]|] eqn:Ek; try discriminate.
  destruct (exec_instr (Caller k) pick i rest s) as [[c' s1]| |] eqn:Ex; try discriminate.
  injection H as <-. unfold indexed in *. simpl.
  pose proof (exec_instr_length _ _ _ _ _ _ _ Ex) as Hlen.
  intros Hsz. assert (Hsz0 : Z.of_nat (length (pond s)) <= 2 ^ 31) by lia.
  specialize (Hi Hsz0). clear Hlen Ek.
  destruct i; exec_inv Ex; try assumption.
  - destruct (notify_one_awake_pond pick s) as [->|(j & h & Hj & ->)]; [assumption|].
    now apply indexed_insert_wake.
  - intros q idx v Hq. rewrite list_lookup_fmap in Hq.
    destruct (pond s !! q) as [h|] eqn:E; [|discriminate]. simpl in Hq. injection Hq as Hq.
    destruct h as [|index w]; [discriminate|].
    assert (idx = index) as -> by (destruct w; simpl in Hq; now injection Hq as <- _).
    eauto.
  - intros q i v Hq. destruct (decide (Z.to_nat idx = q)) as [E|Hne].
    + subst q. rewrite list_lookup_insert_eq in Hq by (eapply lookup_lt_Some; eassumption).
      discriminate.
    + rewrite list_lookup_insert_ne in Hq by assumption. eauto.
  - intros q i v Hq. destruct (decide (Z.to_nat idx = q)) as [E|Hne].
    + subst q. rewrite list_lookup_insert_eq in Hq by (eapply lookup_lt_Some; eassumption).
      injection Hq as <- _. apply Z.ltb_ge in H1. lia.
    + rewrite list_lookup_insert_ne in Hq by assumption. eauto.
  - intros q i v Hq. rewrite length_app in Hsz. simpl in Hsz.
    destruct (decide (q < length (pond s))%nat) as [Hlt|Hge].
    + rewrite lookup_app_l in Hq by assumption. eauto.
    + rewrite lookup_app_r in Hq by lia.
      destruct (q - length (pond s))%nat eqn:E; simpl in Hq; [|now rewrite lookup_nil in Hq].
      injection Hq as <- _. rewrite wrap_in_int; [lia|].
      unfold in_int, INT_MIN, INT_MAX. lia.
Qed.

Lemma indexed_step (l : label) (s s' : system) : indexed s -> step l s = Ok s' -> indexed s'.
Proof.
  intros Hi H. destruct l as [r|k pick|i pick|i|k]; simpl in H.
  - now injection H as <-.
  - eapply indexed_caller; eassumption.
  - destruct (worker_pond _ _ _ _ H) as (idx & w & w' & Hw & E).
    unfold indexed in *. rewrite E, length_insert. intros Hsz.
    eapply indexed_insert_same; [exact Hw|exact (Hi Hsz)].
  - injection H as <-. unfold indexed in *.
    destruct (wake_worker_pond i s) as [->|(h & Hh & ->)]; [assumption|].
    rewrite length_insert. intros Hsz. apply indexed_insert_wake; [exact Hh|exact (Hi Hsz)].
  - injection H as <-. unfold indexed in *. now rewrite wake_caller_pond.
Qed.

Lemma reachable_indexed (s : system) : reachable s -> indexed s.
Proof.
  induction 1 as [tnumb s _ H|l s s' _ IH H].
  - unfold construct in H. destruct (tnumb <? 0); [discriminate|]. injection H as <-.
    intros _ p index w Hp. simpl in Hp.
    rewrite list_lookup_fmap in Hp.
    destruct (seq 0 (Z.to_nat tnumb) !! p) as [j|] eqn:E; [|discriminate].
    simpl in Hp. injection Hp as <- _.
    apply lookup_seq in E as [-> _]. reflexivity.
  - eapply indexed_step; eassumption.
Qed.

Ltac ints_fields :=
  unfold ints; simpl; (split; [|split; [|split]]);
  try first [assumption | apply wrap_range].

Lemma ints_step (l : label) (s s' : system) : ints s -> step l s = Ok s' -> ints s'.
Proof.
  intros (H1 & H2 & H3 & H4) H. destruct l as [r|k pick|i pick|i|k]; simpl in H.
  - injection H as <-. ints_fields.
  - unfold caller_step in H.
    destruct (callers s !! k) as [[|i rest]|] eqn:Ek; try discriminate.
    destruct (exec_instr (Caller k) pick i rest s) as [[c' s1]| |] eqn:Ex; try discriminate.
    injection H as <-.
    destruct i; exec_inv Ex; ints_fields.
    all: destruct (notify_one_frame awake_cv pick s) as (_ & E1 & _ & E2 & _ & _ & E3 & _ & E4 & _);
      rewrite ?E1, ?E2, ?E3, ?E4; assumption.
  - worker_inv H; ints_fields.
    all: destruct (notify_one_frame task_done_cv pick s) as (_ & E1 & _ & E2 & _ & _ & E3 & _ & E4 & _);
      rewrite ?E1, ?E2, ?E3, ?E4; assumption.
  - injection H as <-. unfold wake_worker. destruct (pond s !! i); ints_fields.
  - injection H as <-. unfold wake_caller. destruct (callers s !! k); ints_fields.
Qed.

Lemma reachable_ints (s : system) : reachable s -> ints s.
Proof.
  induction 1 as [tnumb s Hn H|l s s' _ IH H].
  - unfold construct in H. destruct (tnumb <? 0); [discriminate|]. injection H as <-.
    unfold ints, in_int, INT_MIN, INT_MAX in *. simpl. lia.
  - eapply ints_step; eassumption.
Qed.

(** ** Critical sections are exclusive *)

Lemma exec_instr_tq_same me pick i rest s c' s' :
  exec_instr me pick i rest s = Ok (c', s') -> (forall o, i <> IPush o) ->
  shared_tq s' = shared_tq s.
Proof.
  intros H Hi. destruct i; exec_inv H; try reflexivity.
  - now destruct (Hi (Some h)).
  - apply (notify_one_frame awake_cv pick s).
Qed.

Lemma critical_not_woken (c : code) : critical c = true -> wake_code c = c.
Proof. destruct c as [|[] c]; simpl; intros; try discriminate; reflexivity. Qed.

(** While a thread is inside the critical section of a submission, no
    step of any other thread changes the queue, the code of that thread
    or the owner of the lock. *)
Lemma critical_section_exclusive (s s' : system) (k : nat) (c : code) (l : label) :
  reachable s -> callers s !! k = Some c -> critical c = true ->
  (forall pick, l <> LCaller k pick) -> step l s = Ok s' ->
  shared_tq s' = shared_tq s /\ callers s' !! k = Some c
  /\ shared_locker s' = Some (Caller k).
Proof.
  intros Hr Hk Hc Hl H. pose proof (reachable_inv s Hr) as Hi.
  pose proof (inv_caller_lock s Hi _ _ Hk Hc) as Hlk.
  destruct l as [r|k' pick|i pick|i|k']; simpl in H.
  - injection H as <-. simpl. split; [reflexivity|]. split; [|assumption].
    rewrite lookup_app_l; [assumption|]. eapply lookup_lt_Some; eassumption.
  - assert (Hne : k' <> k) by (intros ->; now apply (Hl pick)).
    unfold caller_step in H.
    destruct (callers s !! k') as [[|i rest]|] eqn:Ek; try discriminate.
    destruct (exec_instr (Caller k') pick i rest s) as [[c' s1]| |] eqn:Ex; try discriminate.
    injection H as <-. simpl.
    rewrite (exec_instr_callers _ _ _ _ _ _ _ Ex), list_lookup_insert_ne by assumption.
    split; [|split; [assumption|]].
    + eapply exec_instr_tq_same; [exact Ex|]. intros o ->.
      pose proof (inv_caller_lock s Hi _ _ Ek eq_refl) as Hlk'. congruence.
    + destruct (exec_instr_locker _ _ _ _ _ _ _ Ex) as [E|[(_ & E & _)|(E & _)]]; congruence.
  - split; [|split].
    + destruct (worker_tq _ _ _ _ H) as [E|E]; [exact E|congruence].
    + destruct (worker_callers _ _ _ _ H) as [->|(k0 & c0 & Hk0 & ->)]; [assumption|].
      destruct (decide (k0 = k)) as [->|Hne].
      * rewrite list_lookup_insert_eq by (eapply lookup_lt_Some; eassumption).
        rewrite Hk in Hk0. injection Hk0 as <-. now rewrite critical_not_woken.
      * now rewrite list_lookup_insert_ne.
    + destruct (worker_locker _ _ _ _ H) as [E|[(E & _)|(E & _)]]; congruence.
  - injection H as <-. unfold wake_worker. destruct (pond s !! i); simpl; auto.
  - injection H as <-. unfold wake_caller. destruct (callers s !! k') as [c0|] eqn:E; simpl; auto.
    split; [reflexivity|]. split; [|assumption].
    destruct (decide (k' = k)) as [->|Hne].
    + rewrite list_lookup_insert_eq by (eapply lookup_lt_Some; eassumption).
      rewrite Hk in E. injection E as <-. now rewrite critical_not_woken.
    + now rewrite list_lookup_insert_ne.
Qed.

(** C3. [submitInBatch] on a batch of [M] tasks, run with the lock free:
    the call returns; [total_tasks] moves in a single action from its old
    value to the old value plus [M] (32-bit arithmetic), so every state on
    the way shows one or the other; until the lock is released the queue
    is the old queue followed by a prefix of the batch, and at the release
    it is the old queue followed by the whole batch in order; afterwards
    every worker asleep on [awake_cv] has been woken.  In any
    interleaving, while the submitting thread is between its [ILock] and
    [IUnlock] no step of another thread changes the queue, so the batch
    occupies consecutive places of it. *)
Theorem submitInBatch_spec (me : tid) (cont : list HipeTask) (s : system) :
  (shared_locker s = None ->
  exists tr s',
    run (length cont + 4) me (submitInBatch cont (length cont)) s = (Finished, tr, ([], s'))
    /\ total_tasks s' = wrap (total_tasks s + Z.of_nat (length cont))
    /\ (in_int (total_tasks s + Z.of_nat (length cont)) ->
        total_tasks s' = total_tasks s + Z.of_nat (length cont))
    /\ shared_tq s' = shared_tq s ++ cont
    /\ Forall (fun x => total_tasks x = total_tasks s \/ total_tasks x = total_tasks s') tr
    /\ Forall (fun x => exists n, shared_tq x = shared_tq s ++ take n cont) tr
    /\ Forall (fun x => shared_locker x = Some me
                        \/ (total_tasks x = total_tasks s'
                            /\ shared_tq x = shared_tq s ++ cont)) tr
    /\ pond s' = map wake_handle (pond s)
    /\ unblocked s'
    /\ shared_locker s' = None)
  /\ (forall x x' k c l,
        reachable x -> callers x !! k = Some c -> critical c = true ->
        (forall pick, l <> LCaller k pick) -> step l x = Ok x' ->
        shared_tq x' = shared_tq x /\ callers x' !! k = Some c
        /\ shared_locker x' = Some (Caller k)).
Proof.
  split; [|intros x x' k c l; apply critical_section_exclusive].
  intros Hfree. unfold submitInBatch. rewrite batch_reads.
  replace (length cont + 4)%nat with (S (S (length cont + 2))) by lia.
  cbn [run app exec_instr]. unfold lock. rewrite Hfree.
  cbn [run exec_instr]. rewrite run_pushes. cbn [run exec_instr]. unfold unlock. cbn [shared_locker set_shared_tq set_total_tasks set_shared_locker].
  assert (Hme : tid_eqb me me = true) by (destruct me; simpl; apply Nat.eqb_refl).
  rewrite Hme. cbn [shared_tq total_tasks notify_all pond].
  rewrite wrap_add_r.
  eexists _, _. split; [reflexivity|]. cbn.
  split; [reflexivity|].
  split; [intros Hr; now apply wrap_in_int|].
  split; [reflexivity|].
  split.
  { constructor; [now left|]. constructor; [now right|].
    apply Forall_app. split.
    - apply List.Forall_forall. intros x Hx. apply in_map_iff in Hx as (j & <- & _). now right.
    - repeat constructor; now right. }
  split.
  { constructor; [exists 0%nat; simpl; now rewrite app_nil_r|].
    constructor; [exists 0%nat; simpl; now rewrite app_nil_r|].
    apply Forall_app. split.
    - apply List.Forall_forall. intros x Hx. apply in_map_iff in Hx as (j & <- & _).
      now exists (S j).
    - repeat constructor; exists (length cont); cbn; now rewrite firstn_all. }
  split.
  { constructor; [now left|]. constructor; [now left|].
    apply Forall_app. split.
    - apply List.Forall_forall. intros x Hx. apply in_map_iff in Hx as (j & <- & _). now left.
    - repeat constructor; right; split; reflexivity. }
  split; [reflexivity|].
  split; [apply wake_handle_unblocked|reflexivity].
Qed.

Lemma submitInBatch_spec_witness :
  exists tr s',
    run 6 (Caller 0) (submitInBatch [Plain (Value 1); Plain (Value 2)] 2)
      (mkSystem false 1 false 3 [Plain (Value 0)] None [Thread 0 WBlocked] 0 [] 0 [] [])
    = (Finished, tr, ([], s'))
    /\ total_tasks s' = 5
    /\ shared_tq s' = [Plain (Value 0); Plain (Value 1); Plain (Value 2)]
    /\ unblocked s'.
Proof.
  destruct (submitInBatch_spec (Caller 0) [Plain (Value 1); Plain (Value 2)]
      (mkSystem false 1 false 3 [Plain (Value 0)] None [Thread 0 WBlocked] 0 [] 0 [] []))
    as [H _].
  destruct H as (tr & s' & Hrun & _ & Ht & Hq & _ & _ & _ & _ & Hu & _).
  - reflexivity.
  - exists tr, s'. split; [exact Hrun|]. split; [|split; assumption].
    apply Ht. unfold in_int, INT_MIN, INT_MAX; simpl; lia.
Defined.

(** ** The worker after a wake-up *)

(** C4. A worker whose wait is over (it owns the lock and is about to
    evaluate the predicate of [awake_cv.wait]) with [shrink_numb] positive:
    the predicate holds whatever the queue and [stop] are, and at line 241
    the worker subtracts exactly one from [shrink_numb], appends the number
    of its own slot to [deleted_threads], releases the lock and returns
    from the thread function.  The queue, [total_tasks] and [task_loaded]
    are left as they were, also when the queue is not empty. *)
Theorem shrink_takes_priority (s : system) (i pick : nat) (index : Z) :
  reachable s ->
  Z.of_nat (length (pond s)) <= 2 ^ 31 ->
  0 < shrink_numb s ->
  (pond s !! i = Some (Thread index WCheckPred) ->
   worker pick i s = Ok (goto i index WAwake s))
  /\ (pond s !! i = Some (Thread index WAwake) ->
      exists s',
        worker pick i s = Ok s'
        /\ index = Z.of_nat i
        /\ s' = goto i index WExited
                  (set_shared_locker None
                     (set_deleted_threads (deleted_threads s ++ [Z.of_nat i])
                        (set_shrink_numb (shrink_numb s - 1) s)))
        /\ pond s' !! i = Some (Thread index WExited)
        /\ shrink_numb s' = shrink_numb s - 1
        /\ deleted_threads s' = deleted_threads s ++ [Z.of_nat i]
        /\ shared_tq s' = shared_tq s
        /\ total_tasks s' = total_tasks s
        /\ task_loaded s' = task_loaded s).
Proof.
  intros Hr Hsz Hpos. split.
  - intros Hi. unfold worker. rewrite Hi. unfold wait_pred.
    apply Z.ltb_lt in Hpos. rewrite Hpos, orb_true_r. reflexivity.
  - intros Hi.
    assert (Hidx : index = Z.of_nat i) by (eapply (reachable_indexed s Hr Hsz); exact Hi).
    pose proof (inv_worker_lock s (reachable_inv s Hr) _ _ _ Hi eq_refl) as Hlk.
    destruct (reachable_ints s Hr) as (_ & _ & Hs & _).
    assert (Hw : wrap (shrink_numb s - 1) = shrink_numb s - 1).
    { apply wrap_in_int. unfold in_int, INT_MIN, INT_MAX in *. lia. }
    eexists. split.
    + unfold worker. rewrite Hi.
      assert (Hne : negb (shrink_numb s =? 0) = true).
      { apply negb_true_iff, Z.eqb_neq. lia. }
      rewrite Hne. unfold unlock. cbn [shared_locker set_deleted_threads set_shrink_numb].
      rewrite Hlk. cbn [tid_eqb]. rewrite Nat.eqb_refl, Hw, Hidx. reflexivity.
    + split; [exact Hidx|]. split; [now rewrite Hidx|].
      split; [|repeat split].
      cbn [pond goto set_pond set_shared_locker set_deleted_threads set_shrink_numb].
      rewrite Hidx. apply list_lookup_insert_eq. eapply lookup_lt_Some; eassumption.
Qed.

Lemma shrink_takes_priority_witness :
  exists s s',
    exec [LCall (RSubmit (Plain (Value 7))); LCaller 0 0; LCaller 0 0; LCaller 0 0;
          LCaller 0 0; LCaller 0 0;
          LCall (RDelThreads 1); LCaller 1 0; LCaller 1 0; LCaller 1 0; LCaller 1 0;
          LWorker 1 0; LWorker 1 0; LWorker 1 0]
      (mkSystem false 2 false 0 [] None [Thread 0 WLoopHead; Thread 1 WLoopHead] 0 [] 0 [] [])
    = Ok s
    /\ shared_tq s = [Plain (Value 7)]
    /\ worker 0 1 s = Ok s'
    /\ pond s' = [Thread 0 WLoopHead; Thread 1 WExited]
    /\ deleted_threads s' = [1]
    /\ shrink_numb s' = 0
    /\ shared_tq s' = [Plain (Value 7)].
Proof.
  eexists. eexists. split; [vm_compute; reflexivity|]. split; [reflexivity|].
  destruct (shrink_takes_priority
              (mkSystem false 1 false 1 [Plain (Value 7)] (Some (Worker 1))
                 [Thread 0 WLoopHead; Thread 1 WAwake] 1 [] 0 [] [[]; []])
              1%nat 0%nat 1) as [_ H].
  - eapply (reachable_exec
        [LCall (RSubmit (Plain (Value 7))); LCaller 0 0; LCaller 0 0; LCaller 0 0;
          LCaller 0 0; LCaller 0 0;
          LCall (RDelThreads 1); LCaller 1 0; LCaller 1 0; LCaller 1 0; LCaller 1 0;
          LWorker 1 0; LWorker 1 0; LWorker 1 0]
        (mkSystem false 2 false 0 [] None [Thread 0 WLoopHead; Thread 1 WLoopHead] 0 [] 0 [] [])).
    + apply (reach_construct 2); [unfold in_int, INT_MIN, INT_MAX; lia|reflexivity].
    + vm_compute. reflexivity.
  - vm_compute. discriminate.
  - reflexivity.
  - destruct (H eq_refl) as (s' & Hw & _ & -> & _).
    split; [exact Hw|]. repeat split.
Defined.

(** ** [addThreads] *)

Lemma returns_nil (me : tid) (s : system) : returns me [] s [] s.
Proof. exists 0%nat. reflexivity. Qed.

Lemma returns_step (me : tid) (i : instr) (rest c' : code) (s s1 s' : system) (tr : list system) :
  exec_instr me 0 i rest s = Ok (c', s1) ->
  returns me c' s1 tr s' ->
  returns me (i :: rest) s (s1 :: tr) s'.
Proof. intros Hx [fuel Hr]. exists (S fuel). simpl. now rewrite Hx, Hr. Qed.

Lemma recyclable_in_insert (p : list handle) (d : list Z) (idx : Z) (h : handle) :
  0 <= idx -> ~ In idx d -> recyclable_in p d ->
  recyclable_in (<[Z.to_nat idx := h]> p) d.
Proof.
  intros H0. induction d as [|j d IH]; simpl; [trivial|].
  intros Hn (Hj & (index & Hl) & Hnd & Hr). split; [assumption|]. split.
  - exists index. rewrite list_lookup_insert_ne; [assumption|]. intros E.
    apply Hn. left. lia.
  - split; [assumption|]. apply IH; [|assumption]. intros Hin. apply Hn. now right.
Qed.

Lemma recyclable_in_app (p : list handle) (d : list Z) (h : handle) :
  recyclable_in p d -> recyclable_in (p ++ [h]) d.
Proof.
  induction d as [|j d IH]; simpl; [trivial|].
  intros (Hj & (index & Hl) & Hnd & Hr). repeat split; try assumption; [|now apply IH].
  exists index. rewrite lookup_app_l; [assumption|]. eapply lookup_lt_Some; eassumption.
Qed.

Lemma grow_step_recyclable (s : system) : recyclable s -> recyclable (grow_step s).
Proof.
  unfold recyclable, grow_step. destruct (deleted_threads s) as [|idx d] eqn:E; simpl.
  - intros _. rewrite E. exact I.
  - intros (H0 & _ & Hn & Hr). now apply recyclable_in_insert.
Qed.

Lemma grow_step_locker (s : system) : shared_locker (grow_step s) = shared_locker s.
Proof. unfold grow_step. now destruct (deleted_threads s). Qed.

(** One turn of the loop, run alone with the lock free. *)
Lemma returns_grow_once (me : tid) (rest : code) (s s' : system) (tr : list system) :
  shared_locker s = None -> recyclable s ->
  returns me rest (grow_step s) tr s' ->
  exists tr1, returns me (grow_once ++ rest) s (tr1 ++ tr) s'
              /\ Forall (fun x => length (pond s) <= length (pond x))%nat tr1.
Proof.
  intros Hfree Hrec Hret. unfold grow_once, grow_step in *. unfold recyclable in Hrec.
  destruct (deleted_threads s) as [|idx d] eqn:E.
  - eexists [_; _; _; _; _]. split.
    + simpl. eapply returns_step; [simpl; unfold lock; rewrite Hfree; reflexivity|].
      eapply returns_step; [simpl; rewrite E; reflexivity|].
      eapply returns_step; [simpl; unfold unlock; simpl; rewrite tid_eqb_refl; reflexivity|].
      eapply returns_step; [reflexivity|].
      eapply returns_step; [reflexivity|].
      replace (set_thread_numb _ _)
        with (set_thread_numb (wrap (thread_numb s + 1))
                (set_pond (pond s ++ [Thread (wrap (Z.of_nat (length (pond s)))) WLoopHead]) s));
        [exact Hret|].
      destruct s; simpl in *; now subst.
    + repeat constructor; simpl; rewrite ?length_app; lia.
  - simpl in Hrec. destruct Hrec as (H0 & (index & Hl) & Hn & Hr).
    assert (Hneg : (idx <? 0) = false) by (apply Z.ltb_ge; lia).
    assert (Hlt : (Z.to_nat idx < length (pond s))%nat) by (eapply lookup_lt_Some; eassumption).
    eexists [_; _; _; _; _; _]. split.
    + simpl. eapply returns_step; [simpl; unfold lock; rewrite Hfree; reflexivity|].
      eapply returns_step; [simpl; rewrite E; reflexivity|].
      eapply returns_step; [simpl; unfold unlock; simpl; rewrite tid_eqb_refl; reflexivity|].
      eapply returns_step; [simpl; unfold slot; simpl; rewrite Hneg, Hl; reflexivity|].
      eapply returns_step.
      { simpl. unfold slot, set_slot. simpl. rewrite Hneg.
        rewrite list_lookup_insert_eq by assumption. reflexivity. }
      eapply returns_step; [reflexivity|].
      replace (set_thread_numb _ _)
        with (set_thread_numb (wrap (thread_numb s + 1))
                (set_slot idx (Thread idx WLoopHead) (set_deleted_threads d s)));
        [exact Hret|].
      unfold set_slot. simpl. rewrite list_insert_insert_eq.
      destruct s; simpl in *; now subst.
    + repeat constructor; simpl; rewrite ?length_insert; lia.
Qed.

Lemma grow_locker (n : nat) (s : system) : shared_locker (grow n s) = shared_locker s.
Proof. induction n as [|n IH]; [reflexivity|]. simpl. now rewrite grow_step_locker. Qed.

Lemma grow_recyclable (n : nat) (s : system) : recyclable s -> recyclable (grow n s).
Proof. induction n as [|n IH]; [trivial|]. intros H. simpl. apply grow_step_recyclable; auto. Qed.

Lemma grow_S (n : nat) (s : system) : grow (S n) s = grow n (grow_step s).
Proof. unfold grow. now rewrite Nat.iter_succ_r. Qed.

Lemma grow_step_length (s : system) :
  length (pond (grow_step s))
  = match deleted_threads s with [] => S (length (pond s)) | _ => length (pond s) end.
Proof.
  unfold grow_step. destruct (deleted_threads s); simpl.
  - rewrite length_app. simpl. lia.
  - apply length_insert.
Qed.

Lemma returns_loop (me : tid) (n : nat) (rest : code) (s s' : system) (tr : list system) :
  shared_locker s = None -> recyclable s ->
  returns me rest (grow n s) tr s' ->
  exists tr1, returns me (concat (replicate n grow_once) ++ rest) s (tr1 ++ tr) s'
              /\ Forall (fun x => length (pond s) <= length (pond x))%nat tr1.
Proof.
  revert s. induction n as [|n IH]; intros s Hfree Hrec Hret.
  - exists []. split; [exact Hret|constructor].
  - rewrite grow_S in Hret.
    destruct (IH (grow_step s)) as (tr2 & Hr2 & Hf2); [now rewrite grow_step_locker|
      now apply grow_step_recyclable|exact Hret|].
    destruct (returns_grow_once me _ s s' (tr2 ++ tr) Hfree Hrec Hr2) as (tr1 & Hr1 & Hf1).
    exists (tr1 ++ tr2). split.
    + simpl. rewrite <- !app_assoc. exact Hr1.
    + apply Forall_app. split; [exact Hf1|].
      eapply Forall_impl; [|exact Hf2]. intros x Hx. simpl in Hx.
      rewrite grow_step_length in Hx. destruct (deleted_threads s); lia.
Qed.

Lemma grow_deleted (n : nat) (s : system) :
  deleted_threads (grow n s) = drop n (deleted_threads s).
Proof.
  revert s. induction n as [|n IH]; intros s; [reflexivity|].
  rewrite grow_S, IH. unfold grow_step. destruct (deleted_threads s) as [|idx d] eqn:E; simpl.
  - rewrite E. now rewrite drop_nil.
  - reflexivity.
Qed.

Lemma grow_length (n : nat) (s : system) :
  length (pond (grow n s)) = (length (pond s) + (n - length (deleted_threads s)))%nat.
Proof.
  revert s. induction n as [|n IH]; intros s; [simpl; lia|].
  rewrite grow_S, IH, grow_step_length. unfold grow_step.
  destruct (deleted_threads s) as [|idx d] eqn:E; simpl; rewrite ?E; simpl; lia.
Qed.

Lemma grow_step_thread_numb (s : system) :
  thread_numb (grow_step s) = wrap (thread_numb s + 1).
Proof. unfold grow_step. now destruct (deleted_threads s). Qed.

Lemma grow_thread_numb (n : nat) (s : system) :
  in_int (thread_numb s) -> in_int (thread_numb s + Z.of_nat n) ->
  thread_numb (grow n s) = thread_numb s + Z.of_nat n.
Proof.
  revert s. induction n as [|n IH]; intros s H1 H2; [simpl; lia|].
  assert (Hw : wrap (thread_numb s + 1) = thread_numb s + 1).
  { apply wrap_in_int. unfold in_int, INT_MIN, INT_MAX in *. lia. }
  rewrite grow_S, IH; rewrite grow_step_thread_numb, Hw; try lia.
  - unfold in_int, INT_MIN, INT_MAX in *. lia.
  - unfold in_int, INT_MIN, INT_MAX in *. lia.
Qed.

Lemma returns_addThreads (me : tid) (tnumb : Z) (rest : code) (s s' : system) (tr : list system) :
  0 <= tnumb -> shared_locker s = None -> recyclable s ->
  returns me rest (grow (Z.to_nat tnumb) s) tr s' ->
  exists tr1, returns me (addThreads tnumb ++ rest) s (tr1 ++ tr) s'
              /\ Forall (fun x => length (pond s) <= length (pond x))%nat tr1.
Proof.
  intros Hn Hfree Hrec Hret.
  destruct (returns_loop me _ rest s s' tr Hfree Hrec Hret) as (tr1 & Hr & Hf).
  exists (s :: tr1). split.
  - unfold addThreads. simpl. eapply returns_step; [|exact Hr].
    simpl. apply Z.leb_le in Hn. now rewrite Hn.
  - constructor; [lia|exact Hf].
Qed.

(** ** Every slot is accounted for *)

Lemma cong32_refl (a : Z) : cong32 a a.
Proof. exists 0. lia. Qed.

Lemma cong32_shift (a b a' b' : Z) :
  cong32 a b -> (exists k, a' - b' = a - b + k * 2 ^ 32) -> cong32 a' b'.
Proof. intros [k1 H1] [k2 H2]. exists (k1 + k2). lia. Qed.

Lemma adj_app (c1 c2 : code) : adj (c1 ++ c2) = adj c1 + adj c2.
Proof. apply sumZ_app. Qed.

Lemma adj_grow (n : nat) : adj (concat (replicate n grow_once)) = 0.
Proof. induction n as [|n IH]; [reflexivity|]. simpl. exact IH. Qed.

Lemma adj_joins (n m : nat) : adj (map (fun i => IJoin (Z.of_nat i)) (seq n m)) = 0.
Proof.
  revert n. induction m as [|m IH]; intros n; [reflexivity|].
  simpl. unfold adj in *. simpl. now rewrite IH.
Qed.

Lemma adj_wake (c : code) : adj (wake_code c) = adj c.
Proof. destruct c as [|[] c]; reflexivity. Qed.

Lemma adj_program (r : request) : adj (program r) = 0.
Proof.
  destruct r; cbn [program]; try reflexivity.
  - unfold addThreads. change (adj (IAssert (0 <=? tnumb) :: ?c)) with (0 + adj c).
    unfold adj. simpl. apply adj_grow.
  - unfold adj. simpl. lia.
  - unfold submitInBatch. unfold adj. simpl. rewrite sumZ_app. simpl.
    rewrite sumZ_zero; [reflexivity|].
    apply List.Forall_forall. intros i Hi. apply in_map_iff in Hi as (j & <- & _). reflexivity.
Qed.

Lemma exec_instr_accounted me pick i rest s c' s' :
  exec_instr me pick i rest s = Ok (c', s') ->
  exists k,
    thread_numb s' + shrink_numb s' + Z.of_nat (length (deleted_threads s')) + adj c'
    - Z.of_nat (length (pond s'))
    = thread_numb s + shrink_numb s + Z.of_nat (length (deleted_threads s)) + adj (i :: rest)
      - Z.of_nat (length (pond s)) + k * 2 ^ 32.
Proof.
  intros H. change (adj (i :: rest)) with (adj_instr i + adj rest).
  destruct i; exec_inv H; rewrite ?adj_app, ?length_insert, ?length_map;
    try (exists 0; simpl; lia).
  - exists 0. destruct (notify_one_frame awake_cv pick s) as (_ & -> & _ & _ & _ & _ & -> & -> & _).
    destruct (notify_one_awake_pond pick s) as [->|(j & h & _ & ->)];
      rewrite ?length_insert; simpl; lia.
  - destruct (wrap_eq (shrink_numb s + n)) as [k ->]. exists k. simpl. lia.
  - destruct (wrap_eq (thread_numb s + n)) as [k ->]. exists k. simpl. lia.
  - exists 0. match goal with H : deleted_threads _ = [] |- _ => rewrite H end. simpl. lia.
  - exists 0. rewrite length_app. simpl. lia.
  - exists 0. rewrite adj_joins. simpl. lia.
  - exists 0. rewrite adj_grow. simpl. lia.
Qed.

Lemma worker_accounted pick i s s' :
  worker pick i s = Ok s' ->
  exists k,
    thread_numb s' + shrink_numb s' + Z.of_nat (length (deleted_threads s'))
    = thread_numb s + shrink_numb s + Z.of_nat (length (deleted_threads s)) + k * 2 ^ 32.
Proof.
  intros H. worker_inv H; try (exists 0; lia).
  - destruct (wrap_eq (shrink_numb s - 1)) as [k ->]. exists k.
    rewrite length_app. simpl. lia.
  - exists 0.
    destruct (notify_one_frame task_done_cv pick s) as (_ & -> & _ & _ & _ & _ & -> & -> & _).
    lia.
Qed.

Lemma worker_adj pick i s s' :
  worker pick i s = Ok s' -> sumZ adj (callers s') = sumZ adj (callers s).
Proof.
  intros H. destruct (worker_callers _ _ _ _ H) as [->|(k0 & c0 & Hk0 & ->)]; [reflexivity|].
  rewrite (sumZ_insert _ _ _ _ _ Hk0), adj_wake. lia.
Qed.

Lemma accounted_step (l : label) (s s' : system) :
  cong32 (accounted s) (Z.of_nat (length (pond s))) -> step l s = Ok s' ->
  cong32 (accounted s') (Z.of_nat (length (pond s'))).
Proof.
  intros Hc H. eapply cong32_shift; [exact Hc|]. unfold accounted.
  destruct l as [r|k pick|i pick|i|k]; simpl in H.
  - injection H as <-. simpl. exists 0. rewrite sumZ_app. simpl.
    rewrite adj_program. lia.
  - unfold caller_step in H.
    destruct (callers s !! k) as [[|i rest]|] eqn:Ek; try discriminate.
    destruct (exec_instr (Caller k) pick i rest s) as [[c' s1]| |] eqn:Ex; try discriminate.
    injection H as <-. simpl.
    rewrite (exec_instr_callers _ _ _ _ _ _ _ Ex), (sumZ_insert _ _ _ _ _ Ek).
    destruct (exec_instr_accounted _ _ _ _ _ _ _ Ex) as [k0 Hk0]. exists k0. lia.
  - destruct (worker_accounted _ _ _ _ H) as [k0 Hk0]. exists k0.
    rewrite (worker_adj _ _ _ _ H).
    destruct (worker_pond _ _ _ _ H) as (idx & w & w' & _ & ->). rewrite length_insert. lia.
  - injection H as <-. exists 0. unfold wake_worker.
    destruct (pond s !! i); simpl; rewrite ?length_insert; lia.
  - injection H as <-. exists 0. unfold wake_caller.
    destruct (callers s !! k) as [c|] eqn:E; simpl; [|lia].
    rewrite (sumZ_insert _ _ _ _ _ E), adj_wake. lia.
Qed.

Lemma reachable_accounted (s : system) :
  reachable s -> cong32 (accounted s) (Z.of_nat (length (pond s))).
Proof.
  induction 1 as [tnumb s _ H|l s s' _ IH H].
  - unfold construct in H. destruct (tnumb <? 0) eqn:E; [discriminate|]. injection H as <-.
    unfold accounted. simpl. rewrite length_map, length_seq. exists 0.
    apply Z.ltb_ge in E. lia.
  - eapply accounted_step; eassumption.
Qed.

(** In a reachable state with no resize call in progress the number of
    slots is [thread_numb + shrink_numb + deleted_threads.size()]. *)
Lemma pond_size (s : system) :
  reachable s -> sumZ adj (callers s) = 0 ->
  in_int (thread_numb s + shrink_numb s + Z.of_nat (length (deleted_threads s))) ->
  Z.of_nat (length (pond s)) <= INT_MAX ->
  Z.of_nat (length (pond s))
  = thread_numb s + shrink_numb s + Z.of_nat (length (deleted_threads s)).
Proof.
  intros Hr Ha Hi Hp. destruct (reachable_accounted s Hr) as [k Hk].
  unfold accounted in Hk. rewrite Ha in Hk.
  unfold in_int, INT_MIN, INT_MAX in *. lia.
Qed.

Lemma step_length (l : label) (s s' : system) :
  step l s = Ok s' -> (length (pond s) <= length (pond s'))%nat.
Proof.
  intros H. destruct l as [r|k pick|i pick|i|k]; simpl in H.
  - now injection H as <-.
  - unfold caller_step in H.
    destruct (callers s !! k) as [[|i rest]|]; try discriminate.
    destruct (exec_instr (Caller k) pick i rest s) as [[c' s1]| |] eqn:Ex; try discriminate.
    injection H as <-. simpl. eapply exec_instr_length; eassumption.
  - destruct (worker_pond _ _ _ _ H) as (idx & w & w' & _ & ->). now rewrite length_insert.
  - injection H as <-. destruct (wake_worker_pond i s) as [->|(h & _ & ->)];
      rewrite ?length_insert; lia.
  - injection H as <-. now rewrite wake_caller_pond.
Qed.

Lemma exec_length (ls : list label) (s s' : system) :
  exec ls s = Ok s' -> (length (pond s) <= length (pond s'))%nat.
Proof.
  revert s. induction ls as [|l ls IH]; intros s H; simpl in H.
  - injection H as <-. lia.
  - destruct (step l s) as [s1| |] eqn:E; try discriminate.
    pose proof (step_length _ _ _ E). specialize (IH _ H). lia.
Qed.

(** C6, as the code has it.  [addThreads(n)], run with the lock free,
    returns after [n] turns of its loop.  A turn that finds
    [deleted_threads] non-empty pops its front index, joins the thread of
    that slot and binds a new worker with the same index to the slot; a
    turn that finds it empty appends one slot; each turn adds one to
    [thread_numb].  The pond never gets shorter on the way, and it ends
    longer by the number of turns that found the queue empty.  No step of
    any thread ever shortens the pond, and whenever no resize call is in
    progress its length is [thread_numb + shrink_numb +
    deleted_threads.size()] (within the range of [int]). *)
Theorem addThreads_spec (me : tid) (tnumb : Z) (s : system) :
  0 <= tnumb -> shared_locker s = None -> recyclable s ->
  exists tr,
    returns me (addThreads tnumb) s tr (grow (Z.to_nat tnumb) s)
    /\ Forall (fun x => length (pond s) <= length (pond x))%nat tr
    /\ (forall x pick rest,
          match deleted_threads x with
          | idx :: d =>
              exec_instr me pick IRecycleOrNew rest x
              = Ok ([IUnlock; IJoin idx; IRebind idx; IAddThreadNumb 1] ++ rest,
                    set_deleted_threads d x)
              /\ deleted_threads (grow_step x) = d
              /\ pond (grow_step x) = <[Z.to_nat idx := Thread idx WLoopHead]> (pond x)
              /\ length (pond (grow_step x)) = length (pond x)
          | [] =>
              exec_instr me pick IRecycleOrNew rest x
              = Ok ([IUnlock; IEmplace; IAddThreadNumb 1] ++ rest, x)
              /\ deleted_threads (grow_step x) = []
              /\ pond (grow_step x)
                 = pond x ++ [Thread (wrap (Z.of_nat (length (pond x)))) WLoopHead]
              /\ length (pond (grow_step x)) = S (length (pond x))
          end
          /\ thread_numb (grow_step x) = wrap (thread_numb x + 1))
    /\ deleted_threads (grow (Z.to_nat tnumb) s) = drop (Z.to_nat tnumb) (deleted_threads s)
    /\ length (pond (grow (Z.to_nat tnumb) s))
       = (length (pond s) + (Z.to_nat tnumb - length (deleted_threads s)))%nat
    /\ (in_int (thread_numb s) -> in_int (thread_numb s + tnumb) ->
        thread_numb (grow (Z.to_nat tnumb) s) = thread_numb s + tnumb)
    /\ (forall ls x x', exec ls x = Ok x' -> (length (pond x) <= length (pond x'))%nat)
    /\ (forall x,
          reachable x -> sumZ adj (callers x) = 0 ->
          in_int (thread_numb x + shrink_numb x + Z.of_nat (length (deleted_threads x))) ->
          Z.of_nat (length (pond x)) <= INT_MAX ->
          Z.of_nat (length (pond x))
          = thread_numb x + shrink_numb x + Z.of_nat (length (deleted_threads x))).
Proof.
  intros Hn Hfree Hrec.
  destruct (returns_addThreads me tnumb [] s _ [] Hn Hfree Hrec (returns_nil _ _))
    as (tr & Hr & Hf).
  rewrite !app_nil_r in Hr. exists tr.
  split; [exact Hr|]. split; [exact Hf|]. split; [|split; [|split; [|split; [|split]]]].
  - intros x pick rest. split; [|apply grow_step_thread_numb].
    pose proof (grow_step_length x) as Hl. unfold grow_step in *. simpl.
    destruct (deleted_threads x) as [|idx d] eqn:E; simpl in *; rewrite ?E; repeat split;
      assumption.
  - apply grow_deleted.
  - apply grow_length.
  - intros H1 H2. rewrite grow_thread_numb; rewrite ?Z2Nat.id; try assumption; lia.
  - intros ls x x'. apply exec_length.
  - apply pond_size.
Qed.

Lemma addThreads_spec_witness :
  exists tr,
    returns (Caller 0) (addThreads 2)
      (mkSystem false 1 false 0 [] None [Thread 0 WBlocked; Thread 1 WExited] 0 [1] 0 [] []) tr
      (mkSystem false 3 false 0 [] None
         [Thread 0 WBlocked; Thread 1 WLoopHead; Thread 2 WLoopHead] 0 [] 0 [] []).
Proof.
  destruct (addThreads_spec (Caller 0) 2
      (mkSystem false 1 false 0 [] None [Thread 0 WBlocked; Thread 1 WExited] 0 [1] 0 [] []))
    as (tr & Hr & _).
  - lia.
  - reflexivity.
  - simpl. repeat split; try lia; [eexists; reflexivity|intros []].
  - exists tr. exact Hr.
Defined.

(** The bound of C6 as stated fails: after [delThreads(1)] on a pond of
    two workers, [addThreads(1)] called before any worker has recycled
    itself appends a third slot although [thread_numb] was never above 2. *)
Lemma pond_exceeds_peak :
  exists s,
    exec [LCall (RDelThreads 1); LCaller 0 0; LCaller 0 0; LCaller 0 0; LCaller 0 0;
          LCall (RAddThreads 1); LCaller 1 0; LCaller 1 0; LCaller 1 0; LCaller 1 0;
          LCaller 1 0; LCaller 1 0]
      (mkSystem false 2 false 0 [] None [Thread 0 WLoopHead; Thread 1 WLoopHead] 0 [] 0 [] [])
    = Ok s
    /\ construct 2
       = Ok (mkSystem false 2 false 0 [] None [Thread 0 WLoopHead; Thread 1 WLoopHead] 0 [] 0 [] [])
    /\ callers s = [[]; []]
    /\ peak_thread_numb
         (visited [LCall (RDelThreads 1); LCaller 0 0; LCaller 0 0; LCaller 0 0; LCaller 0 0;
                   LCall (RAddThreads 1); LCaller 1 0; LCaller 1 0; LCaller 1 0; LCaller 1 0;
                   LCaller 1 0; LCaller 1 0]
            (mkSystem false 2 false 0 [] None [Thread 0 WLoopHead; Thread 1 WLoopHead]
               0 [] 0 [] [])) = 2
    /\ length (pond s) = 3%nat
    /\ ~ (Z.of_nat (length (pond s))
          <= peak_thread_numb
               (visited [LCall (RDelThreads 1); LCaller 0 0; LCaller 0 0; LCaller 0 0;
                         LCaller 0 0; LCall (RAddThreads 1); LCaller 1 0; LCaller 1 0;
                         LCaller 1 0; LCaller 1 0; LCaller 1 0; LCaller 1 0]
                  (mkSystem false 2 false 0 [] None [Thread 0 WLoopHead; Thread 1 WLoopHead]
                     0 [] 0 [] []))).
Proof.
  eexists. split; [vm_compute; reflexivity|].
  split; [reflexivity|]. split; [reflexivity|]. split; [vm_compute; reflexivity|].
  split; [reflexivity|]. vm_compute. intros H. apply H. reflexivity.
Qed.

(** ** [adjustThreads] *)

(** C9. [adjustThreads(target)] for [target >= 0]: when [target] is above
    [thread_numb] the call continues as [addThreads(target - thread_numb)],
    when it is below as [delThreads(thread_numb - target)], and when they
    are equal it does nothing; in each case the call returns with
    [thread_numb] equal to [target]. *)
Theorem adjustThreads_spec (me : tid) (target_tnumb : Z) (s : system) :
  0 <= target_tnumb <= INT_MAX ->
  0 <= thread_numb s <= INT_MAX ->
  (thread_numb s < target_tnumb ->
   shared_locker s = None -> recyclable s ->
   exec_instr me 0 (IAdjust target_tnumb) [] s
   = Ok (addThreads (target_tnumb - thread_numb s) ++ [], s)
   /\ exists tr s',
       returns me (adjustThreads target_tnumb) s tr s'
       /\ s' = grow (Z.to_nat (target_tnumb - thread_numb s)) s
       /\ thread_numb s' = target_tnumb)
  /\ (target_tnumb < thread_numb s ->
      exec_instr me 0 (IAdjust target_tnumb) [] s
      = Ok (delThreads (thread_numb s - target_tnumb) ++ [], s)
      /\ exists tr s',
          returns me (adjustThreads target_tnumb) s tr s'
          /\ thread_numb s' = target_tnumb
          /\ shrink_numb s' = wrap (shrink_numb s + (thread_numb s - target_tnumb))
          /\ pond s' = map wake_handle (pond s))
  /\ (target_tnumb = thread_numb s ->
      returns me (adjustThreads target_tnumb) s [s; s] s
      /\ thread_numb s = target_tnumb).
Proof.
  intros Ht Hn. unfold INT_MAX in *.
  assert (Hassert : (0 <=? target_tnumb) = true) by (apply Z.leb_le; lia).
  split; [|split].
  - intros Hlt Hfree Hrec.
    assert (Hw : wrap (target_tnumb - thread_numb s) = target_tnumb - thread_numb s).
    { apply wrap_in_int. unfold in_int, INT_MIN, INT_MAX. lia. }
    assert (Hx : exec_instr me 0 (IAdjust target_tnumb) [] s
                 = Ok (addThreads (target_tnumb - thread_numb s) ++ [], s)).
    { simpl. apply Z.ltb_lt in Hlt. now rewrite Hlt, Hw. }
    split; [exact Hx|].
    destruct (returns_addThreads me (target_tnumb - thread_numb s) [] s _ []
                ltac:(lia) Hfree Hrec (returns_nil _ _)) as (tr & Hr & _).
    eexists _, _. split.
    + unfold adjustThreads. eapply returns_step; [simpl; rewrite Hassert; reflexivity|].
      eapply returns_step; [exact Hx|exact Hr].
    + split; [reflexivity|].
      rewrite grow_thread_numb; rewrite ?Z2Nat.id; unfold in_int, INT_MIN, INT_MAX; lia.
  - intros Hlt.
    assert (Hw : wrap (thread_numb s - target_tnumb) = thread_numb s - target_tnumb).
    { apply wrap_in_int. unfold in_int, INT_MIN, INT_MAX. lia. }
    assert (Hx : exec_instr me 0 (IAdjust target_tnumb) [] s
                 = Ok (delThreads (thread_numb s - target_tnumb) ++ [], s)).
    { simpl. assert (E : (thread_numb s <? target_tnumb) = false) by (apply Z.ltb_ge; lia).
      apply Z.ltb_lt in Hlt. now rewrite E, Hlt, Hw. }
    split; [exact Hx|].
    assert (Hdel : (thread_numb s - target_tnumb <=? thread_numb s)
                   && (0 <=? thread_numb s - target_tnumb) = true).
    { apply andb_true_intro; split; apply Z.leb_le; lia. }
    eexists _, _. split.
    + unfold adjustThreads. eapply returns_step; [simpl; rewrite Hassert; reflexivity|].
      eapply returns_step; [exact Hx|].
      eapply returns_step; [simpl; rewrite Hdel; reflexivity|].
      eapply returns_step; [reflexivity|].
      eapply returns_step; [reflexivity|].
      eapply returns_step; [reflexivity|].
      apply returns_nil.
    + simpl. split; [|split; reflexivity].
      rewrite wrap_in_int; [lia|]. unfold in_int, INT_MIN, INT_MAX. lia.
  - intros ->. split; [|reflexivity].
    unfold adjustThreads. eapply returns_step; [simpl; rewrite Hassert; reflexivity|].
    eapply returns_step; [|apply returns_nil].
    simpl. now rewrite Z.ltb_irrefl.
Qed.

Lemma adjustThreads_spec_witness :
  (exists tr s',
     returns (Caller 0) (adjustThreads 3)
       (mkSystem false 1 false 0 [] None [Thread 0 WBlocked; Thread 1 WExited] 0 [1] 0 [] [])
       tr s'
     /\ thread_numb s' = 3
     /\ pond s' = [Thread 0 WBlocked; Thread 1 WLoopHead; Thread 2 WLoopHead])
  /\ (exists tr s',
        returns (Caller 0) (adjustThreads 0)
          (mkSystem false 1 false 0 [] None [Thread 0 WBlocked] 0 [] 0 [] []) tr s'
        /\ thread_numb s' = 0 /\ shrink_numb s' = 1 /\ pond s' = [Thread 0 WWantLock])
  /\ returns (Caller 0) (adjustThreads 1)
       (mkSystem false 1 false 0 [] None [Thread 0 WBlocked] 0 [] 0 [] [])
       [mkSystem false 1 false 0 [] None [Thread 0 WBlocked] 0 [] 0 [] [];
        mkSystem false 1 false 0 [] None [Thread 0 WBlocked] 0 [] 0 [] []]
       (mkSystem false 1 false 0 [] None [Thread 0 WBlocked] 0 [] 0 [] []).
Proof.
  split; [|split].
  - destruct (adjustThreads_spec (Caller 0) 3
        (mkSystem false 1 false 0 [] None [Thread 0 WBlocked; Thread 1 WExited] 0 [1] 0 [] []))
      as [H _]; [unfold INT_MAX; lia|unfold INT_MAX; simpl; lia|].
    destruct H as (_ & tr & s' & Hr & Hs & Ht).
    + simpl; lia.
    + reflexivity.
    + simpl. repeat split; try lia; [eexists; reflexivity|intros []].
    + exists tr, s'. split; [exact Hr|]. split; [exact Ht|]. now rewrite Hs.
  - destruct (adjustThreads_spec (Caller 0) 0
        (mkSystem false 1 false 0 [] None [Thread 0 WBlocked] 0 [] 0 [] []))
      as (_ & H & _); [unfold INT_MAX; lia|unfold INT_MAX; simpl; lia|].
    destruct H as (_ & tr & s' & Hr & Ht & Hs & Hp); [simpl; lia|].
    exists tr, s'. split; [exact Hr|]. split; [exact Ht|]. split; [exact Hs|exact Hp].
  - destruct (adjustThreads_spec (Caller 0) 1
        (mkSystem false 1 false 0 [] None [Thread 0 WBlocked] 0 [] 0 [] []))
      as (_ & _ & H); [unfold INT_MAX; lia|unfold INT_MAX; simpl; lia|].
    apply H. reflexivity.
Defined.

(** ** [close] *)

Lemma steady_joins (n m : nat) : steady (map (fun i => IJoin (Z.of_nat i)) (seq n m)).
Proof.
  revert n. induction m as [|m IH]; intros n; simpl; constructor; [reflexivity|apply IH].
Qed.

Lemma exec_instr_steady me pick i rest s c' s' :
  steady (i :: rest) -> exec_instr me pick i rest s = Ok (c', s') ->
  steady c' /\ thread_numb s' = thread_numb s.
Proof.
  intros Hs H. inversion Hs as [|? ? Hi Hrest]; subst.
  destruct i; try discriminate Hi; exec_inv H; try (split; [assumption|reflexivity]).
  - split; [assumption|]. apply (notify_one_frame awake_cv pick s).
  - split; [|reflexivity]. apply Forall_app. split; [apply steady_joins|assumption].
  - split; [|reflexivity]. repeat (constructor; [reflexivity|]). assumption.
  - split; [|reflexivity]. repeat (constructor; [reflexivity|]). assumption.
  - split; [|reflexivity]. repeat (constructor; [reflexivity|]). assumption.
  - split; [|reflexivity]. repeat (constructor; [reflexivity|]). assumption.
Qed.

Lemma steady_wake (c : code) : steady c -> steady (wake_code c).
Proof.
  intros H. destruct c as [|i c]; [exact H|]. destruct i; try exact H.
  inversion H; subst. constructor; [reflexivity|assumption].
Qed.

Lemma steady_program (r : request) : resize_call (LCall r) = false -> steady (program r).
Proof.
  destruct r; simpl; intros H; try discriminate; try (repeat constructor).
  unfold submitInBatch. repeat (constructor; [reflexivity|]).
  apply Forall_app. split; [|repeat constructor].
  apply List.Forall_forall. intros i Hi. apply in_map_iff in Hi as (j & <- & _). reflexivity.
Qed.

Lemma steady_step (l : label) (s s' : system) :
  Forall steady (callers s) -> resize_call l = false -> step l s = Ok s' ->
  Forall steady (callers s') /\ thread_numb s' = thread_numb s.
Proof.
  intros Hs Hl H. destruct l as [r|k pick|i pick|i|k]; simpl in H.
  - injection H as <-. simpl. split; [|reflexivity].
    apply Forall_app. split; [assumption|]. constructor; [|constructor].
    now apply steady_program.
  - unfold caller_step in H.
    destruct (callers s !! k) as [[|i rest]|] eqn:Ek; try discriminate.
    destruct (exec_instr (Caller k) pick i rest s) as [[c' s1]| |] eqn:Ex; try discriminate.
    injection H as <-. simpl.
    assert (Hk : steady (i :: rest)).
    { rewrite List.Forall_forall in Hs. apply Hs.
      apply list_elem_of_In. eapply list_elem_of_lookup_2. eassumption. }
    destruct (exec_instr_steady _ _ _ _ _ _ _ Hk Ex) as [Hc' Ht].
    split; [|exact Ht].
    rewrite (exec_instr_callers _ _ _ _ _ _ _ Ex).
    apply Forall_insert; assumption.
  - split.
    + destruct (worker_callers _ _ _ _ H) as [->|(k & c & Hk & ->)]; [assumption|].
      apply Forall_insert; [assumption|]. apply steady_wake.
      rewrite List.Forall_forall in Hs. apply Hs.
      apply list_elem_of_In. eapply list_elem_of_lookup_2. eassumption.
    + worker_inv H; try reflexivity. apply (notify_one_frame task_done_cv pick s).
  - injection H as <-. unfold wake_worker. destruct (pond s !! i); split; assumption || reflexivity.
  - injection H as <-. unfold wake_caller. destruct (callers s !! k) as [c|] eqn:E;
      (split; [|reflexivity]); [|assumption].
    simpl. apply Forall_insert; [assumption|]. apply steady_wake.
    rewrite List.Forall_forall in Hs. apply Hs.
    apply list_elem_of_In. eapply list_elem_of_lookup_2. eassumption.
Qed.

(** C2, as the code has it.  [close] does not write [thread_numb]: along
    any interleaving in which no thread calls or is inside [addThreads],
    [delThreads] or [adjustThreads], and in particular across one or more
    calls of [close], [getThreadNumb] returns what it returned before. *)
Theorem close_keeps_thread_numb (ls : list label) (s s' : system) :
  Forall steady (callers s) ->
  Forall (fun l => resize_call l = false) ls ->
  exec ls s = Ok s' ->
  getThreadNumb s' = getThreadNumb s.
Proof.
  revert s. induction ls as [|l ls IH]; intros s Hs Hl H; simpl in H.
  - now injection H as <-.
  - destruct (step l s) as [s1| |] eqn:E; try discriminate.
    inversion Hl as [|? ? Hl1 Hl2]; subst.
    destruct (steady_step _ _ _ Hs Hl1 E) as [Hs1 Ht].
    unfold getThreadNumb in *. rewrite (IH s1 Hs1 Hl2 H). exact Ht.
Qed.

Lemma close_keeps_thread_numb_witness :
  exists s',
    exec [LCall RClose; LCaller 0 0; LCaller 0 0; LCaller 0 0; LCaller 0 0; LCaller 0 0;
          LWorker 0 0; LWorker 1 0; LCaller 0 0; LCaller 0 0]
      (mkSystem false 2 false 0 [] None [Thread 0 WLoopHead; Thread 1 WLoopHead] 0 [] 0 [] [])
    = Ok s'
    /\ callers s' = [[]]
    /\ pond s' = [NotJoinable; NotJoinable]
    /\ getThreadNumb s' = 2.
Proof.
  eexists. split; [vm_compute; reflexivity|]. split; [reflexivity|]. split; [reflexivity|].
  apply (close_keeps_thread_numb
           [LCall RClose; LCaller 0 0; LCaller 0 0; LCaller 0 0; LCaller 0 0; LCaller 0 0;
            LWorker 0 0; LWorker 1 0; LCaller 0 0; LCaller 0 0]
           (mkSystem false 2 false 0 [] None [Thread 0 WLoopHead; Thread 1 WLoopHead]
              0 [] 0 [] [])).
  - constructor.
  - repeat constructor.
  - vm_compute. reflexivity.
Defined.

(** The claim C2 as stated fails: a pond constructed with two workers and
    closed (the call has returned, both threads are joined) still reports
    a thread number of 2. *)
Lemma thread_numb_after_close :
  exists s',
    construct 2
    = Ok (mkSystem false 2 false 0 [] None [Thread 0 WLoopHead; Thread 1 WLoopHead] 0 [] 0 [] [])
    /\ exec [LCall RClose; LCaller 0 0; LCaller 0 0; LCaller 0 0; LCaller 0 0; LCaller 0 0;
             LWorker 0 0; LWorker 1 0; LCaller 0 0; LCaller 0 0]
         (mkSystem false 2 false 0 [] None [Thread 0 WLoopHead; Thread 1 WLoopHead] 0 [] 0 [] [])
       = Ok s'
    /\ callers s' = [[]]
    /\ stop s' = true
    /\ pond s' = [NotJoinable; NotJoinable]
    /\ getThreadNumb s' = 2
    /\ getThreadNumb s' <> 0.
Proof.
  eexists. split; [reflexivity|]. split; [vm_compute; reflexivity|].
  repeat split; discriminate.
Qed.

(** C1.  A second [close()] on a pond with at least one slot, all of whose
    threads the first [close()] has joined, sets [stop], notifies, and
    then calls [join] on a thread that is not joinable: the call ends in
    [std::system_error] instead of returning.  The destructor does test
    [stop] first and does nothing on a closed pond. *)
Theorem close_twice_faults :
  exists s1 s2,
    construct 1 = Ok (mkSystem false 1 false 0 [] None [Thread 0 WLoopHead] 0 [] 0 [] [])
    /\ exec [LCall RClose; LCaller 0 0; LCaller 0 0; LCaller 0 0; LCaller 0 0; LCaller 0 0;
             LWorker 0 0; LCaller 0 0]
         (mkSystem false 1 false 0 [] None [Thread 0 WLoopHead] 0 [] 0 [] []) = Ok s1
    /\ callers s1 = [[]]
    /\ pond s1 = [NotJoinable]
    /\ exec [LCall RClose; LCaller 1 0; LCaller 1 0; LCaller 1 0; LCaller 1 0; LCaller 1 0] s1
       = Ok s2
    /\ callers s2 = [[]; [IJoin 0]]
    /\ step (LCaller 1 0) s2 = Fault SystemError
    /\ run 6 (Caller 1) close s1
       = (Faulted SystemError,
          [set_shared_locker (Some (Caller 1)) s1; set_shared_locker (Some (Caller 1)) s1;
           set_shared_locker (Some (Caller 1)) s1; s1; s1],
          ([IJoin 0], s1))
    /\ run 1 (Caller 1) destroy s1 = (Finished, [s1], ([], s1)).
Proof.
  eexists. eexists. split; [reflexivity|]. split; [vm_compute; reflexivity|].
  split; [reflexivity|]. split; [reflexivity|]. split; [vm_compute; reflexivity|].
  repeat split.
Qed.

(** The same for any closed pond: if the first slot has been joined, a
    further [close()] run with the lock free faults at its first [join]. *)
Lemma close_again_faults (me : tid) (s : system) (p : list handle) :
  shared_locker s = None -> pond s = NotJoinable :: p ->
  exists tr fin, run 6 me close s = (Faulted SystemError, tr, fin).
Proof.
  intros Hfree Hp. destruct s; simpl in *; subst.
  unfold close. cbn. rewrite tid_eqb_refl. cbn. eexists _, _. reflexivity.
Qed.

(** * Further properties of the pond *)

(** ** Lock discipline *)

Lemma scoped_grow (n : nat) (r : code) :
  scoped r -> owns r = false ->
  scoped (concat (replicate n grow_once) ++ r)
  /\ owns (concat (replicate n grow_once) ++ r) = false.
Proof.
  intros Hs Ho. induction n as [|n [IH1 IH2]]; simpl; [now split|].
  repeat split; assumption.
Qed.

Lemma scoped_addThreads (d : Z) (r : code) :
  scoped r -> owns r = false ->
  scoped (addThreads d ++ r) /\ owns (addThreads d ++ r) = false.
Proof.
  intros Hs Ho. destruct (scoped_grow (Z.to_nat d) r Hs Ho) as [H1 H2].
  unfold addThreads. simpl. repeat split; assumption.
Qed.

Lemma scoped_joins (l : list nat) (r : code) :
  scoped r -> owns r = false ->
  scoped (map (fun i => IJoin (Z.of_nat i)) l ++ r)
  /\ owns (map (fun i => IJoin (Z.of_nat i)) l ++ r) = false.
Proof.
  intros Hs Ho. induction l as [|j l [IH1 IH2]]; simpl; [now split|].
  repeat split; assumption.
Qed.

Lemma scoped_close (r : code) :
  scoped r -> owns r = false -> scoped (close ++ r) /\ owns (close ++ r) = false.
Proof. intros Hs Ho. simpl. repeat split; assumption. Qed.

Lemma scoped_pushes (ts : list (option HipeTask)) (r : code) :
  scoped r -> owns r = true ->
  scoped (map IPush ts ++ r) /\ owns (map IPush ts ++ r) = true.
Proof.
  intros Hs Ho. induction ts as [|t ts [IH1 IH2]]; simpl; [now split|].
  repeat split; assumption.
Qed.

Lemma scoped_program (r : request) : scoped (program r) /\ owns (program r) = false.
Proof.
  destruct r; cbn [program].
  - apply (scoped_close []); [exact I|reflexivity].
  - rewrite <- (app_nil_r (addThreads tnumb)). apply scoped_addThreads; [exact I|reflexivity].
  - simpl. tauto.
  - simpl. tauto.
  - simpl. tauto.
  - simpl. tauto.
  - simpl. tauto.
  - unfold submitInBatch. rewrite <- (map_map (fun i => cont !! i) IPush).
    destruct (scoped_pushes (map (fun i => cont !! i) (seq 0 size)) [IUnlock; INotifyAll])
      as [H1 H2]; [simpl; tauto|reflexivity|].
    simpl. repeat split; assumption.
  - simpl. tauto.
Qed.

Lemma scoped_wake (c : code) :
  scoped c -> scoped (wake_code c) /\ owns (wake_code c) = owns c.
Proof. destruct c as [|[] c]; simpl; tauto. Qed.

(** One action of a thread keeps its code in well-formed scopes, and the
    thread is inside a scope afterwards only as the owner of the lock. *)
Lemma exec_instr_scoped me pick i rest s c' s' :
  scoped (i :: rest) ->
  (owns (i :: rest) = true -> shared_locker s = Some me) ->
  exec_instr me pick i rest s = Ok (c', s') ->
  scoped c' /\ (owns c' = true -> shared_locker s' = Some me).
Proof.
  intros Hs Ho H. destruct i; exec_inv H; try tauto; destruct Hs as [Hs Hr].
  - split; [assumption|]. congruence.
  - split; [assumption|].
    rewrite (proj1 (proj2 (proj2 (proj2 (proj2 (proj2 (notify_one_frame awake_cv pick s))))))).
    assumption.
  - split; [assumption|]. congruence.
  - split; [assumption|]. congruence.
  - split; [assumption|]. congruence.
  - destruct (scoped_joins (seq 0 (length (pond s'))) rest Hs Hr) as [H1 H2].
    split; [exact H1|]. congruence.
  - destruct (scoped_grow (Z.to_nat (wrap (target - thread_numb s'))) rest Hs Hr) as [H1 H2].
    split; [tauto|]. congruence.
  - split; [tauto|]. congruence.
  - split; [assumption|]. congruence.
  - split; [tauto|]. discriminate.
  - split; [assumption|]. congruence.
Qed.

Lemma disciplined_step (l : label) (s s' : system) :
  disciplined s -> step l s = Ok s' -> disciplined s'.
Proof.
  intros Hd H. destruct l as [r|k pick|i pick|i|k]; simpl in H.
  - injection H as <-. intros k c Hk. simpl in Hk.
    apply lookup_app_Some in Hk as [Hk|[_ Hk]]; [exact (Hd _ _ Hk)|].
    destruct (k - length (callers s))%nat; simpl in Hk; [|now rewrite lookup_nil in Hk].
    injection Hk as <-. destruct (scoped_program r) as [H1 H2].
    split; [exact H1|]. congruence.
  - unfold caller_step in H.
    destruct (callers s !! k) as [[|i rest]|] eqn:Ek; try discriminate.
    destruct (exec_instr (Caller k) pick i rest s) as [[c' s1]| |] eqn:Ex; try discriminate.
    injection H as <-. destruct (Hd _ _ Ek) as [Hs Ho].
    destruct (exec_instr_scoped _ _ _ _ _ _ _ Hs Ho Ex) as [Hs' Ho'].
    intros k' c Hk'. simpl in *.
    rewrite (exec_instr_callers _ _ _ _ _ _ _ Ex) in Hk'.
    destruct (decide (k = k')) as [<-|Hne].
    + rewrite list_lookup_insert_eq in Hk' by (eapply lookup_lt_Some; eassumption).
      injection Hk' as <-. split; assumption.
    + rewrite list_lookup_insert_ne in Hk' by assumption.
      destruct (Hd _ _ Hk') as [Hs1 Ho1]. split; [exact Hs1|]. intros Hc.
      specialize (Ho1 Hc).
      destruct (exec_instr_locker _ _ _ _ _ _ _ Ex) as [E|[(_ & E & _)|(E & _)]]; congruence.
  - intros k c Hk.
    destruct (worker_caller_lookup _ _ _ _ _ _ H Hk) as (c1 & Hk1 & E).
    destruct (Hd _ _ Hk1) as [Hs1 Ho1]. destruct (scoped_wake c1 Hs1) as [Hs2 Ho2].
    assert (Hsc : scoped c /\ owns c = owns c1).
    { destruct E as [->| ->]; [split; [assumption|reflexivity]|split; assumption]. }
    destruct Hsc as [Hsc Hoc]. split; [exact Hsc|]. rewrite Hoc. intros Hc.
    specialize (Ho1 Hc).
    destruct (worker_locker _ _ _ _ H) as [E'|[(E' & _)|(E' & _)]]; congruence.
  - injection H as <-. unfold wake_worker. destruct (pond s !! i); exact Hd.
  - injection H as <-. unfold wake_caller.
    destruct (callers s !! k) as [c0|] eqn:E; [|exact Hd].
    intros k' c Hk'. simpl in *.
    destruct (lookup_insert_wake _ _ _ _ _ E Hk') as (c1 & Hk1 & E').
    destruct (Hd _ _ Hk1) as [Hs1 Ho1]. destruct (scoped_wake c1 Hs1) as [Hs2 Ho2].
    destruct E' as [->| ->]; [split; assumption|]. split; [exact Hs2|]. now rewrite Ho2.
Qed.

Lemma reachable_disciplined (s : system) : reachable s -> disciplined s.
Proof.
  induction 1 as [tnumb s _ H|l s s' _ IH H].
  - unfold construct in H. destruct (tnumb <? 0); [discriminate|]. injection H as <-.
    intros k c Hk. simpl in Hk. now rewrite lookup_nil in Hk.
  - eapply disciplined_step; eassumption.
Qed.

Lemma exec_instr_protected me pick i rest s c' s' :
  exec_instr me pick i rest s = Ok (c', s') ->
  shared_tq s' <> shared_tq s \/ deleted_threads s' <> deleted_threads s \/ stop s' <> stop s ->
  scoped (i :: rest) -> owns (i :: rest) = true.
Proof.
  intros H Hch Hs. destruct i; exec_inv H;
    try (destruct Hch as [E|[E|E]]; now elim E); try tauto.
  destruct (notify_one_frame awake_cv pick s) as (E1 & _ & _ & _ & E2 & _ & _ & E3 & _).
  destruct Hch as [E|[E|E]]; now elim E.
Qed.

Lemma worker_protected pick i s s' :
  worker pick i s = Ok s' ->
  shared_tq s' <> shared_tq s \/ deleted_threads s' <> deleted_threads s \/ stop s' <> stop s ->
  exists index, pond s !! i = Some (Thread index WAwake).
Proof.
  intros H Hch. worker_inv H;
    try (destruct Hch as [E|[E|E]]; now elim E); try (eexists; reflexivity).
  destruct (notify_one_frame task_done_cv pick s) as (E1 & _ & _ & _ & E2 & _ & _ & E3 & _).
  destruct Hch as [E|[E|E]]; now elim E.
Qed.

(** X1. In every reachable state, a step that changes [shared_tq],
    [deleted_threads] or [stop] is a step of the thread that owns
    [shared_locker]: these three fields are only written inside the lock. *)
Theorem lock_protects (s s' : system) (l : label) :
  reachable s -> step l s = Ok s' ->
  shared_tq s' <> shared_tq s \/ deleted_threads s' <> deleted_threads s \/ stop s' <> stop s ->
  exists t, actor l = Some t /\ shared_locker s = Some t.
Proof.
  intros Hr H Hch. destruct l as [r|k pick|i pick|i|k]; simpl in H.
  - injection H as <-. simpl in Hch. destruct Hch as [E|[E|E]]; now elim E.
  - exists (Caller k). split; [reflexivity|].
    unfold caller_step in H.
    destruct (callers s !! k) as [[|i rest]|] eqn:Ek; try discriminate.
    destruct (exec_instr (Caller k) pick i rest s) as [[c' s1]| |] eqn:Ex; try discriminate.
    injection H as <-. simpl in Hch.
    destruct (reachable_disciplined s Hr _ _ Ek) as [Hs Ho].
    apply Ho. eapply exec_instr_protected; eassumption.
  - exists (Worker i). split; [reflexivity|].
    destruct (worker_protected _ _ _ _ H Hch) as [index Hi].
    exact (inv_worker_lock s (reachable_inv s Hr) _ _ _ Hi eq_refl).
  - injection H as <-. unfold wake_worker in Hch. destruct (pond s !! i); simpl in Hch;
      destruct Hch as [E|[E|E]]; now elim E.
  - injection H as <-. unfold wake_caller in Hch. destruct (callers s !! k); simpl in Hch;
      destruct Hch as [E|[E|E]]; now elim E.
Qed.

Lemma lock_protects_witness :
  exists s s',
    exec [LCall (RSubmit (Plain (Value 7))); LCaller 0 0] 
      (mkSystem false 1 false 0 [] None [Thread 0 WLoopHead] 0 [] 0 [] []) = Ok s
    /\ step (LCaller 0 0) s = Ok s'
    /\ shared_tq s = [] /\ shared_tq s' = [Plain (Value 7)]
    /\ shared_locker s = Some (Caller 0).
Proof.
  eexists. eexists. split; [vm_compute; reflexivity|]. split; [vm_compute; reflexivity|].
  split; [reflexivity|]. split; [reflexivity|].
  destruct (lock_protects
              (mkSystem false 1 false 0 [] (Some (Caller 0)) [Thread 0 WLoopHead] 0 [] 0 []
                 [[IPush (Some (Plain (Value 7))); IAddTotal 1; IUnlock; INotifyOne]])
              (mkSystem false 1 false 0 [Plain (Value 7)] (Some (Caller 0))
                 [Thread 0 WLoopHead] 0 [] 0 [] [[IAddTotal 1; IUnlock; INotifyOne]])
              (LCaller 0 0)) as (t & Ha & Hl).
  - eapply (reachable_exec [LCall (RSubmit (Plain (Value 7))); LCaller 0 0]
              (mkSystem false 1 false 0 [] None [Thread 0 WLoopHead] 0 [] 0 [] [])).
    + apply (reach_construct 1); [unfold in_int, INT_MIN, INT_MAX; lia|reflexivity].
    + vm_compute. reflexivity.
  - vm_compute. reflexivity.
  - left. discriminate.
  - simpl in Ha. injection Ha as <-. exact Hl.
Defined.

(** ** After [stop] is set *)

Lemma stop_step (l : label) (s s' : system) :
  stop s = true -> step l s = Ok s' ->
  stop s' = true /\ exists q, shared_tq s' = shared_tq s ++ q.
Proof.
  intros Hst H. destruct l as [r|k pick|i pick|i|k]; simpl in H.
  - injection H as <-. split; [assumption|]. exists []. simpl. now rewrite app_nil_r.
  - unfold caller_step in H.
    destruct (callers s !! k) as [[|i rest]|] eqn:Ek; try discriminate.
    destruct (exec_instr (Caller k) pick i rest s) as [[c' s1]| |] eqn:Ex; try discriminate.
    injection H as <-. simpl. split; [|eapply exec_instr_tq; eassumption].
    destruct i; exec_inv Ex; try assumption; try reflexivity.
    now rewrite (proj1 (notify_one_frame awake_cv pick s)).
  - split.
    + worker_inv H; try assumption.
      now rewrite (proj1 (notify_one_frame task_done_cv pick s)).
    + exists []. rewrite app_nil_r.
      worker_inv H; try reflexivity; try (rewrite Hst in *; discriminate).
      apply (notify_one_frame task_done_cv pick s).
  - injection H as <-. unfold wake_worker. destruct (pond s !! i); simpl;
      (split; [assumption|exists []; now rewrite app_nil_r]).
  - injection H as <-. unfold wake_caller. destruct (callers s !! k); simpl;
      (split; [assumption|exists []; now rewrite app_nil_r]).
Qed.

(** X2. [stop] is never cleared, and once it is set no worker takes a
    task out of the queue any more: along every interleaving the queue
    keeps what it held and only grows at the back, so the tasks queued
    when the pond is closed are never executed. *)
Theorem stopped_queue_is_abandoned (ls : list label) (s s' : system) :
  stop s = true -> exec ls s = Ok s' ->
  stop s' = true /\ exists q, shared_tq s' = shared_tq s ++ q.
Proof.
  revert s. induction ls as [|l ls IH]; intros s Hst H; simpl in H.
  - injection H as <-. split; [assumption|]. exists []. now rewrite app_nil_r.
  - destruct (step l s) as [s1| |] eqn:E; try discriminate.
    destruct (stop_step _ _ _ Hst E) as [Hst1 [q1 Hq1]].
    destruct (IH _ Hst1 H) as [Hst' [q Hq]].
    split; [assumption|]. exists (q1 ++ q). now rewrite Hq, Hq1, app_assoc.
Qed.

Lemma stopped_queue_is_abandoned_witness :
  exists s',
    exec [LWorker 0 0; LWorker 0 0; LWorker 0 0; LWorker 0 0]
      (mkSystem true 1 false 2 [Plain (Value 1); Plain (Value 2)] None
         [Thread 0 WWantLock] 0 [] 0 [] []) = Ok s'
    /\ pond s' = [Thread 0 WExited]
    /\ stop s' = true
    /\ exists q, shared_tq s' = [Plain (Value 1); Plain (Value 2)] ++ q.
Proof.
  eexists. split; [vm_compute; reflexivity|]. split; [reflexivity|].
  apply (stopped_queue_is_abandoned
           [LWorker 0 0; LWorker 0 0; LWorker 0 0; LWorker 0 0]
           (mkSystem true 1 false 2 [Plain (Value 1); Plain (Value 2)] None
              [Thread 0 WWantLock] 0 [] 0 [] [])).
  - reflexivity.
  - vm_compute. reflexivity.
Defined.

(** ** One turn of the worker loop *)

Lemma exec_worker_step (pick i : nat) (ls : list label) (s s1 : system) :
  worker pick i s = Ok s1 -> exec (LWorker i pick :: ls) s = exec ls s1.
Proof. intros H. simpl. now rewrite H. Qed.

Lemma notify_one_done_wake (pick : nat) (s : system) :
  notify_one task_done_cv pick s = set_callers (wake_one pick (callers s)) s.
Proof.
  unfold notify_one, wake_one, drain_waiters, wake_caller.
  destruct (choose pick (drain_blocked_from 0 (callers s))) as [k|]; [|now destruct s].
  destruct (callers s !! k); [reflexivity|now destruct s].
Qed.

Ltac worker_turn pd i Hlt :=
  erewrite exec_worker_step;
  [|unfold worker; rewrite ?notify_one_done_wake;
    unfold lock, unlock, invoke, goto, set_pond, set_shared_locker, set_shared_tq,
      set_deleted_threads, set_shrink_numb, set_task_loaded, set_total_tasks, set_futures,
      set_callers;
    cbn [pond stop thread_numb waiting total_tasks shared_tq shared_locker shrink_numb
         deleted_threads task_loaded futures callers];
    rewrite ?(list_lookup_insert_eq pd i) by exact Hlt;
    cbn [pond stop thread_numb waiting total_tasks shared_tq shared_locker shrink_numb
         deleted_threads task_loaded futures callers wait_pred negb orb andb Z.eqb Z.ltb
         Z.compare tid_eqb];
    rewrite ?Nat.eqb_refl;
    cbn [pond stop thread_numb waiting total_tasks shared_tq shared_locker shrink_numb
         deleted_threads task_loaded futures callers];
    rewrite ?(list_insert_insert_eq pd i); reflexivity].

Lemma exec_app (l1 l2 : list label) (s s1 : system) :
  exec l1 s = Ok s1 -> exec (l1 ++ l2) s = exec l2 s1.
Proof.
  revert s. induction l1 as [|l l1 IH]; intros s H; simpl in *.
  - now injection H as <-.
  - destruct (step l s); try discriminate. now apply IH.
Qed.

(** A worker that is about to take the lock, with a task queued, serves
    the task at the front. *)
Lemma worker_serves (s : system) (i pick : nat) (index : Z)
    (t : HipeTask) (q : list HipeTask) :
  pond s !! i = Some (Thread index WWantLock) ->
  stop s = false -> shrink_numb s = 0 -> shared_locker s = None ->
  shared_tq s = t :: q -> t <> Plain Failure ->
  exists s',
    exec (replicate (if waiting s then 9 else 7)%nat (LWorker i pick)) s = Ok s'
    /\ pond s' = <[i := Thread index WLoopHead]> (pond s)
    /\ shared_tq s' = q
    /\ task_loaded s' = wrap (task_loaded s + 1)
    /\ total_tasks s' = wrap (total_tasks s - 1)
    /\ futures s' = match t with
                    | Packaged ch foo => <[ch := Some foo]> (futures s)
                    | Plain _ => futures s
                    end
    /\ callers s' = (if waiting s then callers (notify_one task_done_cv pick s) else callers s)
    /\ shared_locker s' = None
    /\ stop s' = false /\ shrink_numb s' = 0 /\ deleted_threads s' = deleted_threads s
    /\ thread_numb s' = thread_numb s /\ waiting s' = waiting s.
Proof.
  intros Hi Hst Hsh Hfree Hq Ht.
  assert (Hlt : (i < length (pond s))%nat) by (eapply lookup_lt_Some; eassumption).
  destruct s as [st tn wt tt tq lk pd sh dl tl fu cs]. simpl in *. subst.
  rewrite <- (list_insert_id _ _ _ Hi).
  destruct t as [[v|]|ch foo]; [|now elim Ht|]; destruct wt; cbn [replicate].
  - do 9 (worker_turn pd i Hlt). eexists. split; [reflexivity|].
    cbn. rewrite notify_one_done_wake, list_insert_insert_eq. repeat split.
  - do 7 (worker_turn pd i Hlt). eexists. split; [reflexivity|].
    cbn. rewrite list_insert_insert_eq. repeat split.
  - do 9 (worker_turn pd i Hlt). eexists. split; [reflexivity|].
    cbn. rewrite notify_one_done_wake, list_insert_insert_eq. repeat split.
  - do 7 (worker_turn pd i Hlt). eexists. split; [reflexivity|].
    cbn. rewrite list_insert_insert_eq. repeat split.
Qed.

(** X3. One turn of the loop of an idle worker when a task is queued,
    nothing is to stop or shrink and the lock is free: the worker takes
    the task at the front of the queue, adds one to [task_loaded], runs
    the task, subtracts one from [total_tasks] and is back at the head of
    its loop, the lock free again; a packaged task has stored its outcome
    in its future.  If [waiting] is set it then also notifies
    [task_done_cv] under the lock. *)
Theorem worker_runs_front_task (s : system) (i pick : nat) (index : Z)
    (t : HipeTask) (q : list HipeTask) :
  pond s !! i = Some (Thread index WLoopHead) ->
  stop s = false -> shrink_numb s = 0 -> shared_locker s = None ->
  shared_tq s = t :: q -> t <> Plain Failure ->
  exists s',
    exec (replicate (if waiting s then 10 else 8)%nat (LWorker i pick)) s = Ok s'
    /\ pond s' = pond s
    /\ shared_tq s' = q
    /\ task_loaded s' = wrap (task_loaded s + 1)
    /\ total_tasks s' = wrap (total_tasks s - 1)
    /\ futures s' = match t with
                    | Packaged ch foo => <[ch := Some foo]> (futures s)
                    | Plain _ => futures s
                    end
    /\ callers s' = (if waiting s then callers (notify_one task_done_cv pick s) else callers s)
    /\ shared_locker s' = None
    /\ stop s' = false /\ shrink_numb s' = 0 /\ deleted_threads s' = deleted_threads s
    /\ thread_numb s' = thread_numb s /\ waiting s' = waiting s.
Proof.
  intros Hi Hst Hsh Hfree Hq Ht.
  assert (Hlt : (i < length (pond s))%nat) by (eapply lookup_lt_Some; eassumption).
  assert (H1 : worker pick i s = Ok (goto i index WWantLock s))
    by (unfold worker; now rewrite Hi, Hst).
  destruct (worker_serves (goto i index WWantLock s) i pick index t q) as (s' & He & Hp & Hrest);
    try assumption.
  { simpl. now apply list_lookup_insert_eq. }
  exists s'. split.
  - replace (if waiting s then 10%nat else 8%nat)
      with (S (if waiting (goto i index WWantLock s) then 9 else 7))
      by (simpl; now destruct (waiting s)).
    cbn [replicate]. now rewrite (exec_worker_step _ _ _ _ _ H1).
  - rewrite notify_one_done_wake in Hrest |- *. split; [|exact Hrest].
    rewrite Hp. simpl. rewrite list_insert_insert_eq. now apply list_insert_id.
Qed.

Lemma worker_runs_front_task_witness :
  exists s',
    exec (replicate 8 (LWorker 0 0))
      (mkSystem false 1 false 2 [Packaged 0 (Value 42); Plain (Value 1)] None
         [Thread 0 WLoopHead] 0 [] 5 [None] []) = Ok s'
    /\ shared_tq s' = [Plain (Value 1)]
    /\ task_loaded s' = 6
    /\ total_tasks s' = 1
    /\ futures s' = [Some (Value 42)].
Proof.
  pose proof (worker_runs_front_task
              (mkSystem false 1 false 2 [Packaged 0 (Value 42); Plain (Value 1)] None
                 [Thread 0 WLoopHead] 0 [] 5 [None] [])
              0%nat 0%nat 0 (Packaged 0 (Value 42)) [Plain (Value 1)]) as H.
  cbn [pond stop shrink_numb shared_locker shared_tq waiting task_loaded total_tasks futures
       callers deleted_threads thread_numb] in H.
  destruct H as (s' & He & _ & Hq & Hl & Ht & Hf & _).
  - reflexivity.
  - reflexivity.
  - reflexivity.
  - reflexivity.
  - reflexivity.
  - discriminate.
  - exists s'. split; [exact He|]. split; [exact Hq|].
    split; [rewrite Hl; vm_compute; reflexivity|].
    split; [rewrite Ht; vm_compute; reflexivity|exact Hf].
Defined.

(** ** The loaded counter *)

Lemma task_loaded_step (l : label) (s s' : system) :
  step l s = Ok s' ->
  task_loaded s' = if starts_task l s then wrap (task_loaded s + 1) else task_loaded s.
Proof.
  intros H. destruct l as [r|k pick|i pick|i|k]; simpl in H.
  - now injection H as <-.
  - unfold caller_step in H. simpl.
    destruct (callers s !! k) as [[|i rest]|] eqn:Ek; try discriminate.
    destruct (exec_instr (Caller k) pick i rest s) as [[c' s1]| |] eqn:Ex; try discriminate.
    injection H as <-. simpl.
    destruct i; exec_inv Ex; try reflexivity.
    apply (notify_one_frame awake_cv pick s).
  - unfold starts_task. worker_inv H; try reflexivity.
    apply (notify_one_frame task_done_cv pick s).
  - injection H as <-. unfold wake_worker. now destruct (pond s !! i).
  - injection H as <-. unfold wake_caller. now destruct (callers s !! k).
Qed.

Lemma task_loaded_exec (ls : list label) (s s' : system) :
  exec ls s = Ok s' ->
  (in_int (task_loaded s) -> in_int (task_loaded s'))
  /\ wrap (task_loaded s') = wrap (task_loaded s + Z.of_nat (started ls s)).
Proof.
  revert s. induction ls as [|l ls IH]; intros s H; simpl in H.
  - injection H as <-. simpl. rewrite Z.add_0_r. now split.
  - simpl. destruct (step l s) as [s1| |] eqn:E; try discriminate.
    pose proof (task_loaded_step _ _ _ E) as Hl.
    destruct (IH _ H) as [Hin Hs]. split.
    + intros Hi. apply Hin. rewrite Hl.
      destruct (starts_task l s); [apply wrap_range|exact Hi].
    + rewrite Hs, Hl. destruct (starts_task l s).
      * rewrite wrap_add_l. f_equal. lia.
      * f_equal; lia.
Qed.

Lemma task_loaded_play (es : list event) (s s' : system) :
  play es s = Ok s' ->
  (in_int (task_loaded s) -> in_int (task_loaded s'))
  /\ wrap (task_loaded s')
     = wrap ((if resets es then 0 else task_loaded s) + Z.of_nat (since_reset es s)).
Proof.
  revert s. induction es as [|[l|] es IH]; intros s H; simpl in H.
  - injection H as <-. simpl. rewrite Z.add_0_r. now split.
  - simpl. destruct (step l s) as [s1| |] eqn:E; try discriminate.
    pose proof (task_loaded_step _ _ _ E) as Hl.
    destruct (IH _ H) as [Hin Hs]. split.
    + intros Hi. apply Hin. rewrite Hl.
      destruct (starts_task l s); [apply wrap_range|exact Hi].
    + rewrite Hs, Hl. destruct (resets es); simpl.
      * rewrite andb_false_r. reflexivity.
      * rewrite andb_true_r. destruct (starts_task l s).
        -- rewrite wrap_add_l. f_equal. lia.
        -- f_equal; lia.
  - destruct (IH _ H) as [Hin Hs]. split.
    + intros _. apply Hin. simpl. unfold in_int, INT_MIN, INT_MAX. lia.
    + rewrite Hs. simpl. now destruct (resets es).
Qed.

(** X4. [task_loaded] counts the tasks that workers have started since it
    was last reset.  Along any interleaving of steps of the pond's threads
    and calls of [resetTaskLoaded], [getTaskLoaded] is, as a 32-bit
    integer, the number of steps in which a worker passed line 251 after
    the last call of [resetTaskLoaded], added to the value it had at the
    start if there was no such call: the increment of line 251 and the
    exchange of [resetTaskLoaded] are the only writes. *)
Theorem task_loaded_counts_started (es : list event) (s s' : system) :
  in_int (task_loaded s) -> play es s = Ok s' ->
  getTaskLoaded s'
  = wrap ((if resets es then 0 else getTaskLoaded s) + Z.of_nat (since_reset es s)).
Proof.
  intros Hi H. destruct (task_loaded_play _ _ _ H) as [Hin Hs].
  unfold getTaskLoaded. rewrite <- Hs. symmetry. apply wrap_in_int, Hin, Hi.
Qed.

Lemma task_loaded_counts_started_witness :
  in_int 5
  /\ play [EStep (LWorker 0 0); EReset; EStep (LWorker 1 0)]
       (mkSystem false 2 false 2 [] None
          [Thread 0 (WLoaded (Plain (Value 7))); Thread 1 (WLoaded (Plain (Value 8)))]
          0 [] 5 [] [])
     = Ok (mkSystem false 2 false 2 [] None
             [Thread 0 (WInvoke (Plain (Value 7))); Thread 1 (WInvoke (Plain (Value 8)))]
             0 [] 1 [] [])
  /\ getTaskLoaded
       (mkSystem false 2 false 2 [] None
          [Thread 0 (WInvoke (Plain (Value 7))); Thread 1 (WInvoke (Plain (Value 8)))]
          0 [] 1 [] []) = 1.
Proof.
  split; [unfold in_int, INT_MIN, INT_MAX; lia|]. split; [reflexivity|].
  exact (task_loaded_counts_started [EStep (LWorker 0 0); EReset; EStep (LWorker 1 0)]
           (mkSystem false 2 false 2 [] None
              [Thread 0 (WLoaded (Plain (Value 7))); Thread 1 (WLoaded (Plain (Value 8)))]
              0 [] 5 [] [])
           (mkSystem false 2 false 2 [] None
              [Thread 0 (WInvoke (Plain (Value 7))); Thread 1 (WInvoke (Plain (Value 8)))]
              0 [] 1 [] [])
           ltac:(unfold in_int, INT_MIN, INT_MAX; simpl; lia) eq_refl).
Defined.

(** X5. [resetTaskLoaded] returns the value [getTaskLoaded] had and
    starts the count again: after any interleaving that follows it,
    [getTaskLoaded] is the number of tasks workers have started since the
    reset. *)
Theorem resetTaskLoaded_restarts_count (ls : list label) (s s' : system) :
  exec ls (snd (resetTaskLoaded s)) = Ok s' ->
  fst (resetTaskLoaded s) = getTaskLoaded s
  /\ getTaskLoaded s' = wrap (Z.of_nat (started ls (snd (resetTaskLoaded s)))).
Proof.
  intros H. split; [reflexivity|].
  destruct (task_loaded_exec _ _ _ H) as [Hin Hs].
  unfold getTaskLoaded. rewrite <- (wrap_in_int (task_loaded s')); [exact Hs|].
  apply Hin. simpl. unfold in_int, INT_MIN, INT_MAX. lia.
Qed.

Lemma resetTaskLoaded_restarts_count_witness :
  fst (resetTaskLoaded
         (mkSystem false 1 false 1 [] None [Thread 0 (WLoaded (Plain (Value 7)))] 0 [] 5 [] [])) = 5
  /\ getTaskLoaded
       (mkSystem false 1 false 1 [] None [Thread 0 WReturned] 0 [] 1 [] []) = 1.
Proof.
  exact (resetTaskLoaded_restarts_count [LWorker 0 0; LWorker 0 0]
           (mkSystem false 1 false 1 [] None [Thread 0 (WLoaded (Plain (Value 7)))] 0 [] 5 [] [])
           (mkSystem false 1 false 1 [] None [Thread 0 WReturned] 0 [] 1 [] [])
           eq_refl).
Defined.

(** ** Submitting *)

Lemma exec_caller_step (pick k : nat) (ls : list label) (s s1 : system) :
  caller_step pick k s = Ok s1 -> exec (LCaller k pick :: ls) s = exec ls s1.
Proof. intros H. simpl. now rewrite H. Qed.

Lemma notify_one_awake_wake (pick : nat) (s : system) :
  notify_one awake_cv pick s = set_pond (wake_one_worker pick (pond s)) s.
Proof.
  unfold notify_one, wake_one_worker, blocked_workers, wake_worker.
  destruct (choose pick (blocked_from 0 (pond s))) as [i|]; [|now destruct s].
  destruct (pond s !! i); [reflexivity|now destruct s].
Qed.

Lemma blocked_from_spec (p : list handle) (off i : nat) :
  i ∈ blocked_from off p ->
  (off <= i)%nat /\ exists index, p !! (i - off)%nat = Some (Thread index WBlocked).
Proof.
  revert off. induction p as [|h p IH]; intros off Hin; simpl in Hin.
  - now apply elem_of_nil in Hin.
  - assert (Hrec : i ∈ blocked_from (S off) p ->
                   (off <= i)%nat
                   /\ exists index, (h :: p) !! (i - off)%nat = Some (Thread index WBlocked)).
    { intros H. destruct (IH _ H) as [Hle [index Hx]]. split; [lia|]. exists index.
      replace (i - off)%nat with (S (i - S off)) by lia. exact Hx. }
    destruct (is_blocked h) eqn:Eb; [|now apply Hrec].
    apply elem_of_cons in Hin as [->|Hin]; [|now apply Hrec].
    split; [lia|]. rewrite Nat.sub_diag. simpl.
    destruct h as [|index []]; try discriminate. now exists index.
Qed.

Lemma choose_elem (pick i : nat) (l : list nat) : choose pick l = Some i -> i ∈ l.
Proof.
  unfold choose. destruct l as [|x l]; [discriminate|]. apply list_elem_of_lookup_2.
Qed.

Lemma choose_some (pick : nat) (l : list nat) : l <> [] -> exists i, choose pick l = Some i.
Proof.
  intros Hl. unfold choose. destruct l as [|x l]; [now elim Hl|].
  apply lookup_lt_is_Some_2. apply Nat.mod_upper_bound. discriminate.
Qed.

Lemma wake_one_worker_some (pick i : nat) (p : list handle) :
  choose pick (blocked_from 0 p) = Some i ->
  exists index, p !! i = Some (Thread index WBlocked)
                /\ wake_one_worker pick p = <[i := Thread index WWantLock]> p.
Proof.
  intros Hc. destruct (blocked_from_spec p 0 i (choose_elem _ _ _ Hc)) as [_ [index Hi]].
  rewrite Nat.sub_0_r in Hi. exists index. split; [exact Hi|].
  unfold wake_one_worker. now rewrite Hc, Hi.
Qed.

Ltac caller_turn cs k Hlt :=
  erewrite exec_caller_step;
  [|unfold caller_step;
    cbn [pond stop thread_numb waiting total_tasks shared_tq shared_locker shrink_numb
         deleted_threads task_loaded futures callers];
    rewrite (list_lookup_insert_eq cs k) by exact Hlt;
    unfold exec_instr; rewrite ?notify_one_awake_wake;
    unfold lock, unlock, set_pond, set_shared_locker, set_shared_tq,
      set_total_tasks, set_futures, set_callers;
    cbn [pond stop thread_numb waiting total_tasks shared_tq shared_locker shrink_numb
         deleted_threads task_loaded futures callers tid_eqb];
    rewrite ?Nat.eqb_refl;
    cbn [pond stop thread_numb waiting total_tasks shared_tq shared_locker shrink_numb
         deleted_threads task_loaded futures callers];
    rewrite ?(list_insert_insert_eq cs k); reflexivity].

(** What the five actions of [submit] do when the calling thread runs
    them in a row. *)
Lemma caller_submits (s : system) (k pick : nat) (foo : HipeTask) (rest : code) :
  callers s !! k = Some (submit foo ++ rest) -> shared_locker s = None ->
  exec (replicate 5 (LCaller k pick)) s
  = Ok (mkSystem (stop s) (thread_numb s) (waiting s) (wrap (total_tasks s + 1))
          (shared_tq s ++ [foo]) None (wake_one_worker pick (pond s)) (shrink_numb s)
          (deleted_threads s) (task_loaded s) (futures s) (<[k := rest]> (callers s))).
Proof.
  intros Hk Hfree.
  assert (Hlt : (k < length (callers s))%nat) by (eapply lookup_lt_Some; eassumption).
  destruct s as [st tn wt tt tq lk pd sh dl tl fu cs]. simpl in Hk, Hfree, Hlt. subst.
  cbn [pond stop thread_numb waiting total_tasks shared_tq shared_locker shrink_numb
       deleted_threads task_loaded futures callers].
  rewrite <- (list_insert_id _ _ _ Hk). cbn [replicate submit app].
  do 5 (caller_turn cs k Hlt). simpl. now rewrite list_insert_insert_eq.
Qed.

(** X6. [submit(foo)] run by a thread while the lock is free: the task
    goes to the back of the queue, [total_tasks] grows by one, the lock
    is free again, and exactly one worker asleep on [awake_cv] is woken if
    there is one: that worker goes on to take the lock, every other
    worker is where it was. *)
Theorem submit_spec (s : system) (k pick : nat) (foo : HipeTask) (rest : code) :
  callers s !! k = Some (submit foo ++ rest) -> shared_locker s = None ->
  exists s',
    exec (replicate 5 (LCaller k pick)) s = Ok s'
    /\ shared_tq s' = shared_tq s ++ [foo]
    /\ total_tasks s' = wrap (total_tasks s + 1)
    /\ callers s' = <[k := rest]> (callers s)
    /\ shared_locker s' = None
    /\ (blocked_workers s = [] -> pond s' = pond s)
    /\ (blocked_workers s <> [] ->
        exists i index, pond s !! i = Some (Thread index WBlocked)
                        /\ pond s' = <[i := Thread index WWantLock]> (pond s))
    /\ stop s' = stop s /\ thread_numb s' = thread_numb s /\ waiting s' = waiting s
    /\ shrink_numb s' = shrink_numb s /\ deleted_threads s' = deleted_threads s
    /\ task_loaded s' = task_loaded s /\ futures s' = futures s.
Proof.
  intros Hk Hfree. eexists. split; [exact (caller_submits s k pick foo rest Hk Hfree)|]. simpl.
  repeat split.
  - unfold blocked_workers, wake_one_worker. now intros ->.
  - intros Hb. destruct (choose_some pick _ Hb) as [i Hc].
    destruct (wake_one_worker_some _ _ _ Hc) as (index & Hi & Hw). now exists i, index.
Qed.

Lemma submit_spec_witness :
  exists s',
    exec (replicate 5 (LCaller 0 0))
      (mkSystem false 2 false 0 [] None [Thread 0 WBlocked; Thread 1 WBlocked] 0 [] 0 []
         [submit (Plain (Value 3))]) = Ok s'
    /\ shared_tq s' = [Plain (Value 3)]
    /\ total_tasks s' = 1
    /\ pond s' = [Thread 0 WWantLock; Thread 1 WBlocked].
Proof.
  destruct (submit_spec
              (mkSystem false 2 false 0 [] None [Thread 0 WBlocked; Thread 1 WBlocked] 0 [] 0 []
                 [submit (Plain (Value 3))])
              0%nat 0%nat (Plain (Value 3)) [] eq_refl eq_refl)
    as (s' & He & Hq & Ht & _).
  exists s'. split; [exact He|]. split; [exact Hq|]. split; [exact Ht|].
  vm_compute in He. injection He as <-. reflexivity.
Defined.

(** X7. [submitForReturn(foo)] followed by the turn of the worker that
    its notification wakes, on an idle pond: the future handed out, the
    next free channel, holds the outcome of [foo], be it a value or an
    exception; the queue is empty again, [total_tasks] is what it was,
    [task_loaded] has grown by one and the worker is back at the head of
    its loop. *)
Theorem submitForReturn_round_trip (s : system) (k i pick pick' : nat) (foo : outcome) :
  callers s !! k = Some (submitForReturn foo) ->
  shared_locker s = None -> stop s = false -> shrink_numb s = 0 ->
  shared_tq s = [] -> waiting s = false -> in_int (total_tasks s) ->
  choose pick (blocked_workers s) = Some i ->
  exists s',
    exec (replicate 6 (LCaller k pick) ++ replicate 7 (LWorker i pick')) s = Ok s'
    /\ futures s' = futures s ++ [Some foo]
    /\ futures s' !! length (futures s) = Some (Some foo)
    /\ callers s' = <[k := []]> (callers s)
    /\ shared_tq s' = []
    /\ total_tasks s' = total_tasks s
    /\ task_loaded s' = wrap (task_loaded s + 1)
    /\ shared_locker s' = None
    /\ exists index, pond s !! i = Some (Thread index WBlocked)
                     /\ pond s' = <[i := Thread index WLoopHead]> (pond s).
Proof.
  intros Hk Hfree Hst Hsh Hq Hw Hint Hc.
  assert (Hlt : (k < length (callers s))%nat) by (eapply lookup_lt_Some; eassumption).
  destruct (wake_one_worker_some _ _ _ Hc) as (index & Hi & Hwake).
  assert (Hli : (i < length (pond s))%nat) by (eapply lookup_lt_Some; eassumption).
  set (n := length (futures s)).
  set (s1 := set_callers (<[k := submit (Packaged n foo) ++ []]> (callers s))
               (set_futures (futures s ++ [None]) s)).
  assert (H1 : caller_step pick k s = Ok s1).
  { unfold caller_step, submitForReturn in *. rewrite Hk. reflexivity. }
  assert (H2 := caller_submits s1 k pick (Packaged n foo) []).
  unfold s1 in H2. cbn [callers set_callers] in H2.
  specialize (H2 (list_lookup_insert_eq _ _ _ Hlt) Hfree).
  cbn [pond stop thread_numb waiting total_tasks shared_tq shared_locker shrink_numb
       deleted_threads task_loaded futures callers set_callers set_futures] in H2.
  rewrite list_insert_insert_eq, Hwake, Hq, Hst, Hsh, Hw in H2. cbn [app] in H2.
  match type of H2 with _ = Ok ?x => set (s2 := x) in * end.
  destruct (worker_serves s2 i pick' index (Packaged n foo) []) as (s' & He & Hp & Hr);
    try reflexivity.
  { simpl. now apply list_lookup_insert_eq. }
  { discriminate. }
  unfold s2 in He. cbn [waiting] in He.
  destruct Hr as (Hq' & Hl' & Ht' & Hf' & Hc' & Hk' & _).
  exists s'. split.
  { change (replicate 6 (LCaller k pick)) with (LCaller k pick :: replicate 5 (LCaller k pick)).
    rewrite <- app_comm_cons, (exec_caller_step _ _ _ _ _ H1).
    now rewrite (exec_app _ _ _ _ H2). }
  assert (Hfut : futures s' = futures s ++ [Some foo]).
  { rewrite Hf'. simpl. rewrite insert_app_r_alt by (unfold n; lia).
    unfold n. now rewrite Nat.sub_diag. }
  split; [exact Hfut|]. split.
  { rewrite Hfut. rewrite lookup_app_r by lia. now rewrite Nat.sub_diag. }
  split; [exact Hc'|]. split; [exact Hq'|]. split.
  { rewrite Ht'. simpl. replace (wrap (total_tasks s + 1) - 1) with (wrap (total_tasks s + 1) + -1) by lia.
    rewrite wrap_add_l. replace (total_tasks s + 1 + -1) with (total_tasks s) by lia.
    now apply wrap_in_int. }
  split; [exact Hl'|]. split; [exact Hk'|].
  exists index. split; [exact Hi|]. rewrite Hp. simpl. apply list_insert_insert_eq.
Qed.

Lemma submitForReturn_round_trip_witness :
  exists s',
    exec (replicate 6 (LCaller 0 0) ++ replicate 7 (LWorker 1 0))
      (mkSystem false 2 false 0 [] None [Thread 0 WLoopHead; Thread 1 WBlocked] 0 [] 0
         [Some (Value 1)] [submitForReturn Failure]) = Ok s'
    /\ futures s' = [Some (Value 1); Some Failure]
    /\ total_tasks s' = 0.
Proof.
  destruct (submitForReturn_round_trip
              (mkSystem false 2 false 0 [] None [Thread 0 WLoopHead; Thread 1 WBlocked] 0 [] 0
                 [Some (Value 1)] [submitForReturn Failure])
              0%nat 1%nat 0%nat 0%nat Failure)
    as (s' & He & Hf & _ & _ & _ & Ht & _); try reflexivity.
  - unfold in_int, INT_MIN, INT_MAX. simpl. lia.
  - exists s'. split; [exact He|]. split; [exact Hf|exact Ht].
Defined.

(** ** A task that raises *)

(** While a worker is running a task, no other thread touches its slot. *)
Lemma exec_instr_running me pick i rest s c' s' p index t :
  exec_instr me pick i rest s = Ok (c', s') ->
  pond s !! p = Some (Thread index (WInvoke t)) ->
  pond s' !! p = Some (Thread index (WInvoke t)).
Proof.
  intros H Hp. destruct i; exec_inv H; try assumption.
  - destruct (notify_one_awake_pond pick s) as [->|(j & h & Hj & ->)]; [assumption|].
    destruct (decide (j = p)) as [->|Hne].
    + rewrite list_lookup_insert_eq by (eapply lookup_lt_Some; eassumption).
      rewrite Hp in Hj. now injection Hj as <-.
    + now rewrite list_lookup_insert_ne.
  - now rewrite list_lookup_fmap, Hp.
  - destruct (decide (Z.to_nat idx = p)) as [E|Hne]; [congruence|].
    now rewrite list_lookup_insert_ne.
  - destruct (decide (Z.to_nat idx = p)) as [E|Hne]; [congruence|].
    now rewrite list_lookup_insert_ne.
  - rewrite lookup_app_l; [assumption|]. eapply lookup_lt_Some; eassumption.
Qed.

Lemma raising_terminates pick i s index :
  pond s !! i = Some (Thread index (WInvoke (Plain Failure))) ->
  worker pick i s = Fault Terminate.
Proof. intros H. unfold worker. now rewrite H. Qed.

Lemma raising_step (l : label) (s s' : system) (p : nat) (index : Z) :
  pond s !! p = Some (Thread index (WInvoke (Plain Failure))) -> step l s = Ok s' ->
  pond s' !! p = Some (Thread index (WInvoke (Plain Failure))).
Proof.
  intros Hp H. destruct l as [r|k pick|i pick|i|k]; simpl in H.
  - now injection H as <-.
  - unfold caller_step in H.
    destruct (callers s !! k) as [[|i rest]|]; try discriminate.
    destruct (exec_instr (Caller k) pick i rest s) as [[c' s1]| |] eqn:Ex; try discriminate.
    injection H as <-. simpl. eapply exec_instr_running; eassumption.
  - destruct (decide (i = p)) as [->|Hne].
    + rewrite (raising_terminates _ _ _ _ Hp) in H. discriminate.
    + destruct (worker_pond _ _ _ _ H) as (idx & w & w' & _ & ->).
      now rewrite list_lookup_insert_ne.
  - injection H as <-. destruct (wake_worker_pond i s) as [->|(h & Hi & ->)]; [assumption|].
    destruct (decide (i = p)) as [->|Hne].
    + rewrite list_lookup_insert_eq by (eapply lookup_lt_Some; eassumption).
      rewrite Hp in Hi. now injection Hi as <-.
    + now rewrite list_lookup_insert_ne.
  - injection H as <-. now rewrite wake_caller_pond.
Qed.

Lemma raising_exec (ls : list label) (s s' : system) (p : nat) (index : Z) :
  pond s !! p = Some (Thread index (WInvoke (Plain Failure))) -> exec ls s = Ok s' ->
  pond s' !! p = Some (Thread index (WInvoke (Plain Failure))).
Proof.
  revert s. induction ls as [|l ls IH]; intros s Hp H; simpl in H.
  - now injection H as <-.
  - destruct (step l s) as [s1| |] eqn:E; try discriminate.
    eapply IH; [|exact H]. eapply raising_step; eassumption.
Qed.

(** The six actions of [submitForReturn]: the packaged task is made with
    the next free channel, then submitted. *)
Lemma caller_packs (s : system) (k pick : nat) (foo : outcome) :
  callers s !! k = Some (submitForReturn foo) -> shared_locker s = None ->
  exec (replicate 6 (LCaller k pick)) s
  = Ok (mkSystem (stop s) (thread_numb s) (waiting s) (wrap (total_tasks s + 1))
          (shared_tq s ++ [Packaged (length (futures s)) foo]) None
          (wake_one_worker pick (pond s)) (shrink_numb s) (deleted_threads s)
          (task_loaded s) (futures s ++ [None]) (<[k := []]> (callers s))).
Proof.
  intros Hk Hfree.
  assert (Hlt : (k < length (callers s))%nat) by (eapply lookup_lt_Some; eassumption).
  set (n := length (futures s)).
  set (s1 := set_callers (<[k := submit (Packaged n foo) ++ []]> (callers s))
               (set_futures (futures s ++ [None]) s)).
  assert (H1 : caller_step pick k s = Ok s1).
  { unfold caller_step, submitForReturn in *. rewrite Hk. reflexivity. }
  change (replicate 6 (LCaller k pick)) with (LCaller k pick :: replicate 5 (LCaller k pick)).
  rewrite (exec_caller_step _ _ _ _ _ H1).
  rewrite (caller_submits s1 k pick (Packaged n foo) []).
  - simpl. now rewrite list_insert_insert_eq.
  - simpl. now apply list_lookup_insert_eq.
  - exact Hfree.
Qed.

(** C10. A task without result channel that raises: nothing in the worker
    loop catches the failure, so it leaves the thread function at line 254
    and the program is terminated; line 255 is not reached.  From the
    moment the worker has started such a task, in every state the program
    is in the task is counted among the outstanding ones; within the range
    of [int] the counter is therefore not 0 and the predicate of
    [waitForTasks] sends its caller back to sleep.  [submitForReturn]
    queues a packaged task bound to a new channel; a packaged task that
    raises stores the failure in its channel and returns normally, and the
    next step of the worker decrements the counter: after
    [submitForReturn] of a raising task and the turn of the worker it
    wakes, the channel holds the failure and the counter is what it
    was. *)
Theorem raising_task_stays_counted :
  (forall pick i index s ls,
      pond s !! i = Some (Thread index (WInvoke (Plain Failure))) ->
      worker pick i s = Fault Terminate
      /\ exec (LWorker i pick :: ls) s = Fault Terminate)
  /\ (forall s i index ls s',
         reachable s ->
         pond s !! i = Some (Thread index (WInvoke (Plain Failure))) ->
         exec ls s = Ok s' ->
         pond s' !! i = Some (Thread index (WInvoke (Plain Failure)))
         /\ 1 <= outstanding s'
         /\ (outstanding s' <= INT_MAX ->
             1 <= getTasksRemain s'
             /\ forall me pick rest,
                 exec_instr me pick ICheckDrain rest s'
                 = Ok (ISuspendDrain :: ICheckDrain :: rest, s')))
  /\ (forall s k pick foo,
         callers s !! k = Some (submitForReturn foo) -> shared_locker s = None ->
         exists s1,
           exec (replicate 6 (LCaller k pick)) s = Ok s1
           /\ shared_tq s1 = shared_tq s ++ [Packaged (length (futures s)) foo]
           /\ futures s1 = futures s ++ [None]
           /\ total_tasks s1 = wrap (total_tasks s + 1))
  /\ (forall pick i index ch s,
         pond s !! i = Some (Thread index (WInvoke (Packaged ch Failure))) ->
         (ch < length (futures s))%nat ->
         exists s1 s2,
           worker pick i s = Ok s1
           /\ futures s1 !! ch = Some (Some Failure)
           /\ pond s1 !! i = Some (Thread index WReturned)
           /\ total_tasks s1 = total_tasks s
           /\ worker pick i s1 = Ok s2
           /\ total_tasks s2 = wrap (total_tasks s - 1))
  /\ (forall s k i pick pick',
         callers s !! k = Some (submitForReturn Failure) ->
         shared_locker s = None -> stop s = false -> shrink_numb s = 0 ->
         shared_tq s = [] -> waiting s = false -> in_int (total_tasks s) ->
         choose pick (blocked_workers s) = Some i ->
         exists s',
           exec (replicate 6 (LCaller k pick) ++ replicate 7 (LWorker i pick')) s = Ok s'
           /\ futures s' !! length (futures s) = Some (Some Failure)
           /\ getTasksRemain s' = getTasksRemain s).
Proof.
  split; [|split; [|split; [|split]]].
  - intros pick i index s ls H.
    pose proof (raising_terminates pick _ _ _ H) as Ht.
    split; [exact Ht|]. simpl. now rewrite Ht.
  - intros s i index ls s' Hr Hc He.
    pose proof (raising_exec _ _ _ _ _ Hc He) as Hc'.
    pose proof (reachable_inv _ (reachable_exec _ _ _ Hr He)) as Hi.
    assert (H1 : 1 <= outstanding s').
    { pose proof (in_flight_lookup _ _ _ Hc') as Hf. simpl in Hf.
      pose proof (queue_covers_owed _ Hi). unfold outstanding. lia. }
    split; [exact Hc'|]. split; [exact H1|].
    intros Hmax.
    assert (Ht : getTasksRemain s' = outstanding s').
    { unfold getTasksRemain. rewrite (inv_total _ Hi). apply wrap_in_int.
      unfold in_int, INT_MIN in *. lia. }
    split; [lia|]. intros me pick rest. unfold getTasksRemain in Ht. simpl.
    destruct (total_tasks s' =? 0) eqn:E; [|reflexivity].
    apply Z.eqb_eq in E. lia.
  - intros s k pick foo Hk Hfree. eexists.
    split; [exact (caller_packs s k pick foo Hk Hfree)|]. repeat split.
  - intros pick i index ch s H Hch.
    assert (Hlt : (i < length (pond s))%nat) by (eapply lookup_lt_Some; eassumption).
    eexists _, _. split; [unfold worker; rewrite H; reflexivity|].
    split; [simpl; now apply list_lookup_insert_eq|].
    split; [simpl; now apply list_lookup_insert_eq|].
    split; [reflexivity|].
    split.
    + unfold worker. cbn [pond goto set_pond set_futures].
      rewrite list_lookup_insert_eq by assumption. reflexivity.
    + reflexivity.
  - intros s k i pick pick' Hk Hfree Hst Hsh Hq Hw Hint Hc.
    destruct (wake_one_worker_some _ _ _ Hc) as (index & Hi & Hwake).
    assert (Hli : (i < length (pond s))%nat) by (eapply lookup_lt_Some; eassumption).
    pose proof (caller_packs s k pick Failure Hk Hfree) as H2.
    rewrite Hwake, Hq, Hst, Hsh, Hw in H2. cbn [app] in H2.
    match type of H2 with _ = Ok ?x => set (s2 := x) in * end.
    destruct (worker_serves s2 i pick' index (Packaged (length (futures s)) Failure) [])
      as (s' & He & _ & _ & _ & Ht' & Hf' & _); try reflexivity.
    { simpl. now apply list_lookup_insert_eq. }
    { discriminate. }
    unfold s2 in He. cbn [waiting] in He.
    exists s'. split; [now rewrite (exec_app _ _ _ _ H2)|]. split.
    + rewrite Hf'. simpl. rewrite insert_app_r_alt by lia.
      rewrite Nat.sub_diag, lookup_app_r by lia. now rewrite Nat.sub_diag.
    + unfold getTasksRemain. rewrite Ht'. simpl.
      replace (wrap (total_tasks s + 1) - 1) with (wrap (total_tasks s + 1) + -1) by lia.
      rewrite wrap_add_l. transitivity (wrap (total_tasks s)); [f_equal; lia|].
      now apply wrap_in_int.
Qed.

Lemma raising_task_stays_counted_witness :
  exists s s',
    exec [LCall (RSubmit (Plain Failure)); LCaller 0 0; LCaller 0 0; LCaller 0 0;
          LCaller 0 0; LCaller 0 0; LWorker 0 0; LWorker 0 0; LWorker 0 0; LWorker 0 0;
          LWorker 0 0]
      (mkSystem false 1 false 0 [] None [Thread 0 WLoopHead] 0 [] 0 [] []) = Ok s
    /\ pond s !! 0%nat = Some (Thread 0 (WInvoke (Plain Failure)))
    /\ exec [LCall RWaitForTasks; LCaller 1 0; LCaller 1 0; LCaller 1 0; LCaller 1 0] s = Ok s'
    /\ 1 <= getTasksRemain s'
    /\ callers s' !! 1%nat = Some drain_sleep
    /\ exec [LWorker 0 0] s' = Fault Terminate.
Proof.
  eexists. eexists. split; [vm_compute; reflexivity|].
  split; [reflexivity|]. split; [vm_compute; reflexivity|].
  destruct raising_task_stays_counted as (Ha & H & _).
  split; [|split; [reflexivity|]].
  - eapply (H _ 0%nat 0 [LCall RWaitForTasks; LCaller 1 0; LCaller 1 0; LCaller 1 0; LCaller 1 0]).
    + eapply (reachable_exec
                [LCall (RSubmit (Plain Failure)); LCaller 0 0; LCaller 0 0; LCaller 0 0;
                 LCaller 0 0; LCaller 0 0; LWorker 0 0; LWorker 0 0; LWorker 0 0; LWorker 0 0;
                 LWorker 0 0]
                (mkSystem false 1 false 0 [] None [Thread 0 WLoopHead] 0 [] 0 [] [])).
      * apply (reach_construct 1); [unfold in_int, INT_MIN, INT_MAX; lia|reflexivity].
      * vm_compute. reflexivity.
    + reflexivity.
    + vm_compute. reflexivity.
    + vm_compute. discriminate.
  - match goal with
    | |- exec _ ?x = _ => exact (proj2 (Ha 0%nat 0%nat 0 x [] eq_refl))
    end.
Defined.

(** ** Closing the pond *)

Ltac caller_act cs k Hlt :=
  erewrite exec_caller_step;
  [|unfold caller_step;
    cbn [pond stop thread_numb waiting total_tasks shared_tq shared_locker shrink_numb
         deleted_threads task_loaded futures callers];
    rewrite (list_lookup_insert_eq cs k) by exact Hlt;
    unfold exec_instr, notify_all;
    unfold lock, unlock, set_pond, set_shared_locker, set_stop, set_waiting, set_callers;
    cbn [pond stop thread_numb waiting total_tasks shared_tq shared_locker shrink_numb
         deleted_threads task_loaded futures callers tid_eqb Z.eqb];
    rewrite ?Nat.eqb_refl;
    cbn [pond stop thread_numb waiting total_tasks shared_tq shared_locker shrink_numb
         deleted_threads task_loaded futures callers];
    rewrite ?(list_insert_insert_eq cs k); reflexivity].

(** The first five actions of [close()]: the flag is set and every
    sleeper woken under the lock, then the joins are lined up. *)
Lemma caller_shuts (s : system) (k pick : nat) (rest : code) :
  callers s !! k = Some (close ++ rest) -> shared_locker s = None ->
  exec (replicate 5 (LCaller k pick)) s
  = Ok (mkSystem true (thread_numb s) (waiting s) (total_tasks s) (shared_tq s) None
          (map wake_handle (pond s)) (shrink_numb s) (deleted_threads s) (task_loaded s)
          (futures s) (<[k := joins 0 (length (pond s)) ++ rest]> (callers s))).
Proof.
  intros Hk Hfree.
  assert (Hlt : (k < length (callers s))%nat) by (eapply lookup_lt_Some; eassumption).
  destruct s as [st tn wt tt tq lk pd sh dl tl fu cs]. simpl in Hk, Hfree, Hlt. subst.
  cbn [pond stop thread_numb waiting total_tasks shared_tq shared_locker shrink_numb
       deleted_threads task_loaded futures callers].
  rewrite <- (list_insert_id _ _ _ Hk). cbn [replicate close app].
  do 5 (caller_act cs k Hlt). simpl.
  now rewrite list_insert_insert_eq, length_map.
Qed.

(** With [stop] set and the lock free, a worker that is not in the middle
    of a task leaves its loop. *)
Lemma worker_retires (s : system) (i : nat) (index : Z) (w : wstate) :
  pond s !! i = Some (Thread index w) -> leaving (Thread index w) = true ->
  stop s = true -> shared_locker s = None ->
  exists ls s',
    exec ls s = Ok s'
    /\ pond s' = <[i := Thread index WExited]> (pond s)
    /\ stop s' = true /\ shared_locker s' = None /\ callers s' = callers s
    /\ shared_tq s' = shared_tq s /\ total_tasks s' = total_tasks s
    /\ thread_numb s' = thread_numb s.
Proof.
  intros Hi Hw Hst Hfree.
  assert (Hlt : (i < length (pond s))%nat) by (eapply lookup_lt_Some; eassumption).
  destruct s as [st tn wt tt tq lk pd sh dl tl fu cs]. simpl in Hi, Hst, Hfree, Hlt. subst.
  cbn [pond stop thread_numb waiting total_tasks shared_tq shared_locker shrink_numb
       deleted_threads task_loaded futures callers].
  rewrite <- (list_insert_id _ _ _ Hi).
  destruct w; try discriminate.
  - exists [LWorker i 0%nat]. eexists. split; [worker_turn pd i Hlt; reflexivity|].
    cbn. rewrite list_insert_insert_eq. repeat split.
  - destruct sh as [|p|p].
    + exists (replicate 4 (LWorker i 0%nat)). eexists. cbn [replicate].
      split; [destruct tq; do 4 (worker_turn pd i Hlt); reflexivity|].
      cbn. rewrite list_insert_insert_eq. repeat split.
    + exists (replicate 3 (LWorker i 0%nat)). eexists. cbn [replicate].
      split; [destruct tq; do 3 (worker_turn pd i Hlt); reflexivity|].
      cbn. rewrite list_insert_insert_eq. repeat split.
    + exists (replicate 3 (LWorker i 0%nat)). eexists. cbn [replicate].
      split; [destruct tq; do 3 (worker_turn pd i Hlt); reflexivity|].
      cbn. rewrite list_insert_insert_eq. repeat split.
  - exists []. eexists. split; [reflexivity|].
    cbn. rewrite list_insert_insert_eq. repeat split.
Qed.

(** [pond[j].join()] on a worker that has returned. *)
Lemma caller_joins (s : system) (k pick j : nat) (index : Z) (c : code) :
  callers s !! k = Some (IJoin (Z.of_nat j) :: c) ->
  pond s !! j = Some (Thread index WExited) ->
  caller_step pick k s
  = Ok (set_callers (<[k := c]> (callers s)) (set_pond (<[j := NotJoinable]> (pond s)) s)).
Proof.
  intros Hk Hj. unfold caller_step. rewrite Hk. unfold exec_instr, slot, set_slot.
  assert (Hneg : (Z.of_nat j <? 0) = false) by (apply Z.ltb_ge; lia).
  rewrite Hneg, Nat2Z.id, Hj. reflexivity.
Qed.

Lemma joins_all (k : nat) (rest : code) (rem : list handle) :
  forall (pre : list handle) (s : system),
    pond s = pre ++ rem -> Forall (fun h => leaving h = true) rem ->
    stop s = true -> shared_locker s = None ->
    callers s !! k = Some (joins (length pre) (length rem) ++ rest) ->
    exists ls s',
      exec ls s = Ok s'
      /\ pond s' = pre ++ replicate (length rem) NotJoinable
      /\ callers s' = <[k := rest]> (callers s)
      /\ stop s' = true /\ shared_locker s' = None
      /\ shared_tq s' = shared_tq s /\ total_tasks s' = total_tasks s
      /\ thread_numb s' = thread_numb s.
Proof.
  induction rem as [|h rem IH]; intros pre s Hp Hl Hst Hfree Hk.
  - exists [], s. simpl in *. split; [reflexivity|]. split; [exact Hp|].
    split; [symmetry; apply list_insert_id; exact Hk|]. repeat split; assumption.
  - inversion Hl as [|? ? Hh Hl']; subst.
    destruct h as [|index w]; [discriminate|].
    assert (Hi : pond s !! length pre = Some (Thread index w)).
    { rewrite Hp, lookup_app_r by lia. now rewrite Nat.sub_diag. }
    destruct (worker_retires s (length pre) index w Hi Hh Hst Hfree)
      as (ls1 & s1 & He1 & Hp1 & Hst1 & Hf1 & Hc1 & Hq1 & Ht1 & Hn1).
    assert (Hp1' : pond s1 = pre ++ Thread index WExited :: rem).
    { rewrite Hp1, Hp, insert_app_r_alt by lia. now rewrite Nat.sub_diag. }
    assert (Hj : caller_step 0 k s1
                 = Ok (set_callers (<[k := joins (S (length pre)) (length rem) ++ rest]>
                                      (callers s1))
                         (set_pond (<[length pre := NotJoinable]> (pond s1)) s1))).
    { apply (caller_joins s1 k 0 (length pre) index).
      - rewrite Hc1, Hk. reflexivity.
      - rewrite Hp1', lookup_app_r by lia. now rewrite Nat.sub_diag. }
    match type of Hj with _ = Ok ?x => set (s2 := x) in * end.
    destruct (IH (pre ++ [NotJoinable]) s2) as (ls2 & s' & He2 & Hp2 & Hc2 & Hst2 & Hf2 & Hq2 & Ht2 & Hn2).
    + simpl. rewrite Hp1', insert_app_r_alt by lia.
      rewrite Nat.sub_diag. simpl. now rewrite <- app_assoc.
    + exact Hl'.
    + exact Hst1.
    + exact Hf1.
    + simpl. rewrite length_app, Nat.add_1_r.
      apply list_lookup_insert_eq. rewrite Hc1. eapply lookup_lt_Some; eassumption.
    + exists (ls1 ++ LCaller k 0 :: ls2), s'. split.
      { rewrite (exec_app _ _ _ _ He1). now rewrite (exec_caller_step _ _ _ _ _ Hj). }
      split. { rewrite Hp2, <- app_assoc. reflexivity. }
      split. { rewrite Hc2. simpl. rewrite list_insert_insert_eq. now rewrite Hc1. }
      split; [exact Hst2|]. split; [exact Hf2|].
      split; [rewrite Hq2; exact Hq1|]. split; [rewrite Ht2; exact Ht1|].
      rewrite Hn2. exact Hn1.
Qed.

Lemma idle_wakes_leaving (p : list handle) :
  Forall (fun h => idle h = true) p -> Forall (fun h => leaving h = true) (map wake_handle p).
Proof.
  intros H. apply List.Forall_map. eapply List.Forall_impl; [|exact H].
  intros [|index []]; simpl; congruence.
Qed.

Lemma close_completes (s : system) (k : nat) (rest : code) :
  callers s !! k = Some (close ++ rest) -> shared_locker s = None ->
  Forall (fun h => idle h = true) (pond s) ->
  exists ls s',
    exec ls s = Ok s'
    /\ pond s' = replicate (length (pond s)) NotJoinable
    /\ callers s' = <[k := rest]> (callers s)
    /\ stop s' = true /\ shared_locker s' = None
    /\ shared_tq s' = shared_tq s /\ total_tasks s' = total_tasks s
    /\ thread_numb s' = thread_numb s.
Proof.
  intros Hk Hfree Hidle.
  assert (Hlt : (k < length (callers s))%nat) by (eapply lookup_lt_Some; eassumption).
  pose proof (caller_shuts s k 0 rest Hk Hfree) as HA.
  match type of HA with _ = Ok ?x => set (sA := x) in * end.
  destruct (joins_all k rest (map wake_handle (pond s)) [] sA)
    as (ls & s' & He & Hp & Hc & Hst & Hf & Hq & Ht & Hn); try reflexivity.
  - now apply idle_wakes_leaving.
  - simpl. rewrite length_map. now apply list_lookup_insert_eq.
  - exists (replicate 5 (LCaller k 0) ++ ls), s'. split; [now rewrite (exec_app _ _ _ _ HA)|].
    split; [rewrite Hp, length_map; reflexivity|].
    split; [rewrite Hc; simpl; apply list_insert_insert_eq|].
    repeat split; assumption.
Qed.

(** X8. [close()] completes on a pond whose workers are idle (at the head
    of their loop, asleep on [awake_cv], or returned and not yet joined)
    when the lock is free: there is an interleaving of the caller and the
    workers after which the call has returned, [stop] is set, every thread
    of [pond] has been joined, the lock is free, and the tasks still in
    the queue are left there, counted in [total_tasks]. *)
Theorem close_joins_idle_pond (s : system) (k : nat) :
  callers s !! k = Some close -> shared_locker s = None ->
  Forall (fun h => idle h = true) (pond s) ->
  exists ls s',
    exec ls s = Ok s'
    /\ pond s' = replicate (length (pond s)) NotJoinable
    /\ callers s' = <[k := []]> (callers s)
    /\ stop s' = true /\ shared_locker s' = None
    /\ shared_tq s' = shared_tq s /\ getTasksRemain s' = getTasksRemain s
    /\ getThreadNumb s' = getThreadNumb s.
Proof.
  intros Hk Hfree Hidle. apply close_completes; [|assumption..].
  now rewrite app_nil_r.
Qed.

Lemma close_joins_idle_pond_witness :
  exists ls s',
    exec ls (mkSystem false 3 false 1 [Plain (Value 1)] None
               [Thread 0 WLoopHead; Thread 1 WBlocked; Thread 2 WExited] 0 [2] 0 [] [close])
    = Ok s'
    /\ pond s' = [NotJoinable; NotJoinable; NotJoinable]
    /\ callers s' = [[]]
    /\ stop s' = true
    /\ shared_tq s' = [Plain (Value 1)].
Proof.
  destruct (close_joins_idle_pond
              (mkSystem false 3 false 1 [Plain (Value 1)] None
                 [Thread 0 WLoopHead; Thread 1 WBlocked; Thread 2 WExited] 0 [2] 0 [] [close])
              0%nat eq_refl eq_refl)
    as (ls & s' & He & Hp & Hc & Hst & _ & Hq & _).
  - repeat constructor.
  - exists ls, s'. repeat split; assumption.
Defined.

Lemma caller_destroys (s : system) (k pick : nat) :
  callers s !! k = Some destroy ->
  caller_step pick k s
  = Ok (set_callers (<[k := if stop s then [] else close ++ []]> (callers s)) s).
Proof.
  intros Hk. unfold caller_step. rewrite Hk. unfold destroy, exec_instr.
  now destruct (stop s).
Qed.

(** X9. The body of the destructor: on a pond that has been closed it
    does nothing at all, so it does not join the threads a second time;
    on a pond that has not, with idle workers and the lock free, it
    completes as [close()] does, every thread joined and [stop] set. *)
Theorem destructor_closes_once (s : system) (k : nat) :
  callers s !! k = Some destroy ->
  (stop s = true ->
   forall pick, step (LCaller k pick) s = Ok (set_callers (<[k := []]> (callers s)) s))
  /\ (stop s = false -> shared_locker s = None ->
      Forall (fun h => idle h = true) (pond s) ->
      exists ls s',
        exec ls s = Ok s'
        /\ pond s' = replicate (length (pond s)) NotJoinable
        /\ callers s' = <[k := []]> (callers s)
        /\ stop s' = true /\ shared_locker s' = None
        /\ shared_tq s' = shared_tq s /\ getTasksRemain s' = getTasksRemain s
        /\ getThreadNumb s' = getThreadNumb s).
Proof.
  intros Hk.
  assert (Hlt : (k < length (callers s))%nat) by (eapply lookup_lt_Some; eassumption).
  pose proof (caller_destroys s k 0 Hk) as H1. split; [intros Hst|intros Hst Hfree Hidle].
  - intros pick. simpl. rewrite (caller_destroys s k pick Hk), Hst. reflexivity.
  - rewrite Hst in H1.
    match type of H1 with _ = Ok ?x => set (s1 := x) in * end.
    destruct (close_completes s1 k []) as (ls & s' & He & Hp & Hc & Hr); try assumption.
    { simpl. now apply list_lookup_insert_eq. }
    exists (LCaller k 0 :: ls), s'. split; [now rewrite (exec_caller_step _ _ _ _ _ H1)|].
    split; [exact Hp|]. split; [|exact Hr].
    rewrite Hc. simpl. apply list_insert_insert_eq.
Qed.

Lemma destructor_closes_once_witness :
  step (LCaller 0 0)
    (mkSystem true 1 false 0 [] None [NotJoinable] 0 [] 0 [] [destroy])
  = Ok (mkSystem true 1 false 0 [] None [NotJoinable] 0 [] 0 [] [[]])
  /\ exists ls s',
      exec ls (mkSystem false 1 false 0 [] None [Thread 0 WBlocked] 0 [] 0 [] [destroy]) = Ok s'
      /\ pond s' = [NotJoinable] /\ stop s' = true.
Proof.
  split.
  - exact (proj1 (destructor_closes_once
                    (mkSystem true 1 false 0 [] None [NotJoinable] 0 [] 0 [] [destroy])
                    0%nat eq_refl) eq_refl 0%nat).
  - destruct (proj2 (destructor_closes_once
                       (mkSystem false 1 false 0 [] None [Thread 0 WBlocked] 0 [] 0 [] [destroy])
                       0%nat eq_refl) eq_refl eq_refl ltac:(repeat constructor))
      as (ls & s' & He & Hp & _ & Hst & _).
    exists ls, s'. repeat split; assumption.
Defined.

Lemma construct_idle (tnumb : Z) (s : system) :
  construct tnumb = Ok s ->
  Forall (fun h => idle h = true) (pond s)
  /\ length (pond s) = Z.to_nat tnumb /\ shared_locker s = None
  /\ callers s = [] /\ thread_numb s = tnumb /\ stop s = false.
Proof.
  unfold construct. destruct (tnumb <? 0); [discriminate|]. intros H. injection H as <-. simpl.
  split; [|now rewrite length_map, length_seq].
  apply List.Forall_map, List.Forall_forall. reflexivity.
Qed.

(** X10. A pond constructed with any number of threads and then closed,
    or destroyed, right away shuts down: there is an interleaving after
    which the call has returned, each of the [tnumb] threads the
    constructor started has been joined, and [getThreadNumb] is still
    [tnumb]. *)
Theorem construct_then_close (tnumb : Z) (s : system) (r : request) :
  construct tnumb = Ok s -> r = RClose \/ r = RDestroy ->
  exists ls s',
    exec (LCall r :: ls) s = Ok s'
    /\ pond s' = replicate (Z.to_nat tnumb) NotJoinable
    /\ callers s' = [[]]
    /\ stop s' = true /\ shared_locker s' = None
    /\ getThreadNumb s' = tnumb.
Proof.
  intros Hc Hr. destruct (construct_idle _ _ Hc) as (Hidle & Hlen & Hfree & Hcs & Htn & Hst).
  set (s0 := set_callers (callers s ++ [program r]) s).
  assert (H0 : callers s0 = [program r]) by (simpl; now rewrite Hcs).
  assert (Hgo : exists ls s',
             exec ls s0 = Ok s'
             /\ pond s' = replicate (length (pond s0)) NotJoinable
             /\ callers s' = <[0%nat := []]> (callers s0)
             /\ stop s' = true /\ shared_locker s' = None
             /\ thread_numb s' = thread_numb s0).
  { destruct Hr as [-> | ->].
    - destruct (close_completes s0 0 []) as (ls & s' & He & Hp & Hk & Hs & Hf & _ & _ & Hn);
        try assumption.
      { now rewrite H0. }
      exists ls, s'. repeat split; assumption.
    - assert (H1 : caller_step 0 0 s0 = Ok (set_callers (<[0%nat := close ++ []]> (callers s0)) s0)).
      { rewrite (caller_destroys s0 0 0) by now rewrite H0. simpl stop. now rewrite Hst. }
      match type of H1 with _ = Ok ?x => set (s1 := x) in * end.
      destruct (close_completes s1 0 []) as (ls & s' & He & Hp & Hk & Hs & Hf & _ & _ & Hn);
        try assumption.
      { simpl. rewrite Hcs. reflexivity. }
      exists (LCaller 0 0 :: ls), s'. split; [now rewrite (exec_caller_step _ _ _ _ _ H1)|].
      split; [exact Hp|]. split; [|repeat split; assumption].
      rewrite Hk. simpl. apply list_insert_insert_eq. }
  destruct Hgo as (ls & s' & He & Hp & Hk & Hs & Hf & Hn).
  exists ls, s'. split; [exact He|]. split; [rewrite Hp; simpl; now rewrite Hlen|].
  split; [rewrite Hk, H0; reflexivity|]. split; [exact Hs|]. split; [exact Hf|].
  unfold getThreadNumb. rewrite Hn. exact Htn.
Qed.

Lemma construct_then_close_witness :
  exists ls s',
    exec (LCall RDestroy :: ls)
      (mkSystem false 2 false 0 [] None [Thread 0 WLoopHead; Thread 1 WLoopHead] 0 [] 0 [] [])
    = Ok s'
    /\ pond s' = [NotJoinable; NotJoinable]
    /\ getThreadNumb s' = 2.
Proof.
  destruct (construct_then_close 2
              (mkSystem false 2 false 0 [] None [Thread 0 WLoopHead; Thread 1 WLoopHead]
                 0 [] 0 [] [])
              RDestroy eq_refl (or_intror eq_refl))
    as (ls & s' & He & Hp & _ & _ & _ & Hn).
  exists ls, s'. repeat split; assumption.
Defined.

(** ** Mutual exclusion *)

(** X11. In every reachable state at most one thread is inside a scope
    of [shared_locker]: two workers at control points where the lock is
    owned are the same worker, two calling threads inside a lock scope
    are the same thread, and a worker and a calling thread are never
    inside one together. *)
Theorem mutual_exclusion (s : system) :
  reachable s ->
  (forall i j index index' w w',
      pond s !! i = Some (Thread index w) -> pond s !! j = Some (Thread index' w') ->
      holds w = true -> holds w' = true -> i = j)
  /\ (forall k k' c c',
         callers s !! k = Some c -> callers s !! k' = Some c' ->
         owns c = true -> owns c' = true -> k = k')
  /\ (forall i index w k c,
         pond s !! i = Some (Thread index w) -> callers s !! k = Some c ->
         holds w = true -> owns c = true -> False).
Proof.
  intros Hr. pose proof (reachable_inv s Hr) as Hi.
  pose proof (reachable_disciplined s Hr) as Hd.
  split; [|split].
  - intros i j index index' w w' Ha Hb Hw Hw'.
    pose proof (inv_worker_lock s Hi _ _ _ Ha Hw) as H1.
    pose proof (inv_worker_lock s Hi _ _ _ Hb Hw') as H2. congruence.
  - intros k k' c c' Ha Hb Ho Ho'.
    pose proof (proj2 (Hd _ _ Ha) Ho) as H1.
    pose proof (proj2 (Hd _ _ Hb) Ho') as H2. congruence.
  - intros i index w k c Ha Hb Hw Ho.
    pose proof (inv_worker_lock s Hi _ _ _ Ha Hw) as H1.
    pose proof (proj2 (Hd _ _ Hb) Ho) as H2. congruence.
Qed.

Lemma mutual_exclusion_witness :
  exists s,
    exec [LCall (RSubmit (Plain (Value 1))); LWorker 0 0; LWorker 0 0]
      (mkSystem false 1 false 0 [] None [Thread 0 WLoopHead] 0 [] 0 [] []) = Ok s
    /\ pond s = [Thread 0 WCheckPred]
    /\ ~ (exists k c, callers s !! k = Some c /\ owns c = true).
Proof.
  eexists. split; [vm_compute; reflexivity|]. split; [reflexivity|].
  intros (k & c & Hk & Ho).
  match type of Hk with
  | callers ?x !! _ = _ =>
      refine (proj2 (proj2 (mutual_exclusion x _)) 0%nat 0 WCheckPred k c eq_refl Hk eq_refl Ho)
  end.
  eapply (reachable_exec
            [LCall (RSubmit (Plain (Value 1))); LWorker 0 0; LWorker 0 0]
            (mkSystem false 1 false 0 [] None [Thread 0 WLoopHead] 0 [] 0 [] [])).
  - apply (reach_construct 1); [unfold in_int, INT_MIN, INT_MAX; lia|reflexivity].
  - vm_compute. reflexivity.
Defined.

(** ** A batch shorter than its container *)

Lemma batch_reads_take (cont : list HipeTask) (size : nat) :
  (size <= length cont)%nat ->
  map (fun i => IPush (cont !! i)) (seq 0 size)
  = map (fun t => IPush (Some t)) (take size cont).
Proof.
  intros Hle. rewrite <- (batch_reads (take size cont)).
  rewrite length_take, Nat.min_l by exact Hle.
  apply map_ext_in. intros i Hi. apply in_seq in Hi.
  f_equal. symmetry. apply lookup_take_lt. lia.
Qed.

(** X12. [submitInBatch(cont, size)] with [size] at most the length of
    the container, the lock free: the call returns, exactly the first
    [size] tasks of [cont] are at the back of the queue in their order,
    [total_tasks] has grown by [size], and every worker asleep on
    [awake_cv] has been woken, also when [size] is 0 and nothing was
    queued. *)
Theorem submitInBatch_prefix (me : tid) (cont : list HipeTask) (size : nat) (s : system) :
  (size <= length cont)%nat -> shared_locker s = None ->
  exists tr s',
    run (size + 4) me (submitInBatch cont size) s = (Finished, tr, ([], s'))
    /\ shared_tq s' = shared_tq s ++ take size cont
    /\ total_tasks s' = wrap (total_tasks s + Z.of_nat size)
    /\ pond s' = map wake_handle (pond s)
    /\ unblocked s'
    /\ shared_locker s' = None
    /\ (size = 0%nat -> in_int (total_tasks s) ->
        shared_tq s' = shared_tq s /\ total_tasks s' = total_tasks s).
Proof.
  intros Hle Hfree. unfold submitInBatch. rewrite (batch_reads_take _ _ Hle).
  assert (Hlen : length (take size cont) = size) by (rewrite length_take; lia).
  replace (size + 4)%nat with (S (S (length (take size cont) + 2))) by lia.
  cbn [run app exec_instr]. unfold lock. rewrite Hfree.
  cbn [run exec_instr]. rewrite run_pushes. cbn [run exec_instr]. unfold unlock.
  cbn [shared_locker set_shared_tq set_total_tasks set_shared_locker].
  rewrite tid_eqb_refl. cbn [shared_tq total_tasks notify_all pond].
  rewrite wrap_add_r.
  eexists _, _. split; [reflexivity|]. cbn.
  split; [reflexivity|]. split; [reflexivity|]. split; [reflexivity|].
  split; [apply wake_handle_unblocked|]. split; [reflexivity|].
  intros -> Hint. simpl. rewrite app_nil_r, Z.add_0_r. split; [reflexivity|].
  now apply wrap_in_int.
Qed.

Lemma submitInBatch_prefix_witness :
  exists tr s',
    run 5 (Caller 0) (submitInBatch [Plain (Value 1); Plain (Value 2)] 1)
      (mkSystem false 1 false 3 [Plain (Value 0)] None [Thread 0 WBlocked] 0 [] 0 [] [])
    = (Finished, tr, ([], s'))
    /\ shared_tq s' = [Plain (Value 0); Plain (Value 1)]
    /\ pond s' = [Thread 0 WWantLock].
Proof.
  destruct (submitInBatch_prefix (Caller 0) [Plain (Value 1); Plain (Value 2)] 1
              (mkSystem false 1 false 3 [Plain (Value 0)] None [Thread 0 WBlocked] 0 [] 0 [] []))
    as (tr & s' & Hrun & Hq & _ & Hp & _).
  - simpl. lia.
  - reflexivity.
  - exists tr, s'. split; [exact Hrun|]. split; [exact Hq|exact Hp].
Defined.

(** ** The last task and the thread that waits for it *)

Lemma wake_one_some (pick k : nat) (cs : list code) (c : code) :
  choose pick (drain_blocked_from 0 cs) = Some k -> cs !! k = Some c ->
  wake_one pick cs = <[k := wake_code c]> cs.
Proof. intros Hc Hk. unfold wake_one. now rewrite Hc, Hk. Qed.

(** A thread woken inside [waitForTasks] when nothing is left to do. *)
Lemma caller_drained (s : system) (k pick : nat) (rest : code) :
  callers s !! k = Some (wake_code drain_sleep ++ rest) ->
  shared_locker s = None -> total_tasks s = 0 ->
  exec (replicate 4 (LCaller k pick)) s
  = Ok (mkSystem (stop s) (thread_numb s) false 0 (shared_tq s) None (pond s) (shrink_numb s)
          (deleted_threads s) (task_loaded s) (futures s) (<[k := rest]> (callers s))).
Proof.
  intros Hk Hfree Ht.
  assert (Hlt : (k < length (callers s))%nat) by (eapply lookup_lt_Some; eassumption).
  destruct s as [st tn wt tt tq lk pd sh dl tl fu cs]. simpl in Hk, Hfree, Ht, Hlt. subst.
  cbn [pond stop thread_numb waiting total_tasks shared_tq shared_locker shrink_numb
       deleted_threads task_loaded futures callers].
  rewrite <- (list_insert_id _ _ _ Hk). cbn [replicate].
  do 4 (caller_act cs k Hlt). simpl. now rewrite list_insert_insert_eq.
Qed.

(** X13. A thread asleep in [waitForTasks] is released by the last task:
    with one task outstanding, queued, and [waiting] set, the turn of an
    idle worker runs the task, brings [total_tasks] to 0 and notifies
    [task_done_cv] under the lock; the sleeper it wakes takes the lock,
    finds the predicate true, clears [waiting], releases the lock and
    returns. *)
Theorem last_task_releases_waiter (s : system) (i k pick pick' : nat) (index : Z)
    (t : HipeTask) :
  pond s !! i = Some (Thread index WLoopHead) ->
  callers s !! k = Some drain_sleep ->
  choose pick (drain_waiters s) = Some k ->
  waiting s = true -> total_tasks s = 1 -> shared_tq s = [t] -> t <> Plain Failure ->
  stop s = false -> shrink_numb s = 0 -> shared_locker s = None ->
  exists s',
    exec (replicate 10 (LWorker i pick) ++ replicate 4 (LCaller k pick')) s = Ok s'
    /\ callers s' = <[k := []]> (callers s)
    /\ waiting s' = false
    /\ getTasksRemain s' = 0
    /\ shared_tq s' = []
    /\ shared_locker s' = None
    /\ pond s' = pond s.
Proof.
  intros Hi Hk Hc Hw Ht Hq Hne Hst Hsh Hfree.
  assert (Hli : (i < length (pond s))%nat) by (eapply lookup_lt_Some; eassumption).
  assert (H0 : worker pick i s = Ok (goto i index WWantLock s))
    by (unfold worker; now rewrite Hi, Hst).
  destruct (worker_serves (goto i index WWantLock s) i pick index t [])
    as (s1 & He1 & Hp1 & Hq1 & _ & Ht1 & _ & Hc1 & Hf1 & _); try assumption.
  { simpl. now apply list_lookup_insert_eq. }
  rewrite notify_one_done_wake in Hc1.
  cbn [goto set_pond set_callers waiting callers total_tasks pond] in He1, Hp1, Ht1, Hc1.
  rewrite Hw in He1, Hc1.
  rewrite list_insert_insert_eq, (list_insert_id _ _ _ Hi) in Hp1.
  rewrite (wake_one_some _ _ _ _ Hc Hk) in Hc1.
  rewrite Ht in Ht1. change (wrap (1 - 1)) with 0 in Ht1.
  assert (Hlt : (k < length (callers s))%nat) by (eapply lookup_lt_Some; eassumption).
  pose proof (caller_drained s1 k pick' []) as H2.
  rewrite Hc1, Hf1, Ht1, Hq1, Hp1 in H2.
  specialize (H2 (list_lookup_insert_eq _ _ _ Hlt) eq_refl eq_refl).
  rewrite list_insert_insert_eq in H2.
  eexists. split.
  { change (replicate 10 (LWorker i pick))
      with (LWorker i pick :: replicate 9 (LWorker i pick)).
    rewrite <- app_comm_cons, (exec_worker_step _ _ _ _ _ H0), (exec_app _ _ _ _ He1).
    exact H2. }
  repeat split.
Qed.

Lemma last_task_releases_waiter_witness :
  exists s',
    exec (replicate 10 (LWorker 0 0) ++ replicate 4 (LCaller 0 0))
      (mkSystem false 1 true 1 [Plain (Value 5)] None [Thread 0 WLoopHead] 0 [] 0 []
         [drain_sleep]) = Ok s'
    /\ callers s' = [[]]
    /\ waiting s' = false
    /\ getTasksRemain s' = 0.
Proof.
  destruct (last_task_releases_waiter
              (mkSystem false 1 true 1 [Plain (Value 5)] None [Thread 0 WLoopHead] 0 [] 0 []
                 [drain_sleep])
              0%nat 0%nat 0%nat 0%nat 0 (Plain (Value 5)))
    as (s' & He & Hc & Hw & Ht & _); try reflexivity.
  - discriminate.
  - exists s'. split; [exact He|]. split; [exact Hc|]. split; [exact Hw|exact Ht].
Defined.

(** ** Going to sleep *)

(** X14. A worker at the head of its loop that finds nothing to do (the
    queue empty, [stop] clear, [shrink_numb] not positive) takes the lock,
    evaluates the predicate, releases the lock and sleeps on [awake_cv]:
    nothing but its own control point has changed, and it takes no further
    step until it is woken. *)
Theorem idle_worker_sleeps (s : system) (i pick : nat) (index : Z) :
  pond s !! i = Some (Thread index WLoopHead) ->
  shared_tq s = [] -> stop s = false -> shrink_numb s <= 0 -> shared_locker s = None ->
  exec (replicate 4 (LWorker i pick)) s = Ok (goto i index WBlocked s)
  /\ forall pick', step (LWorker i pick') (goto i index WBlocked s) = NotEnabled.
Proof.
  intros Hi Hq Hst Hsh Hfree.
  assert (Hlt : (i < length (pond s))%nat) by (eapply lookup_lt_Some; eassumption).
  split.
  - destruct s as [st tn wt tt tq lk pd sh dl tl fu cs]. simpl in Hi, Hq, Hst, Hsh, Hfree, Hlt.
    subst. unfold goto, set_pond.
    cbn [pond stop thread_numb waiting total_tasks shared_tq shared_locker shrink_numb
         deleted_threads task_loaded futures callers].
    rewrite <- (list_insert_id _ _ _ Hi). cbn [replicate].
    destruct sh as [|p|p]; [|lia|]; do 4 (worker_turn pd i Hlt);
      now rewrite list_insert_insert_eq.
  - intros pick'. simpl. unfold worker. simpl.
    now rewrite list_lookup_insert_eq by exact Hlt.
Qed.

Lemma idle_worker_sleeps_witness :
  exec (replicate 4 (LWorker 0 0))
    (mkSystem false 1 false 0 [] None [Thread 0 WLoopHead] 0 [] 0 [] [])
  = Ok (mkSystem false 1 false 0 [] None [Thread 0 WBlocked] 0 [] 0 [] []).
Proof.
  exact (proj1 (idle_worker_sleeps
                  (mkSystem false 1 false 0 [] None [Thread 0 WLoopHead] 0 [] 0 [] [])
                  0%nat 0%nat 0 eq_refl eq_refl eq_refl ltac:(simpl; lia) eq_refl)).
Defined.

(** X15. Spurious wake-ups are harmless.  A worker woken on [awake_cv]
    for no reason takes the lock, finds the predicate false and sleeps
    again; a thread woken in [waitForTasks] while tasks are outstanding
    does the same on [task_done_cv].  In both cases the pond is exactly
    as it was. *)
Theorem spurious_wakeup_harmless (s : system) :
  shared_locker s = None ->
  (forall i pick index,
      pond s !! i = Some (Thread index WBlocked) ->
      shared_tq s = [] -> stop s = false -> shrink_numb s <= 0 ->
      exec (LSpurious i :: replicate 3 (LWorker i pick)) s = Ok s)
  /\ (forall k pick rest,
         callers s !! k = Some (IBlockedDrain :: ICheckDrain :: rest) ->
         total_tasks s <> 0 ->
         exec (LSpuriousDrain k :: replicate 3 (LCaller k pick)) s = Ok s).
Proof.
  intros Hfree. split.
  - intros i pick index Hi Hq Hst Hsh.
    assert (Hlt : (i < length (pond s))%nat) by (eapply lookup_lt_Some; eassumption).
    destruct s as [st tn wt tt tq lk pd sh dl tl fu cs]. simpl in Hi, Hq, Hst, Hsh, Hfree, Hlt.
    subst. cbn [exec step]. unfold wake_worker. cbn [pond]. rewrite Hi.
    unfold set_pond.
    cbn [pond stop thread_numb waiting total_tasks shared_tq shared_locker shrink_numb
         deleted_threads task_loaded futures callers wake_handle replicate].
    destruct sh as [|p|p]; [|lia|]; do 3 (worker_turn pd i Hlt);
      now rewrite (list_insert_id _ _ _ Hi).
  - intros k pick rest Hk Ht.
    assert (Hlt : (k < length (callers s))%nat) by (eapply lookup_lt_Some; eassumption).
    destruct s as [st tn wt tt tq lk pd sh dl tl fu cs]. simpl in Hk, Ht, Hfree, Hlt.
    subst. cbn [exec step]. unfold wake_caller. cbn [callers]. rewrite Hk.
    unfold set_callers.
    cbn [pond stop thread_numb waiting total_tasks shared_tq shared_locker shrink_numb
         deleted_threads task_loaded futures callers wake_code replicate].
    destruct tt as [|p|p]; [now elim Ht| |]; do 3 (caller_act cs k Hlt);
      now rewrite (list_insert_id _ _ _ Hk).
Qed.

Lemma spurious_wakeup_harmless_witness :
  exec (LSpurious 0 :: replicate 3 (LWorker 0 0))
    (mkSystem false 1 false 0 [] None [Thread 0 WBlocked] 0 [] 0 [] [])
  = Ok (mkSystem false 1 false 0 [] None [Thread 0 WBlocked] 0 [] 0 [] [])
  /\ exec (LSpuriousDrain 0 :: replicate 3 (LCaller 0 0))
       (mkSystem false 1 true 1 [] None [Thread 0 (WInvoke (Plain (Value 1)))] 0 [] 1 []
          [drain_sleep])
     = Ok (mkSystem false 1 true 1 [] None [Thread 0 (WInvoke (Plain (Value 1)))] 0 [] 1 []
             [drain_sleep]).
Proof.
  split.
  - exact (proj1 (spurious_wakeup_harmless
                    (mkSystem false 1 false 0 [] None [Thread 0 WBlocked] 0 [] 0 [] [])
                    eq_refl)
             0%nat 0%nat 0 eq_refl eq_refl eq_refl ltac:(simpl; lia)).
  - exact (proj2 (spurious_wakeup_harmless
                    (mkSystem false 1 true 1 [] None [Thread 0 (WInvoke (Plain (Value 1)))]
                       0 [] 1 [] [drain_sleep])
                    eq_refl)
             0%nat 0%nat [ISetWaiting false; IUnlock] eq_refl ltac:(simpl; lia)).
Defined.

(** ** Shrinking, then growing again *)

Ltac caller_do cs k Hlt tac :=
  erewrite exec_caller_step;
  [|unfold caller_step;
    cbn [pond stop thread_numb waiting total_tasks shared_tq shared_locker shrink_numb
         deleted_threads task_loaded futures callers];
    rewrite (list_lookup_insert_eq cs k) by exact Hlt;
    unfold exec_instr, notify_all, slot, set_slot;
    unfold lock, unlock, set_pond, set_shared_locker, set_thread_numb, set_shrink_numb,
      set_deleted_threads, set_callers;
    cbn [pond stop thread_numb waiting total_tasks shared_tq shared_locker shrink_numb
         deleted_threads task_loaded futures callers tid_eqb];
    tac;
    cbn [pond stop thread_numb waiting total_tasks shared_tq shared_locker shrink_numb
         deleted_threads task_loaded futures callers app recycle];
    rewrite ?(list_insert_insert_eq cs k); reflexivity].

(** The four actions of [delThreads]. *)
Lemma caller_shrinks (s : system) (k pick : nat) (tnumb : Z) (rest : code) :
  callers s !! k = Some (delThreads tnumb ++ rest) -> 0 <= tnumb <= thread_numb s ->
  exec (replicate 4 (LCaller k pick)) s
  = Ok (mkSystem (stop s) (wrap (thread_numb s + - tnumb)) (waiting s) (total_tasks s)
          (shared_tq s) (shared_locker s) (map wake_handle (pond s))
          (wrap (shrink_numb s + tnumb)) (deleted_threads s) (task_loaded s) (futures s)
          (<[k := rest]> (callers s))).
Proof.
  intros Hk Hn.
  assert (Hlt : (k < length (callers s))%nat) by (eapply lookup_lt_Some; eassumption).
  destruct s as [st tn wt tt tq lk pd sh dl tl fu cs]. simpl in Hk, Hn, Hlt.
  cbn [pond stop thread_numb waiting total_tasks shared_tq shared_locker shrink_numb
       deleted_threads task_loaded futures callers].
  assert (Hb : (tnumb <=? tn) && (0 <=? tnumb) = true)
    by (apply andb_true_intro; split; apply Z.leb_le; lia).
  rewrite <- (list_insert_id _ _ _ Hk). cbn [replicate delThreads app].
  do 4 (caller_do cs k Hlt ltac:(rewrite ?Hb)).
  now rewrite list_insert_insert_eq.
Qed.

(** A woken worker that finds [shrink_numb] positive. *)
Lemma worker_shrinks (s : system) (i pick : nat) (index : Z) :
  pond s !! i = Some (Thread index WWantLock) -> shared_locker s = None ->
  0 < shrink_numb s ->
  exec (replicate 3 (LWorker i pick)) s
  = Ok (mkSystem (stop s) (thread_numb s) (waiting s) (total_tasks s) (shared_tq s) None
          (<[i := Thread index WExited]> (pond s)) (wrap (shrink_numb s - 1))
          (deleted_threads s ++ [index]) (task_loaded s) (futures s) (callers s)).
Proof.
  intros Hi Hfree Hsh.
  assert (Hlt : (i < length (pond s))%nat) by (eapply lookup_lt_Some; eassumption).
  destruct s as [st tn wt tt tq lk pd sh dl tl fu cs]. simpl in Hi, Hfree, Hsh, Hlt. subst.
  cbn [pond stop thread_numb waiting total_tasks shared_tq shared_locker shrink_numb
       deleted_threads task_loaded futures callers].
  rewrite <- (list_insert_id _ _ _ Hi). cbn [replicate].
  destruct sh as [|p|p]; try lia.
  destruct tq, st; do 3 (worker_turn pd i Hlt); now rewrite list_insert_insert_eq.
Qed.

(** [addThreads(1)] when a slot waits to be recycled. *)
Lemma caller_recycles (s : system) (k pick j : nat) (index : Z) (d : list Z) (rest : code) :
  callers s !! k = Some (addThreads 1 ++ rest) -> shared_locker s = None ->
  deleted_threads s = Z.of_nat j :: d -> pond s !! j = Some (Thread index WExited) ->
  exec (replicate 7 (LCaller k pick)) s
  = Ok (mkSystem (stop s) (wrap (thread_numb s + 1)) (waiting s) (total_tasks s)
          (shared_tq s) None (<[j := Thread (Z.of_nat j) WLoopHead]> (pond s))
          (shrink_numb s) d (task_loaded s) (futures s) (<[k := rest]> (callers s))).
Proof.
  intros Hk Hfree Hd Hj.
  assert (Hlt : (k < length (callers s))%nat) by (eapply lookup_lt_Some; eassumption).
  assert (Hlj : (j < length (pond s))%nat) by (eapply lookup_lt_Some; eassumption).
  destruct s as [st tn wt tt tq lk pd sh dl tl fu cs]. simpl in Hk, Hfree, Hd, Hj, Hlt, Hlj.
  subst.
  cbn [pond stop thread_numb waiting total_tasks shared_tq shared_locker shrink_numb
       deleted_threads task_loaded futures callers].
  assert (Hneg : (Z.of_nat j <? 0) = false) by (apply Z.ltb_ge; lia).
  rewrite <- (list_insert_id _ _ _ Hk).
  change (0 <=? 1) with true. cbn [replicate].
  do 7 (caller_do cs k Hlt
          ltac:(rewrite ?Nat.eqb_refl, ?Hneg, ?Nat2Z.id, ?Hj,
                  ?(list_lookup_insert_eq pd j) by exact Hlj)).
  now rewrite !list_insert_insert_eq.
Qed.

Lemma insert_last {A : Type} (l : list A) (x y : A) : <[length l := y]> (l ++ [x]) = l ++ [y].
Proof. rewrite insert_app_r_alt by lia. now rewrite Nat.sub_diag. Qed.

Lemma lookup_last {A : Type} (l : list A) (x : A) : (l ++ [x]) !! length l = Some x.
Proof. rewrite lookup_app_r by lia. now rewrite Nat.sub_diag. Qed.

(** X16. Shrinking by one thread and growing by one again reuses the
    slot.  On a pond with nothing to shrink or recycle, [delThreads(1)]
    wakes the sleeping workers; the one that gets the lock leaves its loop
    and queues the number of its slot; [addThreads(1)] then joins that
    thread and starts a new worker in the same slot.  The vector has the
    length it had, [getThreadNumb] is back to its value, and
    [shrink_numb] and [deleted_threads] are empty again. *)
Theorem shrink_then_grow_reuses_slot (s : system) (i : nat) :
  pond s !! i = Some (Thread (Z.of_nat i) WBlocked) ->
  shared_locker s = None -> shrink_numb s = 0 -> deleted_threads s = [] ->
  1 <= thread_numb s -> in_int (thread_numb s) ->
  exists s',
    exec ([LCall (RDelThreads 1)] ++ replicate 4 (LCaller (length (callers s)) 0)
            ++ replicate 3 (LWorker i 0)
            ++ [LCall (RAddThreads 1)] ++ replicate 7 (LCaller (S (length (callers s))) 0)) s
    = Ok s'
    /\ pond s' = <[i := Thread (Z.of_nat i) WLoopHead]> (map wake_handle (pond s))
    /\ length (pond s') = length (pond s)
    /\ getThreadNumb s' = getThreadNumb s
    /\ shrink_numb s' = 0 /\ deleted_threads s' = []
    /\ callers s' = callers s ++ [[]; []]
    /\ shared_locker s' = None /\ shared_tq s' = shared_tq s
    /\ total_tasks s' = total_tasks s /\ stop s' = stop s.
Proof.
  intros Hi Hfree Hsh Hd Htn Hint.
  assert (Hli : (i < length (pond s))%nat) by (eapply lookup_lt_Some; eassumption).
  set (k := length (callers s)).
  (* delThreads(1) *)
  set (s0 := set_callers (callers s ++ [delThreads 1]) s).
  pose proof (caller_shrinks s0 k 0 1 []) as HA.
  rewrite app_nil_r in HA. specialize (HA (lookup_last _ _) ltac:(simpl; lia)).
  cbn [s0 set_callers stop thread_numb waiting total_tasks shared_tq shared_locker pond
       shrink_numb deleted_threads task_loaded futures callers] in HA.
  unfold k in HA at 2. rewrite insert_last, Hfree, Hsh, Hd in HA.
  change (wrap (0 + 1)) with 1 in HA.
  match type of HA with _ = Ok ?x => set (sA := x) in * end.
  (* the worker that gets the lock *)
  pose proof (worker_shrinks sA i 0 (Z.of_nat i)) as HB.
  cbn [sA stop thread_numb waiting total_tasks shared_tq shared_locker pond
       shrink_numb deleted_threads task_loaded futures callers] in HB.
  rewrite list_lookup_fmap, Hi in HB. specialize (HB eq_refl eq_refl ltac:(lia)).
  change (wrap (1 - 1)) with 0 in HB. cbn [app] in HB.
  match type of HB with _ = Ok ?x => set (sB := x) in * end.
  (* addThreads(1) *)
  set (s1 := set_callers (callers sB ++ [addThreads 1]) sB).
  pose proof (caller_recycles s1 (S k) 0 i (Z.of_nat i) [] []) as HC.
  rewrite app_nil_r in HC.
  cbn [s1 sB set_callers stop thread_numb waiting total_tasks shared_tq shared_locker pond
       shrink_numb deleted_threads task_loaded futures callers] in HC.
  assert (Hk1 : length (callers s ++ [[]]) = S k) by (rewrite length_app; simpl; lia).
  rewrite <- Hk1 in HC.
  specialize (HC (lookup_last _ _) eq_refl eq_refl).
  rewrite list_lookup_insert_eq in HC by (rewrite length_map; exact Hli).
  specialize (HC eq_refl).
  rewrite insert_last, list_insert_insert_eq, <- app_assoc in HC.
  eexists. split.
  { rewrite <- Hk1. cbn [app exec step program].
    fold s0. rewrite (exec_app _ _ _ _ HA), (exec_app _ _ _ _ HB).
    cbn [exec step program]. fold s1. rewrite HC. reflexivity. }
  cbn. split; [reflexivity|]. split; [now rewrite length_insert, length_map|].
  split; [|repeat split].
  unfold getThreadNumb. simpl. rewrite wrap_add_l.
  transitivity (wrap (thread_numb s)); [f_equal; lia|now apply wrap_in_int].
Qed.

Lemma shrink_then_grow_reuses_slot_witness :
  exists s',
    exec ([LCall (RDelThreads 1)] ++ replicate 4 (LCaller 0 0) ++ replicate 3 (LWorker 1 0)
            ++ [LCall (RAddThreads 1)] ++ replicate 7 (LCaller 1 0))
      (mkSystem false 2 false 0 [] None [Thread 0 WBlocked; Thread 1 WBlocked] 0 [] 0 [] [])
    = Ok s'
    /\ pond s' = [Thread 0 WWantLock; Thread 1 WLoopHead]
    /\ getThreadNumb s' = 2.
Proof.
  destruct (shrink_then_grow_reuses_slot
              (mkSystem false 2 false 0 [] None [Thread 0 WBlocked; Thread 1 WBlocked]
                 0 [] 0 [] [])
              1%nat eq_refl eq_refl eq_refl eq_refl)
    as (s' & He & Hp & _ & Hn & _).
  - simpl. lia.
  - unfold in_int, INT_MIN, INT_MAX. simpl. lia.
  - exists s'. split; [exact He|]. split; [exact Hp|exact Hn].
Defined.
